(** * WakeSprint: device registry and Wake-on-LAN dispatcher

    A shallow embedding of the TypeScript sources

    - [types.ts]                      the [Device] and [WakeResult] records,
    - the Wake-on-LAN service         ([WakeOnLanService]: wake, wakeDevice,
                                      wakeMultiple, isValidMac),
    - the JSON-file device manager    ([DeviceManager] over [devices.json]),
    - the SQLite device manager       ([backend/src/device-manager.ts]),

    followed by the properties proved about them.

    JavaScript strings are modelled as [string] (byte strings); letter case is
    folded on the ASCII letters, which is exactly SQLite's [NOCASE] collation.
    [String.prototype.toLowerCase], which the JSON-file manager compares
    names with, folds the letters of every script: the two agree on names
    made of ASCII characters only ([Words.plain]), and statements about
    look-ups of the JSON-file manager that need more than that say so. *)

From Stdlib Require Import String Ascii List Bool Arith ZArith Lia.
From Stdlib Require Import Permutation Sorted.
From Stdlib Require Import NArith.
Import ListNotations.
Open Scope string_scope.
Open Scope nat_scope.
Open Scope list_scope.

Set Implicit Arguments.

(* ================================================================== *)
(** * Data model ([types.ts]) *)
(* ================================================================== *)

Record Device := mkDevice {
  name : string;
  mac : string;
  ip : option string;
  broadcast : option string
}.

Record WakeResult := mkWakeResult {
  success : bool;
  device : string;
  wmac : string;
  message : string
}.

(** [Partial<Device>]: every field may be absent ([None]).  For the two
    nullable columns a supplied value may itself be empty ([Some None],
    the JSON [null]), which clears the field. *)
Record Updates := mkUpdates {
  uname : option string;
  umac : option string;
  uip : option (option string);
  ubroadcast : option (option string)
}.

Definition noUpdates : Updates := mkUpdates None None None None.

(* ================================================================== *)
(** * Case folding *)
(* ================================================================== *)

Module Case.

Definition isUpper (c : ascii) : bool :=
  ((65 <=? nat_of_ascii c) && (nat_of_ascii c <=? 90))%nat.

Definition lowerChar (c : ascii) : ascii :=
  if isUpper c then ascii_of_nat (nat_of_ascii c + 32) else c.

Fixpoint toLowerCase (s : string) : string :=
  match s with
  | EmptyString => EmptyString
  | String c t => String (lowerChar c) (toLowerCase t)
  end.

(** [a = b COLLATE NOCASE]; also [a.toLowerCase() === b.toLowerCase()]
    when [a] and [b] hold ASCII characters only. *)
Definition sameName (a b : string) : bool :=
  String.eqb (toLowerCase a) (toLowerCase b).

(** [a <= b] under [COLLATE NOCASE]: bytewise order of the folded strings. *)
Definition nocaseLeb (a b : string) : bool :=
  String.leb (toLowerCase a) (toLowerCase b).

End Case.

(* ================================================================== *)
(** * A small regular-expression engine

    Just the constructs [macRegex] uses: character classes, sequencing and
    the bounded repetition [r{n}].  [test] is the anchored match [^r$]. *)
(* ================================================================== *)

Module Regex.

Inductive regex : Type :=
| Class (ranges : list (ascii * ascii))
| Seq (r1 r2 : regex)
| Repeat (n : nat) (r : regex).

Definition inRange (c : ascii) (lohi : ascii * ascii) : bool :=
  ((nat_of_ascii (fst lohi) <=? nat_of_ascii c)
   && (nat_of_ascii c <=? nat_of_ascii (snd lohi)))%nat.

Definition inClass (ranges : list (ascii * ascii)) (c : ascii) : bool :=
  existsb (inRange c) ranges.

(** Backtracking matcher in continuation-passing style: [rematch r s k]
    consumes a prefix of [s] matched by [r] and hands the rest to [k]. *)
Fixpoint rematch (r : regex) (s : list ascii) (k : list ascii -> bool)
  {struct r} : bool :=
  match r with
  | Class ranges =>
      match s with
      | [] => false
      | c :: t => inClass ranges c && k t
      end
  | Seq r1 r2 => rematch r1 s (fun t => rematch r2 t k)
  | Repeat n r1 =>
      (fix loop (n : nat) (s : list ascii) {struct n} : bool :=
         match n with
         | O => k s
         | S m => rematch r1 s (fun t => loop m t)
         end) n s
  end.

Definition atEnd (s : list ascii) : bool :=
  match s with [] => true | _ => false end.

(** [/^r$/.test(s)] *)
Definition test (r : regex) (s : string) : bool :=
  rematch r (list_ascii_of_string s) atEnd.

(** Denotation of a regex as a set of words. *)
Fixpoint power (L : list ascii -> Prop) (n : nat) (s : list ascii) : Prop :=
  match n with
  | O => s = []
  | S m => exists s1 s2, s = s1 ++ s2 /\ L s1 /\ power L m s2
  end.

Fixpoint lang (r : regex) (s : list ascii) : Prop :=
  match r with
  | Class ranges => exists c, s = [c] /\ inClass ranges c = true
  | Seq r1 r2 => exists s1 s2, s = s1 ++ s2 /\ lang r1 s1 /\ lang r2 s2
  | Repeat n r1 => power (lang r1) n s
  end.

End Regex.

(* ================================================================== *)
(** * The [wake_on_lan] package

    [import wol from 'wake_on_lan'] is a dependency; its code is not among
    the sources.  The service sees it through [wol.wake(mac, opts,
    callback)], which hands datagrams to a UDP socket and reports through
    [callback(error)]; like any call it may also throw.  The options
    object carries at most an [address]. *)
(* ================================================================== *)

Module WakeOnLan.

(** ** The interface *)

(** What reaches the UDP socket. *)
Record Datagram := mkDatagram {
  payload : list Z;
  port : Z;
  address : string
}.

(** How one call of [wol.wake] ends. *)
Inductive LibOutcome : Type :=
| Callback (sent : list Datagram) (error : option string)
| Thrown (reason : string).

(** [wol.wake] as a function of the MAC and of the [address] option. *)
Definition WolLib : Type := string -> option string -> LibOutcome.

(** ** The packet and its delivery *)

(** Modelled from the spec: the value of a hexadecimal digit, either
    letter case. *)
Definition hexValue (c : ascii) : option Z :=
  let n := nat_of_ascii c in
  if (48 <=? n) && (n <=? 57) then Some (Z.of_nat (n - 48))
  else if (65 <=? n) && (n <=? 70) then Some (Z.of_nat (n - 55))
  else if (97 <=? n) && (n <=? 102) then Some (Z.of_nat (n - 87))
  else None.

(** Modelled from the spec: octets are separated by [:] or [-]. *)
Definition isSeparator (c : ascii) : bool :=
  Ascii.eqb c ":" || Ascii.eqb c "-".

(** Modelled from the spec: an octet is written as two hex digits. *)
Definition octet (hi lo : ascii) : option Z :=
  match hexValue hi, hexValue lo with
  | Some h, Some l => Some (16 * h + l)%Z
  | _, _ => None
  end.

(** Modelled from the spec: groups of two hex digits, neighbours parted
    by the separator [sep], read as octets.  Another character between
    two groups, the other separator included, is refused. *)
Fixpoint macGroups (sep : ascii) (cs : list ascii) : option (list Z) :=
  match cs with
  | hi :: lo :: rest =>
      match octet hi lo with
      | None => None
      | Some o =>
          match rest with
          | [] => Some [o]
          | p :: more =>
              if Ascii.eqb p sep then option_map (cons o) (macGroups sep more)
              else None
          end
      end
  | _ => None
  end.

(** Modelled from the spec: a MAC is six octets written as two hex
    digits each, separated by [:] throughout or by [-] throughout.  The
    character after the first group decides which. *)
Definition macOctets (mac : string) : option (list Z) :=
  match list_ascii_of_string mac with
  | _ :: _ :: sep :: _ =>
      if isSeparator sep then
        match macGroups sep (list_ascii_of_string mac) with
        | Some octets => if length octets =? 6 then Some octets else None
        | None => None
        end
      else None
  | _ => None
  end.

(** Modelled from the spec: the magic packet is six bytes [0xFF]
    followed by the six-byte target MAC repeated sixteen times. *)
Definition createMagicPacket (octets : list Z) : list Z :=
  repeat 255%Z 6 ++ concat (repeat octets 16).

(** Modelled from the spec: the default broadcast address. *)
Definition defaultBroadcast : string := "255.255.255.255".

(** Modelled from the spec: the UDP port magic packets are sent to. *)
Definition wolPort : Z := 9%Z.

(** Modelled from the spec: what a malformed MAC is refused with. *)
Definition malformed : string := "malformed MAC address".

(** Modelled from the spec: [wol.wake] of the [wake_on_lan] package.
    One UDP datagram carrying the magic packet goes to port 9 at the
    given address, else at the default broadcast address; the socket's
    verdict [net] reaches the callback.  Any other form of MAC is
    rejected before transmission is attempted: the call throws and
    nothing is sent. *)
Definition wolSpec (net : Datagram -> option string) : WolLib :=
  fun mac opts =>
    match macOctets mac with
    | None => Thrown malformed
    | Some octets =>
        let d := {| payload := createMagicPacket octets;
                    port := wolPort;
                    address := match opts with
                               | Some a => a
                               | None => defaultBroadcast
                               end |} in
        Callback [d] (net d)
    end.

End WakeOnLan.

(* ================================================================== *)
(** * The Wake-on-LAN service ([WakeOnLanService]) *)
(* ================================================================== *)

Module WakeOnLanService.
Import Regex WakeOnLan.

(** ** isValidMac *)

Definition hexDigit : regex := Class [("0", "9"); ("A", "F"); ("a", "f")]%char.
Definition separator : regex := Class [(":", ":"); ("-", "-")]%char.

(** [/^([0-9A-Fa-f]{2}[:-]){5}([0-9A-Fa-f]{2})$/] *)
Definition macRegex : regex :=
  Seq (Repeat 5 (Seq (Repeat 2 hexDigit) separator)) (Repeat 2 hexDigit).

Definition isValidMac (mac : string) : bool := test macRegex mac.

(** A promise that has settled. *)
Inductive Promise (A : Type) : Type :=
| Resolved (value : A)
| Rejected (reason : string).
Arguments Resolved {A} value.
Arguments Rejected {A} reason.

(** JavaScript truthiness of an optional string: [undefined] and the
    empty string are falsy. *)
Definition truthy (s : option string) : bool :=
  match s with
  | Some v => negb (String.eqb v "")
  | None => false
  end.

(** What [new Promise(executor)] yields when the executor's only effect
    is one library call whose callback resolves the promise: a throw
    inside the executor rejects it. *)
Definition settle (callback : option string -> WakeResult)
           (call : LibOutcome) : list Datagram * Promise WakeResult :=
  match call with
  | Callback sent error => (sent, Resolved (callback error))
  | Thrown reason => ([], Rejected reason)
  end.

(** ** wake *)

Definition wakeCallback (mac : string) (error : option string) : WakeResult :=
  match error with
  | Some errorMessage =>
      {| success := false;
         device := "Unknown";
         wmac := mac;
         message := ("Failed to wake device: " ++ errorMessage)%string |}
  | None =>
      {| success := true;
         device := "Unknown";
         wmac := mac;
         message := "Magic packet sent successfully" |}
  end.

Definition wake (wol : WolLib) (mac : string) (broadcast : option string)
  : list Datagram * Promise WakeResult :=
  settle (wakeCallback mac)
         (if truthy broadcast then wol mac broadcast else wol mac None).

(** ** wakeDevice *)

Definition wakeDeviceCallback (d : Device) (error : option string)
  : WakeResult :=
  match error with
  | Some errorMessage =>
      {| success := false;
         device := name d;
         wmac := mac d;
         message :=
           ("Failed to wake " ++ name d ++ ": " ++ errorMessage)%string |}
  | None =>
      {| success := true;
         device := name d;
         wmac := mac d;
         message :=
           ("Magic packet sent to " ++ name d ++ " successfully")%string |}
  end.

Definition wakeDevice (wol : WolLib) (d : Device)
  : list Datagram * Promise WakeResult :=
  settle (wakeDeviceCallback d)
         (if truthy (broadcast d) then wol (mac d) (broadcast d)
          else wol (mac d) None).

(** ** wakeMultiple

    [devices.map(device => this.wakeDevice(device))] runs every executor,
    hence every library call, before control returns to the event loop;
    the callbacks then fire in whatever order the sends complete.
    [Promise.all] keeps one slot per input promise, fills slot [i] when
    promise [i] resolves, rejects on the first rejection, and resolves
    with the slots in index order once none is empty. *)

Inductive Event : Type :=
| Started (index : nat) (sent : list Datagram)
| Completed (index : nat).

Inductive AllState : Type :=
| Waiting (slots : list (option WakeResult))
| Failed (reason : string).

Inductive Settled (A : Type) : Type :=
| Fulfilled (value : A)
| Broken (reason : string)
| Pending.
Arguments Fulfilled {A} value.
Arguments Broken {A} reason.
Arguments Pending {A}.

Fixpoint setSlot (i : nat) (r : WakeResult) (slots : list (option WakeResult))
  : list (option WakeResult) :=
  match slots, i with
  | [], _ => []
  | _ :: rest, O => Some r :: rest
  | s :: rest, S j => s :: setSlot j r rest
  end.

Definition deliver (promises : list (Promise WakeResult))
           (st : AllState) (i : nat) : AllState :=
  match st with
  | Failed reason => Failed reason
  | Waiting slots =>
      match nth_error promises i with
      | Some (Resolved r) => Waiting (setSlot i r slots)
      | Some (Rejected reason) => Failed reason
      | None => Waiting slots
      end
  end.

Fixpoint collect (slots : list (option WakeResult))
  : option (list WakeResult) :=
  match slots with
  | [] => Some []
  | None :: _ => None
  | Some r :: rest =>
      match collect rest with
      | Some rs => Some (r :: rs)
      | None => None
      end
  end.

Definition promiseAll (promises : list (Promise WakeResult))
           (order : list nat) : Settled (list WakeResult) :=
  match fold_left (deliver promises) order
                  (Waiting (repeat None (length promises))) with
  | Failed reason => Broken reason
  | Waiting slots =>
      match collect slots with
      | Some rs => Fulfilled rs
      | None => Pending
      end
  end.

(** The calls made by [devices.map], in index order, each with the
    datagrams its library call handed to the socket. *)
Fixpoint startEvents (from : nat) (calls : list (list Datagram))
  : list Event :=
  match calls with
  | [] => []
  | sent :: rest => Started from sent :: startEvents (S from) rest
  end.

(** [order] is the order in which the event loop runs the callbacks. *)
Definition wakeMultiple (wol : WolLib) (devices : list Device)
           (order : list nat) : list Event * Settled (list WakeResult) :=
  let promises := map (fun d => snd (wakeDevice wol d)) devices in
  (startEvents 0 (map (fun d => fst (wakeDevice wol d)) devices)
     ++ map Completed order,
   promiseAll promises order).

End WakeOnLanService.

(* ================================================================== *)
(** * What the two device managers share *)
(* ================================================================== *)

(** An [async] method either returns or throws. *)
Inductive Outcome (A : Type) : Type :=
| Returned (value : A)
| Threw (reason : string).
Arguments Returned {A} value.
Arguments Threw {A} reason.

(** The contents of [devices.json]: absent, text that [JSON.parse] (or the
    loop over its result) chokes on, or a JSON array of devices. *)
Inductive ConfigFile : Type :=
| Missing
| Unreadable
| Stored (entries : list Device).

Definition exampleDevice : Device :=
  {| name := "example-device";
     mac := "00:11:22:33:44:55";
     ip := Some "192.168.1.100";
     broadcast := Some "192.168.1.255" |}.

Definition alreadyExists (n : string) : string :=
  ("Device '" ++ n ++ "' already exists")%string.

(** Overwrite the fields of [d] that [u] supplies. *)
Definition applyUpdates (u : Updates) (d : Device) : Device :=
  {| name := match uname u with Some v => v | None => name d end;
     mac := match umac u with Some v => v | None => mac d end;
     ip := match uip u with Some v => v | None => ip d end;
     broadcast := match ubroadcast u with Some v => v | None => broadcast d end |}.

(** The record [d] answers to the name [n], letter case ignored. *)
Definition named (n : string) (d : Device) : bool := Case.sameName (name d) n.

(** No two records carry the same name up to letter case. *)
Fixpoint uniqueNames (l : list Device) : bool :=
  match l with
  | [] => true
  | d :: rest => negb (existsb (named (name d)) rest) && uniqueNames rest
  end.

(** The registry operations, for talking about sequences of them. *)
Inductive Op : Type :=
| Add (d : Device)
| Remove (n : string)
| Update (n : string) (u : Updates).

(* ================================================================== *)
(** * The JSON-file device manager ([DeviceManager] over [devices.json]) *)
(* ================================================================== *)

Module JsonDeviceManager.

Record State := mkState {
  devices : list Device;      (* this.devices *)
  configFile : ConfigFile;    (* devices.json *)
  warnings : list string      (* console.warn *)
}.

(** [writeFile(CONFIG_PATH, JSON.stringify(this.devices))] *)
Definition saveDevices (s : State) : State :=
  {| devices := devices s;
     configFile := Stored (devices s);
     warnings := warnings s |}.

(** The file is read and parsed when it exists, a failure leaving a
    warning and no devices; otherwise the example device is stored. *)
Definition loadDevices (s : State) : State :=
  match configFile s with
  | Stored entries =>
      {| devices := entries; configFile := configFile s;
         warnings := warnings s |}
  | Unreadable =>
      {| devices := []; configFile := configFile s;
         warnings := warnings s ++ ["Failed to load devices config:"] |}
  | Missing =>
      saveDevices {| devices := [exampleDevice]; configFile := configFile s;
                     warnings := warnings s |}
  end.

(** [return this.devices] *)
Definition getDevices (s : State) : list Device * State := (devices s, s).

(** [this.devices.find(d => d.name.toLowerCase() === name.toLowerCase())] *)
Definition getDevice (n : string) (s : State) : option Device :=
  find (named n) (devices s).

(** Throws when [getDevice] finds the name, else pushes and saves. *)
Definition addDevice (d : Device) (s : State) : Outcome unit * State :=
  match getDevice (name d) s with
  | Some _ => (Threw (alreadyExists (name d)), s)
  | None =>
      (Returned tt,
       saveDevices {| devices := devices s ++ [d];
                      configFile := configFile s;
                      warnings := warnings s |})
  end.

(** [findIndex] followed by [splice(index, 1)]. *)
Fixpoint removeFirst (n : string) (l : list Device) : option (list Device) :=
  match l with
  | [] => None
  | d :: rest =>
      if named n d then Some rest
      else match removeFirst n rest with
           | Some rest' => Some (d :: rest')
           | None => None
           end
  end.

(** False when [findIndex] gives -1, else splices, saves and is true. *)
Definition removeDevice (n : string) (s : State) : Outcome bool * State :=
  match removeFirst n (devices s) with
  | None => (Returned false, s)
  | Some l =>
      (Returned true,
       saveDevices {| devices := l; configFile := configFile s;
                      warnings := warnings s |})
  end.

(** [Object.assign] on the object [find] returned, which is the first
    match and stays in its place in the array. *)
Fixpoint assignFirst (n : string) (u : Updates) (l : list Device)
  : list Device :=
  match l with
  | [] => []
  | d :: rest =>
      if named n d then applyUpdates u d :: rest
      else d :: assignFirst n u rest
  end.

(** False when [getDevice] finds nothing, else assigns, saves and is
    true. *)
Definition updateDevice (n : string) (u : Updates) (s : State)
  : Outcome bool * State :=
  match getDevice n s with
  | None => (Returned false, s)
  | Some _ =>
      (Returned true,
       saveDevices {| devices := assignFirst n u (devices s);
                      configFile := configFile s;
                      warnings := warnings s |})
  end.

Definition step (s : State) (o : Op) : State :=
  match o with
  | Add d => snd (addDevice d s)
  | Remove n => snd (removeDevice n s)
  | Update n u => snd (updateDevice n u s)
  end.

Definition run (ops : list Op) (s : State) : State := fold_left step ops s.

End JsonDeviceManager.

(* ================================================================== *)
(** * The SQLite device manager ([backend/src/device-manager.ts]) *)
(* ================================================================== *)

Module SqliteDeviceManager.

(** The [devices] table, rows in insertion order.  The column [name] is
    [NOT NULL UNIQUE COLLATE NOCASE]. *)
Definition Table : Type := list Device.

Record World := mkWorld {
  db : bool;                  (* this.db !== null *)
  table : option Table;       (* the database file; None before CREATE TABLE *)
  warnings : list string      (* console.warn *)
}.

Definition notInitialized : string :=
  "Device manager not initialized. Call loadDevices() first.".
Definition noSuchTable : string := "SQLITE_ERROR: no such table: devices".
Definition uniqueFailed : string :=
  "SQLITE_CONSTRAINT: UNIQUE constraint failed: devices.name".

(** *** The SQL statements *)

Fixpoint insertSorted (d : Device) (l : list Device) : list Device :=
  match l with
  | [] => [d]
  | e :: rest =>
      if Case.nocaseLeb (name d) (name e) then d :: l
      else e :: insertSorted d rest
  end.

(** [SELECT name, mac, ip, broadcast FROM devices ORDER BY name COLLATE NOCASE] *)
Definition selectOrdered (t : Table) : list Device :=
  fold_right insertSorted [] t.

(** [SELECT ... FROM devices WHERE name = ? COLLATE NOCASE], first row *)
Definition selectByName (n : string) (t : Table) : option Device :=
  find (named n) t.

(** [INSERT INTO devices (name, mac, ip, broadcast) VALUES (?, ?, ?, ?)] *)
Definition sqlInsert (d : Device) (t : Table) : Outcome Table :=
  if existsb (named (name d)) t then Threw uniqueFailed
  else Returned (t ++ [d]).

(** [DELETE FROM devices WHERE name = ? COLLATE NOCASE], with [changes] *)
Definition sqlDelete (n : string) (t : Table) : Table * nat :=
  (filter (fun d => negb (named n d)) t, length (filter (named n) t)).

(** [UPDATE devices SET ... WHERE name = ? COLLATE NOCASE], with
    [changes]; the statement is undone when the result would break the
    UNIQUE constraint. *)
Definition sqlUpdate (u : Updates) (n : string) (t : Table)
  : Outcome (Table * nat) :=
  let t' := map (fun d => if named n d then applyUpdates u d else d) t in
  if uniqueNames t' then Returned (t', length (filter (named n) t))
  else Threw uniqueFailed.

(** *** The manager *)

(** [if (!this.db) throw new Error(...)] *)
Definition ensureDb (w : World) : Outcome unit :=
  if db w then Returned tt else Threw notInitialized.

(** The rows a statement sees, once [ensureDb] has let the call pass. *)
Definition connect (w : World) : Outcome Table :=
  match ensureDb w with
  | Threw e => Threw e
  | Returned _ =>
      match table w with
      | Some t => Returned t
      | None => Threw noSuchTable
      end
  end.

Definition withTable (t : Table) (w : World) : World :=
  {| db := db w; table := Some t; warnings := warnings w |}.

Definition normalizeDevice (d : Device) : Device :=
  {| name := name d; mac := mac d; ip := ip d; broadcast := broadcast d |}.

(** The ordered rows, each through [normalizeDevice]. *)
Definition getDevices (w : World) : Outcome (list Device) * World :=
  match connect w with
  | Threw e => (Threw e, w)
  | Returned t => (Returned (map normalizeDevice (selectOrdered t)), w)
  end.

Definition getDevice (n : string) (w : World)
  : Outcome (option Device) * World :=
  match connect w with
  | Threw e => (Threw e, w)
  | Returned t => (Returned (option_map normalizeDevice (selectByName n t)), w)
  end.

(** Throws when [getDevice] finds the name, else inserts the row. *)
Definition addDevice (d : Device) (w : World) : Outcome unit * World :=
  match connect w with
  | Threw e => (Threw e, w)
  | Returned t =>
      match selectByName (name d) t with
      | Some _ => (Threw (alreadyExists (name d)), w)
      | None =>
          match sqlInsert d t with
          | Threw e => (Threw e, w)
          | Returned t' => (Returned tt, withTable t' w)
          end
      end
  end.

(** [(result.changes ?? 0) > 0] after the DELETE. *)
Definition removeDevice (n : string) (w : World) : Outcome bool * World :=
  match connect w with
  | Threw e => (Threw e, w)
  | Returned t =>
      let (t', changes) := sqlDelete n t in
      (Returned (0 <? changes), withTable t' w)
  end.

(** [updates.name && updates.name !== name] *)
Definition renames (n : string) (u : Updates) : option string :=
  match uname u with
  | Some v => if negb (String.eqb v "") && negb (String.eqb v n)
              then Some v else None
  | None => None
  end.

(** [fields.length === 0] *)
Definition noFields (u : Updates) : bool :=
  match uname u, umac u, uip u, ubroadcast u with
  | None, None, None, None => true
  | _, _, _, _ => false
  end.

(** False when no record answers to [n]; "already exists" when the
    update renames to a name some record answers to; true without
    touching the table when no field is supplied; else the UPDATE. *)
Definition updateDevice (n : string) (u : Updates) (w : World)
  : Outcome bool * World :=
  match connect w with
  | Threw e => (Threw e, w)
  | Returned t =>
      match selectByName n t with
      | None => (Returned false, w)
      | Some _ =>
          let write :=
            if noFields u then (Returned true, w)
            else match sqlUpdate u n t with
                 | Threw e => (Threw e, w)
                 | Returned (t', changes) =>
                     (Returned (0 <? changes), withTable t' w)
                 end in
          match renames n u with
          | Some v =>
              match selectByName v t with
              | Some _ => (Threw (alreadyExists v), w)
              | None => write
              end
          | None => write
          end
      end
  end.

(** The [for] loop of the migration: inserts stop at the first failure
    and what was inserted before stays. *)
Fixpoint insertAll (entries : list Device) (t : Table)
  : Table * option string :=
  match entries with
  | [] => (t, None)
  | d :: rest =>
      match sqlInsert d t with
      | Threw e => (t, Some e)
      | Returned t' => insertAll rest t'
      end
  end.

Definition warn (msg : string) (w : World) : World :=
  {| db := db w; table := table w; warnings := warnings w ++ [msg] |}.

Definition migrationWarning : string :=
  "Failed to migrate legacy devices.json:".

(** The INSERT of the example record that ends the migration. *)
Definition insertExample (t : Table) (w : World) : Outcome unit * World :=
  match sqlInsert exampleDevice t with
  | Threw e => (Threw e, withTable t w)
  | Returned t' => (Returned tt, withTable t' w)
  end.

(** Nothing when the table has rows; else the legacy list row by row,
    and the example record when there is no list or the import failed. *)
Definition migrateLegacyConfig (legacy : ConfigFile) (w : World)
  : Outcome unit * World :=
  match connect w with
  | Threw e => (Threw e, w)
  | Returned t =>
      if 0 <? length t then (Returned tt, w)
      else
        match legacy with
        | Stored entries =>
            match insertAll entries t with
            | (t', None) => (Returned tt, withTable t' w)
            | (t', Some _) => insertExample t' (warn migrationWarning w)
            end
        | Unreadable => insertExample t (warn migrationWarning w)
        | Missing => insertExample t w
        end
  end.

(** [open] followed by [CREATE TABLE IF NOT EXISTS devices]. *)
Definition openDb (w : World) : World :=
  {| db := true;
     table := match table w with Some t => Some t | None => Some [] end;
     warnings := warnings w |}.

(** [if (this.db) return], else open, create the table, migrate. *)
Definition loadDevices (legacy : ConfigFile) (w : World)
  : Outcome unit * World :=
  if db w then (Returned tt, w)
  else migrateLegacyConfig legacy (openDb w).

(** A manager just constructed ([db = null]) over a database file. *)
Definition fresh (stored : option Table) : World :=
  {| db := false; table := stored; warnings := [] |}.

Definition step (w : World) (o : Op) : World :=
  match o with
  | Add d => snd (addDevice d w)
  | Remove n => snd (removeDevice n w)
  | Update n u => snd (updateDevice n u w)
  end.

Definition run (ops : list Op) (w : World) : World := fold_left step ops w.

End SqliteDeviceManager.

(* ================================================================== *)
(** * The SQLite device manager between its [await]s

    [loadDevices] and [addDevice] are [async]: at each [await] they give
    up control, and another call of the manager can run on the state they
    have reached.  [SqliteDeviceManager.loadDevices] and [addDevice] above
    are these methods run without such a call in between. *)
(* ================================================================== *)

Module SqliteInFlight.
Import SqliteDeviceManager.

(** Where a call of [loadDevices] is suspended: at [mkdir] and [open];
    at [CREATE TABLE]; at the [SELECT COUNT]; in the [for] loop with
    [rest] still to insert; at the INSERT of the example record. *)
Inductive LoadPoint : Type :=
| Opening
| CreatingTable
| Counting
| Importing (rest : list Device)
| Seeding
| Finished (result : Outcome unit).

(** [if (this.db) return]; else on to [mkdir] and [open]. *)
Definition loadStart (w : World) : LoadPoint :=
  if db w then Finished (Returned tt) else Opening.

(** [this.db = await open(...)]: the handle is assigned, the database
    file is as it was found. *)
Definition openFile (w : World) : World :=
  {| db := true; table := table w; warnings := warnings w |}.

(** [CREATE TABLE IF NOT EXISTS devices (...)] *)
Definition createTable (w : World) : World :=
  {| db := db w;
     table := match table w with Some t => Some t | None => Some [] end;
     warnings := warnings w |}.

(** From one [await] of [loadDevices] to the next. *)
Definition loadNext (legacy : ConfigFile) (p : LoadPoint) (w : World)
  : LoadPoint * World :=
  match p with
  | Opening => (CreatingTable, openFile w)
  | CreatingTable => (Counting, createTable w)
  | Counting =>
      match connect w with
      | Threw e => (Finished (Threw e), w)
      | Returned t =>
          if 0 <? length t then (Finished (Returned tt), w)
          else
            match legacy with
            | Stored entries => (Importing entries, w)
            | Unreadable => (Seeding, warn migrationWarning w)
            | Missing => (Seeding, w)
            end
      end
  | Importing [] => (Finished (Returned tt), w)
  | Importing (d :: rest) =>
      match connect w with
      | Threw e => (Finished (Threw e), w)
      | Returned t =>
          match sqlInsert d t with
          | Threw _ => (Seeding, warn migrationWarning w)
          | Returned t' => (Importing rest, withTable t' w)
          end
      end
  | Seeding =>
      match connect w with
      | Threw e => (Finished (Threw e), w)
      | Returned t =>
          let (result, w') := insertExample t w in (Finished result, w')
      end
  | Finished result => (Finished result, w)
  end.

(** [loadDevices] after [k] of its steps. *)
Fixpoint loadRun (legacy : ConfigFile) (k : nat) (p : LoadPoint) (w : World)
  : LoadPoint * World :=
  match k with
  | O => (p, w)
  | S k' => let (p', w') := loadNext legacy p w in loadRun legacy k' p' w'
  end.

(** The steps a load takes at most: open, create, count, one per legacy
    entry, the end of the loop, seed. *)
Definition loadSteps (legacy : ConfigFile) : nat :=
  match legacy with
  | Stored entries => 5 + length entries
  | _ => 5
  end.

(** [addDevice] up to its first [await]: [ensureDb], then the look-up
    [await this.getDevice(device.name)] and the [throw] on a hit. *)
Definition addDeviceLookup (d : Device) (w : World) : Outcome unit :=
  match connect w with
  | Threw e => Threw e
  | Returned t =>
      match selectByName (name d) t with
      | Some _ => Threw (alreadyExists (name d))
      | None => Returned tt
      end
  end.

(** [addDevice] after the look-up: [await db.run(INSERT ...)] on the
    table as it is by then. *)
Definition addDeviceInsert (d : Device) (w : World) : Outcome unit * World :=
  match connect w with
  | Threw e => (Threw e, w)
  | Returned t =>
      match sqlInsert d t with
      | Threw e => (Threw e, w)
      | Returned t' => (Returned tt, withTable t' w)
      end
  end.

End SqliteInFlight.

(* ================================================================== *)
(** * Vocabulary of the statements *)
(* ================================================================== *)

Module Words.
Import WakeOnLan WakeOnLanService.

Definition chars (s : string) : list ascii := list_ascii_of_string s.

(** A hexadecimal digit, in either letter case. *)
Definition isHexDigit (c : ascii) : bool :=
  existsb (Ascii.eqb c) (chars "0123456789ABCDEFabcdef").

(** A group of exactly two hexadecimal digits. *)
Definition hexPair (g : list ascii) : Prop :=
  exists a b, g = [a; b] /\ isHexDigit a = true /\ isHexDigit b = true.

(** [groups] written one after the other with the next separator of
    [seps] between neighbours. *)
Fixpoint joinWith (seps : list ascii) (groups : list (list ascii))
  {struct groups} : list ascii :=
  match groups with
  | [] => []
  | [g] => g
  | g :: rest =>
      match seps with
      | [] => g ++ joinWith [] rest
      | p :: ps => g ++ p :: joinWith ps rest
      end
  end.

(** Each group followed by its separator. *)
Fixpoint closedGroups (seps : list ascii) (groups : list (list ascii))
  {struct groups} : list ascii :=
  match groups, seps with
  | g :: gs, p :: ps => g ++ p :: closedGroups ps gs
  | _, _ => []
  end.

(** One group and the separator after it, as [macRegex] has it. *)
Definition groupRe : Regex.regex :=
  Regex.Seq (Regex.Repeat 2 hexDigit) separator.

(** Six groups of two hex digits, neighbours separated by [:] or [-],
    each separator chosen on its own. *)
Definition sixGroups (s : string) : Prop :=
  exists groups seps,
    length groups = 6 /\ length seps = 5 /\
    Forall hexPair groups /\
    Forall (fun p => isSeparator p = true) seps /\
    chars s = joinWith seps groups.

(** The same with one separator used throughout the string. *)
Definition uniformMac (s : string) : Prop :=
  exists sep groups,
    isSeparator sep = true /\ length groups = 6 /\
    Forall hexPair groups /\
    chars s = joinWith (repeat sep 5) groups.

(** [needle] occurs in [s] as its last part. *)
Definition endsWith (s needle : string) : Prop :=
  exists before, s = (before ++ needle)%string.

Definition isByte (b : Z) : Prop := (0 <= b < 256)%Z.

(** The place of [c] in [l], counted from 0. *)
Fixpoint indexOf (c : ascii) (l : list ascii) : option nat :=
  match l with
  | [] => None
  | x :: rest =>
      if Ascii.eqb c x then Some 0
      else option_map S (indexOf c rest)
  end.

(** The number a hexadecimal digit stands for: its place among the
    sixteen digits, letter case ignored. *)
Definition nibble (c : ascii) : Z :=
  match indexOf (Case.lowerChar c) (chars "0123456789abcdef") with
  | Some i => Z.of_nat i
  | None => 0%Z
  end.

(** The octet a group of two hexadecimal digits stands for. *)
Definition pairValue (g : list ascii) : Z :=
  match g with
  | [hi; lo] => (16 * nibble hi + nibble lo)%Z
  | _ => 0%Z
  end.

(** Only ASCII characters: on such strings [String.prototype.toLowerCase]
    changes the letters [A] to [Z] and nothing else. *)
Definition plain (s : string) : bool :=
  forallb (fun c => nat_of_ascii c <? 128) (chars s).

(** Every stored name is plain. *)
Definition plainNames (l : list Device) : bool :=
  forallb (fun d => plain (name d)) l.

(** The library call behind [wake] and [wakeDevice]: the address is
    passed on only when it is truthy. *)
Definition libraryCall (wol : WolLib) (m : string) (b : option string)
  : LibOutcome :=
  wol m (if truthy b then b else None).

(** The library answers every call through its callback. *)
Definition reportsByCallback (wol : WolLib) : Prop :=
  forall m opts, exists sent error, wol m opts = Callback sent error.

(** [r] is what the caller gets when the send ended with [error]. *)
Definition reflects (r : WakeResult) (error : option string) : Prop :=
  match error with
  | None => success r = true
  | Some reason => success r = false /\ endsWith (message r) reason
  end.

(** The error a settled library call hands to the callback. *)
Definition callbackError (call : LibOutcome) : option string :=
  match call with
  | Callback _ error => error
  | Thrown _ => None
  end.

(** The result [wakeDevice] resolves with when the library reports. *)
Definition deviceResult (wol : WolLib) (d : Device) : WakeResult :=
  wakeDeviceCallback d
    (callbackError (libraryCall wol (mac d) (broadcast d))).

(** [loadDevices] has opened the database and created the table. *)
Definition opened (w : SqliteDeviceManager.World) : Prop :=
  SqliteDeviceManager.db w = true /\ SqliteDeviceManager.table w <> None.

(** No database file yet, or one whose table has no rows. *)
Definition emptyStore (stored : option SqliteDeviceManager.Table) : Prop :=
  stored = None \/ stored = Some [].

(** The stored table, if any, obeys its UNIQUE constraint. *)
Definition tableUnique (w : SqliteDeviceManager.World) : Prop :=
  forall t, SqliteDeviceManager.table w = Some t -> uniqueNames t = true.

(** Ascending by name, letter case ignored. *)
Definition nameLe (a b : Device) : Prop :=
  Case.nocaseLeb (name a) (name b) = true.

Definition sortedByName (l : list Device) : Prop := Sorted nameLe l.

End Words.

(* ================================================================== *)
(** * Sample data *)
(* ================================================================== *)

Module Samples.
Import WakeOnLan WakeOnLanService.

Definition nas : Device :=
  {| name := "nas"; mac := "00:11:22:33:44:55"; ip := None;
     broadcast := None |}.

Definition nasUpper : Device :=
  {| name := "NAS"; mac := "66:77:88:99:AA:BB"; ip := None;
     broadcast := None |}.

Definition alpha : Device :=
  {| name := "alpha"; mac := "0A:00:00:00:00:01"; ip := Some "10.0.0.1";
     broadcast := None |}.

Definition bravo : Device :=
  {| name := "bravo"; mac := "0B:00:00:00:00:02"; ip := None;
     broadcast := Some "10.0.0.255" |}.

Definition rename (n : string) : Updates :=
  {| uname := Some n; umac := None; uip := None; ubroadcast := None |}.

Definition threeDevices : list Device :=
  [ {| name := "nas"; mac := "00:11:22:33:44:55"; ip := None;
       broadcast := None |};
    {| name := "desk"; mac := "66-77-88-99-AA-BB"; ip := None;
       broadcast := Some "10.0.0.255" |};
    {| name := "tv"; mac := "cc:dd:ee:ff:00:11"; ip := None;
       broadcast := None |} ].

(** A network on which only sends to 10.0.0.255 fail. *)
Definition oneSubnetDown (d : Datagram) : option string :=
  if String.eqb (address d) "10.0.0.255" then Some "send ENETUNREACH"
  else None.


(** A record whose MAC passes [isValidMac] with two kinds of separator. *)
Definition mixed : Device :=
  {| name := "desk"; mac := "AA:BB-CC:DD:EE:FF"; ip := None;
     broadcast := None |}.

Definition tv : Device :=
  {| name := "tv"; mac := "cc:dd:ee:ff:00:11"; ip := None;
     broadcast := None |}.

(** The JSON-file manager holding [l], already saved. *)
Definition jsonHolding (l : list Device) : JsonDeviceManager.State :=
  {| JsonDeviceManager.devices := l;
     JsonDeviceManager.configFile := Stored l;
     JsonDeviceManager.warnings := [] |}.

(** The SQLite manager after [loadDevices], its table holding [t]. *)
Definition sqliteHolding (t : list Device) : SqliteDeviceManager.World :=
  {| SqliteDeviceManager.db := true;
     SqliteDeviceManager.table := Some t;
     SqliteDeviceManager.warnings := [] |}.

End Samples.

(* ================================================================== *)
(** * The request-id middleware ([middleware.ts]) *)
(* ================================================================== *)

Module Middleware.

(** What [new Date()] shows: [getFullYear()], [getMonth()] (from 0),
    [getDate()], [getHours()], [getMinutes()], [getSeconds()]. *)
Record Clock := mkClock {
  fullYear : N;
  month : N;
  date : N;
  hours : N;
  minutes : N;
  seconds : N
}.

Definition digitChar (d : N) : ascii := ascii_of_N (48 + d).

(** The decimal digits of [n], most significant first; [fuel] only bounds
    the recursion and is never exhausted when [n <= fuel]. *)
Fixpoint decimalDigits (fuel : positive) (n : N) : list ascii :=
  if (n <? 10)%N then [digitChar n]
  else match fuel with
       | xH => []
       | xO fuel' | xI fuel' =>
           decimalDigits fuel' (n / 10)%N ++ [digitChar (n mod 10)%N]
       end.

(** [String(n)] for a non-negative integer. *)
Definition decimal (n : N) : list ascii :=
  match n with
  | N0 => [digitChar 0]
  | Npos p => decimalDigits p n
  end.

(** [s.padStart(width, fill)] with a one-character filler. *)
Definition padStart (width : nat) (fill : ascii) (s : list ascii)
  : list ascii :=
  repeat fill (width - length s) ++ s.

Definition pad2 (n : N) : list ascii := padStart 2 "0" (decimal n).

(** The timestamp [YYYYMMDDHHMMSS]. *)
Definition datetime (now : Clock) : list ascii :=
  decimal (fullYear now) ++ pad2 (month now + 1)%N ++ pad2 (date now)
  ++ pad2 (hours now) ++ pad2 (minutes now) ++ pad2 (seconds now).

(** [requestCounter = (requestCounter + 1) % 1000000] *)
Definition nextCounter (requestCounter : N) : N :=
  ((requestCounter + 1) mod 1000000)%N.

(** [String(requestCounter).padStart(6, '0')] *)
Definition sequential (requestCounter : N) : list ascii :=
  padStart 6 "0" (decimal requestCounter).

(** The id [requestIdMiddleware] puts in the [X-Request-Id] header, and
    the counter it leaves behind. *)
Definition requestId (now : Clock) (requestCounter : N) : string * N :=
  let counter := nextCounter requestCounter in
  (("hixbe-" ++ string_of_list_ascii (datetime now) ++ "-"
    ++ string_of_list_ascii (sequential counter))%string,
   counter).

(** The number a string of decimal digits denotes. *)
Definition digitValue (c : ascii) : N := (N_of_ascii c - 48)%N.

Definition readDecimal (s : list ascii) : N :=
  fold_left (fun acc c => (10 * acc + digitValue c)%N) s 0%N.

Definition isDigit (c : ascii) : bool :=
  ((48 <=? N_of_ascii c) && (N_of_ascii c <=? 57))%N.

End Middleware.

(* ================================================================== *)
(** * The REST handlers ([api.ts], over the JSON-file device manager)

    Request fields are modelled as optional strings: [None] is a field
    that is absent, and the empty string is falsy as in JavaScript.
    Requests whose fields hold JSON values other than strings are not
    modelled. *)
(* ================================================================== *)

Module Api.
Import WakeOnLan WakeOnLanService.

(** What [res.json] is given. *)
Inductive Body : Type :=
| ErrorBody (error : string)
| NoneFoundBody (error : string) (notFound : list string)
| DevicesBody (devices : list Device) (count : nat)
| DeviceBody (device : Device)
| MessageBody (message : string)
| AddedBody (message : string) (device : Device)
| ResultBody (result : WakeResult)
| AllBody (results : list WakeResult) (total successful failed : nat)
| SomeBody (results : list WakeResult) (notFound : list string)
           (total successful failed notFoundCount : nat).

Record Response := mkResponse {
  status : nat;
  body : Body
}.

(** [res.json(b)] *)
Definition json (b : Body) : Response := {| status := 200; body := b |}.

(** [res.status(code).json({ error })] *)
Definition errorJson (code : nat) (error : string) : Response :=
  {| status := code; body := ErrorBody error |}.

(** The string in a field that has been found truthy. *)
Definition text (field : option string) : string :=
  match field with
  | Some v => v
  | None => ""
  end.

(** *** Devices *)

(** [GET /api/devices] *)
Definition getDevices (s : JsonDeviceManager.State) : Response :=
  let devices := fst (JsonDeviceManager.getDevices s) in
  json (DevicesBody devices (length devices)).

(** [GET /api/devices/:name] *)
Definition getDevice (name : string) (s : JsonDeviceManager.State)
  : Response :=
  match JsonDeviceManager.getDevice name s with
  | None => errorJson 404 "Device not found"
  | Some d => json (DeviceBody d)
  end.

(** The body of [POST /api/devices]. *)
Record NewDevice := mkNewDevice {
  newName : option string;
  newMac : option string;
  newIp : option string;
  newBroadcast : option string
}.

(** [POST /api/devices] *)
Definition postDevices (b : NewDevice) (s : JsonDeviceManager.State)
  : Response * JsonDeviceManager.State :=
  if negb (truthy (newName b)) || negb (truthy (newMac b)) then
    (errorJson 400 "Name and MAC address are required", s)
  else if negb (isValidMac (text (newMac b))) then
    (errorJson 400 "Invalid MAC address format", s)
  else
    let device := {| name := text (newName b); mac := text (newMac b);
                     ip := newIp b; broadcast := newBroadcast b |} in
    match JsonDeviceManager.addDevice device s with
    | (Returned _, s') =>
        ({| status := 201;
            body := AddedBody "Device added successfully" device |}, s')
    | (Threw reason, s') => (errorJson 400 reason, s')
    end.

(** The body of [PUT /api/devices/:name]. *)
Record Changes := mkChanges {
  changedMac : option string;
  changedIp : option (option string);
  changedBroadcast : option (option string)
}.

(** The [updates] object the handler builds. *)
Definition updatesOf (b : Changes) : Updates :=
  {| uname := None;
     umac := if truthy (changedMac b) then changedMac b else None;
     uip := changedIp b;
     ubroadcast := changedBroadcast b |}.

(** [PUT /api/devices/:name] *)
Definition putDevice (name : string) (b : Changes)
           (s : JsonDeviceManager.State)
  : Response * JsonDeviceManager.State :=
  if truthy (changedMac b) && negb (isValidMac (text (changedMac b))) then
    (errorJson 400 "Invalid MAC address format", s)
  else
    match JsonDeviceManager.updateDevice name (updatesOf b) s with
    | (Returned false, s') => (errorJson 404 "Device not found", s')
    | (Returned true, s') =>
        (json (MessageBody "Device updated successfully"), s')
    | (Threw reason, s') => (errorJson 400 reason, s')
    end.

(** [DELETE /api/devices/:name] *)
Definition deleteDevice (name : string) (s : JsonDeviceManager.State)
  : Response * JsonDeviceManager.State :=
  match JsonDeviceManager.removeDevice name s with
  | (Returned false, s') => (errorJson 404 "Device not found", s')
  | (Returned true, s') =>
      (json (MessageBody "Device removed successfully"), s')
  | (Threw reason, s') => (errorJson 400 reason, s')
  end.

(** The requests that change the registry. *)
Inductive Request : Type :=
| PostDevices (b : NewDevice)
| PutDevice (name : string) (b : Changes)
| DeleteDevice (name : string).

Definition serve (s : JsonDeviceManager.State) (r : Request)
  : JsonDeviceManager.State :=
  match r with
  | PostDevices b => snd (postDevices b s)
  | PutDevice name b => snd (putDevice name b s)
  | DeleteDevice name => snd (deleteDevice name s)
  end.

Definition serveAll (requests : list Request) (s : JsonDeviceManager.State)
  : JsonDeviceManager.State :=
  fold_left serve requests s.

End Api.

(* ================================================================== *)
(** * The wake handlers of [api.ts] *)
(* ================================================================== *)

Module WakeApi.
Import WakeOnLan WakeOnLanService Api.

(** [if (result.success) res.json(result) else res.status(500).json(result)],
    and the [catch] block when the awaited promise rejects. *)
Definition respond (p : Promise WakeResult) : Response :=
  match p with
  | Resolved result =>
      if success result then json (ResultBody result)
      else {| status := 500; body := ResultBody result |}
  | Rejected reason => errorJson 500 reason
  end.

(** The query of [GET /api/wake]. *)
Record WakeQuery := mkWakeQuery {
  queryMac : option string;
  queryDevice : option string;
  queryBroadcast : option string
}.

Definition quote : string := String "034" EmptyString.

Definition eitherRequired : string :=
  ("Either " ++ quote ++ "device" ++ quote ++ " or " ++ quote ++ "mac"
   ++ quote ++ " query parameter is required")%string.

(** [GET /api/wake] *)
Definition getWake (wol : WolLib) (q : WakeQuery)
           (s : JsonDeviceManager.State) : list Datagram * Response :=
  if truthy (queryDevice q) then
    match JsonDeviceManager.getDevice (text (queryDevice q)) s with
    | None => ([], errorJson 404 "Device not found")
    | Some deviceConfig =>
        let (sent, p) := wakeDevice wol deviceConfig in (sent, respond p)
    end
  else if truthy (queryMac q) then
    if negb (isValidMac (text (queryMac q))) then
      ([], errorJson 400 "Invalid MAC address format")
    else
      let (sent, p) := wake wol (text (queryMac q)) (queryBroadcast q) in
      (sent, respond p)
  else ([], errorJson 400 eitherRequired).

(** [POST /api/wake/:name] *)
Definition postWakeName (wol : WolLib) (name : string)
           (s : JsonDeviceManager.State) : list Datagram * Response :=
  match JsonDeviceManager.getDevice name s with
  | None => ([], errorJson 404 "Device not found")
  | Some d => let (sent, p) := wakeDevice wol d in (sent, respond p)
  end.

(** The body of [POST /api/wake]. *)
Record WakeRequest := mkWakeRequest {
  requestMac : option string;
  requestBroadcast : option string
}.

(** [POST /api/wake] *)
Definition postWake (wol : WolLib) (b : WakeRequest)
  : list Datagram * Response :=
  if negb (truthy (requestMac b)) then
    ([], errorJson 400 "MAC address is required")
  else if negb (isValidMac (text (requestMac b))) then
    ([], errorJson 400 "Invalid MAC address format")
  else
    let (sent, p) := wake wol (text (requestMac b)) (requestBroadcast b) in
    (sent, respond p).

(** [results.filter(r => r.success).length] *)
Definition successful (results : list WakeResult) : nat :=
  length (filter success results).

(** [results.filter(r => !r.success).length] *)
Definition failed (results : list WakeResult) : nat :=
  length (filter (fun r => negb (success r)) results).




End WakeApi.

(* ================================================================== *)
(** * Further vocabulary *)
(* ================================================================== *)

Module Notions.
Import Regex WakeOnLan WakeOnLanService.

(** Every class of [r] contains [f c] exactly when it contains [c]. *)
Fixpoint respects (f : ascii -> ascii) (r : regex) : Prop :=
  match r with
  | Class ranges => forall c, inClass ranges (f c) = inClass ranges c
  | Seq r1 r2 => respects f r1 /\ respects f r2
  | Repeat _ r1 => respects f r1
  end.

(** A character a MAC string may contain. *)
Definition macChar (c : ascii) : bool :=
  Words.isHexDigit c || isSeparator c.

(** Every stored MAC passes [isValidMac]. *)
Definition validMacs (l : list Device) : Prop :=
  Forall (fun d => isValidMac (mac d) = true) l.

(** A JSON-file manager just constructed, next to the given file. *)
Definition boot (file : ConfigFile) : JsonDeviceManager.State :=
  {| JsonDeviceManager.devices := [];
     JsonDeviceManager.configFile := file;
     JsonDeviceManager.warnings := [] |}.

(** The file holds what the manager holds, or could not be read and
    the manager holds nothing. *)
Definition inStep (s : JsonDeviceManager.State) : Prop :=
  JsonDeviceManager.configFile s = Stored (JsonDeviceManager.devices s) \/
  (JsonDeviceManager.configFile s = Unreadable /\
   JsonDeviceManager.devices s = []).

(** The promise [wakeDevice] returns for [d] resolved. *)
Definition resolves (wol : WolLib) (d : Device) : Prop :=
  exists sent error,
    Words.libraryCall wol (mac d) (broadcast d) = Callback sent error.

End Notions.

(* ================================================================== *)
(** * Further sample data *)
(* ================================================================== *)

Module Cases.
Import WakeOnLan WakeOnLanService Samples.

(** A library that throws on hyphenated MACs and reports success on
    everything else without sending. *)
Definition throwsOnHyphen (m : string) (opts : option string) : LibOutcome :=
  if existsb (Ascii.eqb "-") (list_ascii_of_string m)
  then Thrown "unsupported MAC notation"
  else Callback [] None.

End Cases.

(* ================================================================== *)
(** * Facts about the regular-expression engine *)
(* ================================================================== *)

Section RegexFacts.
Import Regex.

Lemma repeat_loop_spec (L : list ascii -> Prop) (r : regex)
      (k : list ascii -> bool) :
  (forall s k', rematch r s k' = true <->
                exists s1 s2, s = s1 ++ s2 /\ L s1 /\ k' s2 = true) ->
  forall n s,
    rematch (Repeat n r) s k = true <->
    exists s1 s2, s = s1 ++ s2 /\ power L n s1 /\ k s2 = true.
Proof.
  intros Hr n; induction n as [|n IH]; intros s.
  - simpl; split.
    + intros Hk; exists [], s; auto.
    + intros (s1 & s2 & -> & -> & Hk); exact Hk.
  - change (rematch (Repeat (S n) r) s k)
      with (rematch r s (fun t => rematch (Repeat n r) t k)).
    rewrite Hr; split.
    + intros (s1 & s2 & -> & H1 & H2).
      apply IH in H2; destruct H2 as (t1 & t2 & -> & Hp & Hk).
      exists (s1 ++ t1), t2; repeat split; auto.
      * now rewrite app_assoc.
      * simpl; exists s1, t1; auto.
    + intros (s1 & s2 & -> & (u1 & u2 & -> & Hu1 & Hu2) & Hk).
      exists u1, (u2 ++ s2); repeat split; auto.
      * now rewrite app_assoc.
      * apply IH; exists u2, s2; auto.
Qed.

(** The matcher accepts exactly the splits of its input into a word of
    the regex and a rest the continuation accepts. *)
Lemma rematch_spec (r : regex) :
  forall s k,
    rematch r s k = true <->
    exists s1 s2, s = s1 ++ s2 /\ lang r s1 /\ k s2 = true.
Proof.
  induction r as [ranges | r1 IH1 r2 IH2 | n r IH]; intros s k.
  - simpl; destruct s as [|c t]; split.
    + discriminate.
    + intros (s1 & s2 & Hs & (c & -> & _) & _); discriminate.
    + intros H; apply andb_true_iff in H; destruct H as [Hc Hk].
      exists [c], t; repeat split; auto; exists c; auto.
    + intros (s1 & s2 & Hs & (c' & -> & Hc) & Hk).
      simpl in Hs; injection Hs as -> ->.
      now rewrite Hc, Hk.
  - simpl; rewrite IH1; split.
    + intros (s1 & s2 & -> & H1 & H2).
      apply IH2 in H2; destruct H2 as (t1 & t2 & -> & Ht & Hk).
      exists (s1 ++ t1), t2; repeat split; auto.
      * now rewrite app_assoc.
      * exists s1, t1; auto.
    + intros (s1 & s2 & -> & (u1 & u2 & -> & Hu1 & Hu2) & Hk).
      exists u1, (u2 ++ s2); repeat split; auto.
      * now rewrite app_assoc.
      * apply IH2; exists u2, s2; auto.
  - apply (repeat_loop_spec (lang r)); exact IH.
Qed.

Lemma atEnd_nil (s : list ascii) : atEnd s = true <-> s = [].
Proof. destruct s; simpl; split; congruence. Qed.

(** The anchored test decides membership in the language. *)
Lemma test_spec (r : regex) (s : string) :
  test r s = true <-> lang r (list_ascii_of_string s).
Proof.
  unfold test; rewrite rematch_spec; split.
  - intros (s1 & s2 & Hs & Hl & He).
    apply atEnd_nil in He; subst s2.
    rewrite app_nil_r in Hs; now rewrite Hs.
  - intros Hl; exists (list_ascii_of_string s), []; repeat split; auto.
    now rewrite app_nil_r.
Qed.

End RegexFacts.

(* ================================================================== *)
(** * Facts about MAC strings *)
(* ================================================================== *)

Section MacFacts.
Import Regex WakeOnLan WakeOnLanService Words.

Ltac each_ascii c :=
  destruct c as [[] [] [] [] [] [] [] []]; vm_compute; try reflexivity.

Lemma hexDigit_class (c : ascii) :
  inClass [("0", "9"); ("A", "F"); ("a", "f")]%char c = isHexDigit c.
Proof. each_ascii c. Qed.

Lemma separator_class (c : ascii) :
  inClass [(":", ":"); ("-", "-")]%char c = isSeparator c.
Proof. each_ascii c. Qed.

Lemma hexDigit_value (c : ascii) :
  isHexDigit c = true ->
  exists h, hexValue c = Some h /\ (0 <= h < 16)%Z.
Proof.
  destruct c as [[] [] [] [] [] [] [] []]; intros H; vm_compute in H;
    try discriminate; eexists; (split; [vm_compute; reflexivity | lia]).
Qed.

Lemma lang_hexDigit (s : list ascii) :
  lang hexDigit s <-> exists c, s = [c] /\ isHexDigit c = true.
Proof.
  change (lang hexDigit s)
    with (exists c, s = [c] /\
            inClass [("0", "9"); ("A", "F"); ("a", "f")]%char c = true).
  split; intros (c & Hs & Hc); exists c; split; auto;
    now rewrite hexDigit_class in *.
Qed.

Lemma lang_separator (s : list ascii) :
  lang separator s <-> exists c, s = [c] /\ isSeparator c = true.
Proof.
  change (lang separator s)
    with (exists c, s = [c] /\
            inClass [(":", ":"); ("-", "-")]%char c = true).
  split; intros (c & Hs & Hc); exists c; split; auto;
    now rewrite separator_class in *.
Qed.

Lemma lang_hexPair (g : list ascii) :
  power (lang hexDigit) 2 g <-> hexPair g.
Proof.
  change (power (lang hexDigit) 2 g)
    with (exists s1 s2, g = s1 ++ s2 /\ lang hexDigit s1 /\
            exists t1 t2, s2 = t1 ++ t2 /\ lang hexDigit t1 /\ t2 = []).
  unfold hexPair; split.
  - intros (s1 & s2 & -> & Ha & t1 & t2 & -> & Hb & ->).
    apply lang_hexDigit in Ha, Hb.
    destruct Ha as (a & -> & Ha); destruct Hb as (b & -> & Hb).
    exists a, b; auto.
  - intros (a & b & -> & Ha & Hb).
    exists [a], [b]; repeat split.
    + apply lang_hexDigit; exists a; auto.
    + exists [b], []; repeat split. apply lang_hexDigit; exists b; auto.
Qed.

Lemma lang_group (x : list ascii) :
  lang groupRe x <->
  exists g p, hexPair g /\ isSeparator p = true /\ x = g ++ [p].
Proof.
  change (lang groupRe x)
    with (exists s1 s2, x = s1 ++ s2 /\ power (lang hexDigit) 2 s1
                        /\ lang separator s2).
  split.
  - intros (s1 & s2 & -> & Hg & Hp).
    apply lang_hexPair in Hg. apply lang_separator in Hp.
    destruct Hp as (p & -> & Hp). exists s1, p; auto.
  - intros (g & p & Hg & Hp & ->).
    exists g, [p]; repeat split.
    + now apply lang_hexPair.
    + apply lang_separator; exists p; auto.
Qed.

Lemma power_groups (n : nat) :
  forall s,
    power (lang groupRe) n s <->
    exists groups seps,
      length groups = n /\ length seps = n /\
      Forall hexPair groups /\
      Forall (fun p => isSeparator p = true) seps /\
      s = closedGroups seps groups.
Proof.
  induction n as [|n IH]; intros s.
  - simpl; split.
    + intros ->; exists [], []; repeat split; constructor.
    + intros (groups & seps & Hg & _ & _ & _ & ->).
      destruct groups; [reflexivity | discriminate].
  - change (power (lang groupRe) (S n) s)
      with (exists s1 s2, s = s1 ++ s2 /\ lang groupRe s1
                          /\ power (lang groupRe) n s2).
    split.
    + intros (s1 & s2 & -> & H1 & H2).
      apply lang_group in H1; destruct H1 as (g & p & Hg & Hp & ->).
      apply IH in H2; destruct H2 as (gs & ps & Lg & Lp & Fg & Fp & ->).
      exists (g :: gs), (p :: ps); simpl; repeat split; auto.
      now rewrite <- app_assoc.
    + intros (groups & seps & Lg & Lp & Fg & Fp & ->).
      destruct groups as [|g gs]; [discriminate|].
      destruct seps as [|p ps]; [discriminate|].
      inversion Fg; inversion Fp; subst.
      exists (g ++ [p]), (closedGroups ps gs); repeat split.
      * simpl; now rewrite <- app_assoc.
      * apply lang_group; exists g, p; auto.
      * apply IH; exists gs, ps; repeat split; auto.
Qed.

Lemma joinWith_last (g : list ascii) :
  forall groups seps,
    length seps = length groups ->
    joinWith seps (groups ++ [g]) = closedGroups seps groups ++ g.
Proof.
  induction groups as [|g0 gs IH]; intros seps Hlen.
  - reflexivity.
  - destruct seps as [|p ps]; [discriminate|].
    injection Hlen as Hlen.
    specialize (IH ps Hlen).
    destruct gs as [|g1 gs'].
    + simpl in *; rewrite <- app_assoc; reflexivity.
    + change (joinWith (p :: ps) ((g0 :: g1 :: gs') ++ [g]))
        with (g0 ++ p :: joinWith ps ((g1 :: gs') ++ [g])).
      rewrite IH.
      change (closedGroups (p :: ps) (g0 :: g1 :: gs'))
        with (g0 ++ p :: closedGroups ps (g1 :: gs')).
      now rewrite <- app_assoc.
Qed.

Lemma split_last (A : Type) (n : nat) (l : list A) :
  length l = S n -> exists init x, l = init ++ [x] /\ length init = n.
Proof.
  intros Hlen.
  destruct (@exists_last A l) as (init & x & ->).
  - destruct l; [discriminate | congruence].
  - exists init, x; split; auto.
    rewrite length_app in Hlen; simpl in Hlen; lia.
Qed.

(** The language of [macRegex], said with groups and separators. *)
Lemma lang_macRegex (s : string) :
  lang macRegex (chars s) <-> sixGroups s.
Proof.
  change (lang macRegex (chars s))
    with (exists s1 s2, chars s = s1 ++ s2 /\ power (lang groupRe) 5 s1
                        /\ power (lang hexDigit) 2 s2).
  unfold sixGroups; split.
  - intros (s1 & s2 & Hs & H1 & H2).
    apply power_groups in H1; destruct H1 as (gs & ps & Lg & Lp & Fg & Fp & ->).
    apply lang_hexPair in H2.
    exists (gs ++ [s2]), ps; repeat split; auto.
    + rewrite length_app, Lg; reflexivity.
    + apply Forall_app; split; auto.
    + rewrite joinWith_last by congruence. exact Hs.
  - intros (groups & seps & Lg & Lp & Fg & Fp & Hs).
    destruct (@split_last _ 5 groups Lg) as (gs & g & -> & Lgs).
    apply Forall_app in Fg; destruct Fg as [Fgs Fg].
    inversion Fg; subst.
    rewrite joinWith_last in Hs by congruence.
    exists (closedGroups seps gs), g; repeat split; auto.
    + apply power_groups; exists gs, seps; repeat split; auto.
    + now apply lang_hexPair.
Qed.

Lemma isValidMac_sixGroups (s : string) :
  isValidMac s = true <-> sixGroups s.
Proof. unfold isValidMac; rewrite test_spec; apply lang_macRegex. Qed.

Lemma uniform_sixGroups (s : string) : uniformMac s -> sixGroups s.
Proof.
  intros (sep & groups & Hsep & Lg & Fg & Hs).
  exists groups, (repeat sep 5); repeat split; auto.
  repeat constructor; assumption.
Qed.

End MacFacts.

(* ================================================================== *)
(** * isValidMac *)
(* ================================================================== *)

Section IsValidMac.
Import WakeOnLan WakeOnLanService Words.

Lemma uniform_isValidMac (s : string) :
  uniformMac s -> isValidMac s = true.
Proof. intros H; apply isValidMac_sixGroups, uniform_sixGroups, H. Qed.

Lemma mixed_not_uniform : ~ uniformMac "AA:BB-CC:DD:EE:FF".
Proof.
  intros (sep & groups & _ & Lg & Fg & Hs).
  do 6 (destruct groups as [|? groups]; [discriminate|]).
  destruct groups; [|discriminate].
  repeat match goal with
         | H : Forall _ (_ :: _) |- _ => inversion H; clear H; subst
         end.
  repeat match goal with
         | H : hexPair _ |- _ => destruct H as (? & ? & -> & _ & _)
         end.
  vm_compute in Hs.
  injection Hs; intros; subst; discriminate.
Qed.

(** C2, the code at the failing input: [isValidMac] accepts the
    mixed-separator string ["AA:BB-CC:DD:EE:FF"], which does not use one
    separator throughout, so it is not true exactly on the strings of the
    claim. *)
Lemma C2_mixed_separators_accepted :
  ~ (isValidMac "AA:BB-CC:DD:EE:FF" = true <->
     uniformMac "AA:BB-CC:DD:EE:FF").
Proof.
  intros [H _]. apply mixed_not_uniform, H. reflexivity.
Qed.

(** What [isValidMac] does accept: six groups of two hexadecimal digits
    (either letter case) with [:] or [-] between neighbouring groups,
    each separator matched on its own. *)
Lemma isValidMac_six_groups (s : string) :
  (isValidMac s = true <-> sixGroups s) /\
  isValidMac "AA:BB:CC:DD:EE:FF" = true /\
  isValidMac "aa-bb-cc-dd-ee-ff" = true /\
  isValidMac "AA:BB-CC:DD:EE:FF" = true /\
  isValidMac "AA:BB:CC:DD:EE" = false /\
  isValidMac "AA:BB:CC:DD:EE:GG" = false.
Proof.
  split; [apply isValidMac_sixGroups|].
  repeat split; reflexivity.
Qed.

End IsValidMac.

(* ================================================================== *)
(** * The package's reading of a MAC *)
(* ================================================================== *)

Section MacOctets.
Import WakeOnLan WakeOnLanService Words.

Lemma hexValue_nibble (c : ascii) (h : Z) :
  hexValue c = Some h -> nibble c = h.
Proof.
  destruct c as [[] [] [] [] [] [] [] []]; vm_compute; intros H;
    first [discriminate | now injection H].
Qed.

Lemma hexValue_digit (c : ascii) (h : Z) :
  hexValue c = Some h -> isHexDigit c = true.
Proof.
  destruct c as [[] [] [] [] [] [] [] []]; vm_compute; intros H;
    first [discriminate | reflexivity].
Qed.

Lemma hexPair_octet (a b : ascii) :
  isHexDigit a = true -> isHexDigit b = true ->
  octet a b = Some (pairValue [a; b]) /\ isByte (pairValue [a; b]).
Proof.
  intros Ha Hb.
  destruct (hexDigit_value _ Ha) as (h & Hh & Rh).
  destruct (hexDigit_value _ Hb) as (l & Hl & Rl).
  unfold octet, pairValue, isByte; rewrite Hh, Hl.
  rewrite (hexValue_nibble _ Hh), (hexValue_nibble _ Hl).
  split; [reflexivity | lia].
Qed.

Lemma octet_hexPair (a b : ascii) (o : Z) :
  octet a b = Some o -> hexPair [a; b] /\ o = pairValue [a; b].
Proof.
  unfold octet; intros H.
  destruct (hexValue a) as [h|] eqn:Hh; [|discriminate].
  destruct (hexValue b) as [l|] eqn:Hl; [|discriminate].
  injection H as <-; split.
  - exists a, b; repeat split; eapply hexValue_digit; eassumption.
  - unfold pairValue.
    now rewrite (hexValue_nibble _ Hh), (hexValue_nibble _ Hl).
Qed.

Lemma joinWith_cons (sep a b : ascii) (g : list ascii)
      (rest : list (list ascii)) :
  joinWith (repeat sep (length ([a; b] :: g :: rest) - 1))
           ([a; b] :: g :: rest)
  = a :: b :: sep :: joinWith (repeat sep (length (g :: rest) - 1)) (g :: rest).
Proof.
  cbn [length Nat.sub]; rewrite Nat.sub_0_r; reflexivity.
Qed.

(** Hex pairs joined by one separator read back as one octet per group,
    the octet being the value of the pair. *)
Lemma macGroups_joinWith (sep : ascii) (groups : list (list ascii)) :
  groups <> [] ->
  Forall hexPair groups ->
  macGroups sep (joinWith (repeat sep (length groups - 1)) groups)
  = Some (map pairValue groups) /\
  Forall isByte (map pairValue groups).
Proof.
  induction groups as [|g rest IH]; intros Hne Fg; [contradiction|].
  inversion Fg as [|? ? (a & b & -> & Ha & Hb) Frest]; subst.
  destruct (hexPair_octet a b Ha Hb) as (Ho & Bo).
  destruct rest as [|g1 rest'].
  - split; [|constructor; [exact Bo | constructor]].
    change (macGroups sep [a; b] = Some [pairValue [a; b]]).
    cbn [macGroups]; now rewrite Ho.
  - destruct IH as (Hm & Hbytes); [discriminate | assumption |].
    split; [|constructor; assumption].
    rewrite joinWith_cons.
    cbn [macGroups]; rewrite Ho, Ascii.eqb_refl, Hm; reflexivity.
Qed.

(** Whatever the reader accepts is such a string. *)
Lemma macGroups_complete (sep : ascii) (n : nat) :
  forall cs octets,
    length cs <= n ->
    macGroups sep cs = Some octets ->
    exists groups,
      groups <> [] /\ Forall hexPair groups /\
      cs = joinWith (repeat sep (length groups - 1)) groups /\
      octets = map pairValue groups.
Proof.
  induction n as [|n IH]; intros cs octets Hlen H.
  - destruct cs; [discriminate | simpl in Hlen; lia].
  - destruct cs as [|hi [|lo rest]]; try discriminate.
    cbn [macGroups] in H.
    destruct (octet hi lo) as [o|] eqn:Ho; [|discriminate].
    destruct (octet_hexPair _ _ Ho) as (Hp & ->).
    destruct rest as [|p more].
    + injection H as <-.
      exists [[hi; lo]]; repeat split; [discriminate | now constructor].
    + destruct (Ascii.eqb_spec p sep) as [->|]; [|discriminate].
      destruct (macGroups sep more) as [octets'|] eqn:Hm; [|discriminate].
      injection H as <-.
      destruct (IH more octets') as (groups & Hne & Fg & Hcs & ->); auto.
      { simpl in Hlen; lia. }
      destruct groups as [|g1 rest']; [contradiction|].
      exists ([hi; lo] :: g1 :: rest'); repeat split.
      * discriminate.
      * now constructor.
      * now rewrite joinWith_cons, <- Hcs.
Qed.

Lemma macOctets_uniform (m : string) (sep : ascii)
      (groups : list (list ascii)) :
  isSeparator sep = true ->
  length groups = 6 ->
  Forall hexPair groups ->
  chars m = joinWith (repeat sep 5) groups ->
  macOctets m = Some (map pairValue groups) /\
  Forall isByte (map pairValue groups).
Proof.
  intros Hsep Lg Fg Hs.
  destruct (@macGroups_joinWith sep groups) as (Hm & Hb); auto.
  { intros ->; discriminate. }
  split; [|exact Hb].
  rewrite Lg in Hm; cbn [Nat.sub] in Hm.
  unfold macOctets; fold (chars m); rewrite Hs.
  destruct groups as [|g [|g1 rest]]; try discriminate.
  inversion Fg as [|? ? (a & b & -> & _ & _) _]; subst.
  assert (Hshape : exists tail,
             joinWith (repeat sep 5) ([a; b] :: g1 :: rest)
             = a :: b :: sep :: tail)
    by (eexists; reflexivity).
  destruct Hshape as (tail & Hshape).
  rewrite Hshape in *.
  rewrite Hsep, Hm, length_map, Lg; reflexivity.
Qed.

Lemma macOctets_complete (m : string) (octets : list Z) :
  macOctets m = Some octets -> uniformMac m.
Proof.
  unfold macOctets; fold (chars m); intros H.
  destruct (chars m) as [|c1 [|c2 [|sep tail]]] eqn:Hcs; try discriminate.
  destruct (isSeparator sep) eqn:Hsep; [|discriminate].
  destruct (macGroups sep (c1 :: c2 :: sep :: tail)) as [os|] eqn:Hm;
    [|discriminate].
  destruct (Nat.eqb_spec (length os) 6) as [Hl|]; [|discriminate].
  destruct (@macGroups_complete sep _ _ _ (le_n _) Hm)
    as (groups & _ & Fg & Hjoin & ->).
  rewrite length_map in Hl.
  exists sep, groups; repeat split; auto.
  rewrite Hcs, Hjoin, Hl; reflexivity.
Qed.

(** The package reads exactly the strings with one separator throughout. *)
Lemma macOctets_iff (m : string) :
  (exists octets, macOctets m = Some octets) <-> uniformMac m.
Proof.
  split.
  - intros (octets & H); eapply macOctets_complete; eassumption.
  - intros (sep & groups & Hsep & Lg & Fg & Hs).
    eexists; eapply macOctets_uniform; eassumption.
Qed.

Lemma magicPacket_length (octets : list Z) :
  length octets = 6 -> length (createMagicPacket octets) = 102.
Proof.
  intros H; unfold createMagicPacket.
  rewrite length_app, repeat_length.
  cbn [repeat concat]; repeat rewrite length_app; rewrite H; reflexivity.
Qed.

Lemma magicPacket_bytes (octets : list Z) :
  Forall isByte octets -> Forall isByte (createMagicPacket octets).
Proof.
  intros H; unfold createMagicPacket; apply Forall_app; split.
  - repeat constructor; unfold isByte; lia.
  - cbn [repeat concat].
    repeat (apply Forall_app; split; [exact H|]); constructor.
Qed.

Lemma truthy_nonempty (a : string) : a <> "" -> truthy (Some a) = true.
Proof.
  intros H; simpl; destruct (String.eqb_spec a ""); [contradiction | reflexivity].
Qed.

End MacOctets.

(* ================================================================== *)
(** * wake and wakeDevice *)
(* ================================================================== *)

Section WakeResults.
Import WakeOnLan WakeOnLanService Words.

Lemma append_assoc (a b c : string) :
  ((a ++ b) ++ c = a ++ (b ++ c))%string.
Proof. induction a as [|x a IH]; simpl; [reflexivity | now rewrite IH]. Qed.

Lemma wake_call (wol : WolLib) (m : string) (b : option string) :
  wake wol m b = settle (wakeCallback m) (libraryCall wol m b).
Proof. unfold wake, libraryCall; destruct (truthy b); reflexivity. Qed.

Lemma wakeDevice_call (wol : WolLib) (d : Device) :
  wakeDevice wol d
  = settle (wakeDeviceCallback d) (libraryCall wol (mac d) (broadcast d)).
Proof. unfold wakeDevice, libraryCall; destruct (truthy _); reflexivity. Qed.

Lemma wakeCallback_reflects (m : string) (error : option string) :
  reflects (wakeCallback m error) error.
Proof.
  destruct error as [reason|]; simpl; [|reflexivity].
  split; [reflexivity|]. now exists "Failed to wake device: ".
Qed.

Lemma wakeDeviceCallback_reflects (d : Device) (error : option string) :
  reflects (wakeDeviceCallback d error) error.
Proof.
  destruct error as [reason|]; simpl; [|reflexivity].
  split; [reflexivity|].
  exists ("Failed to wake " ++ name d ++ ": ")%string.
  now rewrite !append_assoc.
Qed.

(** The package refuses every string that is not six groups with one
    separator throughout: the call throws, [wake] sends nothing and its
    promise is rejected. *)
Lemma wake_refused (net : Datagram -> option string) (m : string)
      (b : option string) :
  ~ uniformMac m -> wake (wolSpec net) m b = ([], Rejected malformed).
Proof.
  intros H; rewrite wake_call; unfold libraryCall, wolSpec.
  destruct (macOctets m) as [octets|] eqn:Ho; [|reflexivity].
  exfalso; apply H; eapply macOctets_complete; eassumption.
Qed.

(** A send the library reports through its callback becomes a resolved
    promise: [success] tells how the send ended, a failure's description
    ends the message, and the result names the target. *)
Lemma reported_sends_resolve
      (wol : WolLib) (m : string) (b : option string) (d : Device) :
  (forall sent error,
      libraryCall wol m b = Callback sent error ->
      exists r,
        wake wol m b = (sent, Resolved r) /\ reflects r error /\
        device r = "Unknown" /\ wmac r = m) /\
  (forall sent error,
      libraryCall wol (mac d) (broadcast d) = Callback sent error ->
      exists r,
        wakeDevice wol d = (sent, Resolved r) /\ reflects r error /\
        device r = name d /\ wmac r = mac d).
Proof.
  split; intros sent error Hc.
  - exists (wakeCallback m error); rewrite wake_call, Hc.
    repeat split; try (destruct error; reflexivity).
    apply wakeCallback_reflects.
  - exists (wakeDeviceCallback d error); rewrite wakeDevice_call, Hc.
    repeat split; try (destruct error; reflexivity).
    apply wakeDeviceCallback_reflects.
Qed.

End WakeResults.

Section Wake.
Import WakeOnLan WakeOnLanService Words.

(** C1: for every MAC string of six groups of two hexadecimal digits
    with [:] throughout or [-] throughout, [wake(mac)] hands the socket a
    single datagram of 102 bytes, six [0xFF] followed sixteen times by
    the six octets the groups stand for, for port 9 at 255.255.255.255;
    with a broadcast address supplied the same payload goes to that
    address. *)
Theorem C1_wake_magic_packet
        (net : Datagram -> option string) (m : string)
        (sep : ascii) (groups : list (list ascii)) :
  isSeparator sep = true ->
  length groups = 6 ->
  Forall hexPair groups ->
  chars m = joinWith (repeat sep 5) groups ->
  let packet := repeat 255%Z 6 ++ concat (repeat (map pairValue groups) 16) in
  length packet = 102 /\
  Forall isByte packet /\
  fst (wake (wolSpec net) m None)
  = [ {| payload := packet; port := 9%Z; address := "255.255.255.255" |} ] /\
  forall a, a <> "" ->
    fst (wake (wolSpec net) m (Some a))
    = [ {| payload := packet; port := 9%Z; address := a |} ].
Proof.
  intros Hsep Lg Fg Hs; cbv zeta.
  destruct (@macOctets_uniform m sep groups Hsep Lg Fg Hs) as (Ho & Hb).
  repeat split.
  - apply magicPacket_length; now rewrite length_map.
  - now apply magicPacket_bytes.
  - unfold wake, wolSpec; simpl truthy; cbv iota; rewrite Ho; reflexivity.
  - intros a Ha; unfold wake, wolSpec.
    rewrite (truthy_nonempty Ha), Ho; reflexivity.
Qed.

Lemma C1_wake_magic_packet_witness :
  isSeparator ":" = true /\
  chars "00:11:22:33:44:55"
  = joinWith (repeat ":"%char 5)
             [["0"; "0"]; ["1"; "1"]; ["2"; "2"];
              ["3"; "3"]; ["4"; "4"]; ["5"; "5"]]%char /\
  fst (wake (wolSpec (fun _ => None)) "00:11:22:33:44:55" None)
  = [ {| payload :=
           repeat 255%Z 6 ++ concat (repeat [0; 17; 34; 51; 68; 85]%Z 16);
         port := 9%Z;
         address := "255.255.255.255" |} ].
Proof.
  split; [reflexivity|]. split; [reflexivity|].
  assert (Fg : Forall hexPair
                      [["0"; "0"]; ["1"; "1"]; ["2"; "2"];
                       ["3"; "3"]; ["4"; "4"]; ["5"; "5"]]%char).
  { repeat constructor; eexists; eexists; repeat split; reflexivity. }
  destruct (@C1_wake_magic_packet
              (fun _ => None) "00:11:22:33:44:55" ":"%char
              [["0"; "0"]; ["1"; "1"]; ["2"; "2"];
               ["3"; "3"]; ["4"; "4"]; ["5"; "5"]]%char
              eq_refl eq_refl Fg eq_refl)
    as (_ & _ & Hsent & _).
  exact Hsent.
Defined.

(** The mixed-separator string of C2 is refused by the package. *)
Example wake_mixed_separators (net : Datagram -> option string) :
  wake (wolSpec net) "AA:BB-CC:DD:EE:FF" None = ([], Rejected malformed).
Proof. reflexivity. Qed.

End Wake.

Section WakeClaims.
Import WakeOnLan WakeOnLanService Words Samples.


(** C5, the code at the failing input: for the MAC ["AA:BB-CC:DD:EE:FF"],
    which [isValidMac] accepts, and for ["garbage"], the package throws
    inside the promise executor; neither [wake] nor [wakeDevice] catches
    it, so the promise is rejected and the caller gets an exception
    instead of a result with [success = false].  The same holds for every
    library call that throws. *)
Theorem C5_thrown_library_call_rejects :
  isValidMac "AA:BB-CC:DD:EE:FF" = true /\
  (forall net b,
      wake (wolSpec net) "AA:BB-CC:DD:EE:FF" b = ([], Rejected malformed)) /\
  (forall net b,
      wake (wolSpec net) "garbage" b = ([], Rejected malformed)) /\
  (forall net, wakeDevice (wolSpec net) mixed = ([], Rejected malformed)) /\
  (forall wol m b reason,
      libraryCall wol m b = Thrown reason ->
      wake wol m b = ([], Rejected reason)) /\
  (forall wol d reason,
      libraryCall wol (mac d) (broadcast d) = Thrown reason ->
      wakeDevice wol d = ([], Rejected reason)).
Proof.
  split; [reflexivity|].
  split; [intros net b; rewrite wake_call; reflexivity|].
  split; [intros net b; rewrite wake_call; reflexivity|].
  split; [reflexivity|].
  split.
  - intros wol m b reason H; now rewrite wake_call, H.
  - intros wol d reason H; now rewrite wakeDevice_call, H.
Qed.

End WakeClaims.

(* ================================================================== *)
(** * wakeMultiple *)
(* ================================================================== *)

Section WakeMultiple.
Import WakeOnLan WakeOnLanService Words Notions.

Lemma setSlot_length (r : WakeResult) (slots : list (option WakeResult)) :
  forall i, length (setSlot i r slots) = length slots.
Proof.
  induction slots as [|s rest IH]; intros [|i]; simpl; auto.
Qed.

Lemma nth_error_setSlot (r : WakeResult) (slots : list (option WakeResult)) :
  forall i j,
    i < length slots ->
    nth_error (setSlot i r slots) j
    = if j =? i then Some (Some r) else nth_error slots j.
Proof.
  induction slots as [|s rest IH]; intros i j Hi; [simpl in Hi; lia|].
  destruct i as [|i], j as [|j]; simpl; auto.
  apply IH; simpl in Hi; lia.
Qed.

(** Delivering resolved promises in any order fills exactly the slots
    named by the order, each with its own promise's value. *)
Lemma deliver_resolved (results : list WakeResult) :
  forall order slots,
    length slots = length results ->
    (forall i, In i order -> i < length results) ->
    exists slots',
      fold_left (deliver (map Resolved results)) order (Waiting slots)
      = Waiting slots' /\
      length slots' = length results /\
      forall j r,
        nth_error results j = Some r ->
        nth_error slots' j
        = if existsb (Nat.eqb j) order then Some (Some r)
          else nth_error slots j.
Proof.
  induction order as [|i rest IH]; intros slots Hlen Hin.
  - exists slots; simpl; auto.
  - assert (Hi : i < length results) by (apply Hin; now left).
    destruct (nth_error results i) as [ri|] eqn:Hri;
      [|apply nth_error_None in Hri; lia].
    destruct (IH (setSlot i ri slots)) as (slots' & Hf & Hl & Hnth).
    + now rewrite setSlot_length.
    + intros k Hk; apply Hin; now right.
    + exists slots'; repeat split; auto.
      * simpl; rewrite nth_error_map, Hri; exact Hf.
      * intros j r Hr; rewrite (Hnth j r Hr); simpl.
        destruct (existsb (Nat.eqb j) rest);
          [now rewrite orb_true_r|rewrite orb_false_r].
        rewrite nth_error_setSlot by lia.
        destruct (Nat.eqb_spec j i) as [->|]; [congruence | reflexivity].
Qed.

Lemma collect_filled (results : list WakeResult) :
  collect (map Some results) = Some results.
Proof.
  induction results as [|r rest IH]; simpl; [reflexivity | now rewrite IH].
Qed.

Lemma promiseAll_resolved (results : list WakeResult) (order : list nat) :
  Permutation order (seq 0 (length results)) ->
  promiseAll (map Resolved results) order = Fulfilled results.
Proof.
  intros Hperm; unfold promiseAll; rewrite length_map.
  destruct (@deliver_resolved results order (repeat None (length results)))
    as (slots' & Hf & Hl & Hnth).
  - apply repeat_length.
  - intros i Hi. apply (Permutation_in _ Hperm), in_seq in Hi; lia.
  - rewrite Hf.
    assert (slots' = map Some results) as ->; [|now rewrite collect_filled].
    apply nth_error_ext; intros j.
    destruct (nth_error results j) as [r|] eqn:Hr.
    + rewrite (Hnth j r Hr), nth_error_map, Hr.
      assert (Hj : existsb (Nat.eqb j) order = true).
      { apply existsb_exists; exists j; split; [|apply Nat.eqb_refl].
        apply (Permutation_in _ (Permutation_sym Hperm)), in_seq.
        assert (j < length results) by (apply nth_error_Some; congruence).
        lia. }
      now rewrite Hj.
    + rewrite nth_error_map, Hr; simpl.
      apply nth_error_None in Hr; apply nth_error_None; lia.
Qed.

Lemma wakeDevice_resolves (wol : WolLib) (d : Device) :
  reportsByCallback wol ->
  snd (wakeDevice wol d) = Resolved (deviceResult wol d).
Proof.
  intros Hlib; rewrite wakeDevice_call; unfold deviceResult, libraryCall.
  destruct (Hlib (mac d) (if truthy (broadcast d) then broadcast d else None))
    as (sent & error & ->); reflexivity.
Qed.

Lemma wakeMultiple_results (wol : WolLib) (devices : list Device)
      (order : list nat) :
  reportsByCallback wol ->
  Permutation order (seq 0 (length devices)) ->
  snd (wakeMultiple wol devices order)
  = Fulfilled (map (deviceResult wol) devices).
Proof.
  intros Hlib Hperm; unfold wakeMultiple; simpl snd.
  replace (map (fun d => snd (wakeDevice wol d)) devices)
    with (map Resolved (map (deviceResult wol) devices)).
  - apply promiseAll_resolved; now rewrite length_map.
  - rewrite map_map; apply map_ext; intros d.
    symmetry; now apply wakeDevice_resolves.
Qed.

Lemma nth_error_startEvents (calls : list (list Datagram)) :
  forall from i sent,
    nth_error calls i = Some sent ->
    nth_error (startEvents from calls) i = Some (Started (from + i) sent).
Proof.
  induction calls as [|c rest IH]; intros from [|i] sent H;
    simpl in *; try discriminate.
  - injection H as ->; now rewrite Nat.add_0_r.
  - rewrite (IH (S from) i sent H); do 2 f_equal; lia.
Qed.

Lemma startEvents_length (calls : list (list Datagram)) :
  forall from, length (startEvents from calls) = length calls.
Proof. induction calls; intros from; simpl; auto. Qed.

Lemma deliver_failed (promises : list (Promise WakeResult))
      (order : list nat) (reason : string) :
  fold_left (deliver promises) order (Failed reason) = Failed reason.
Proof. induction order as [|i rest IH]; simpl; auto. Qed.

Lemma deliver_while_resolved (promises : list (Promise WakeResult))
      (pre : list nat) :
  (forall j, In j pre -> exists r, nth_error promises j = Some (Resolved r)) ->
  forall slots,
  exists slots',
    fold_left (deliver promises) pre (Waiting slots) = Waiting slots'.
Proof.
  induction pre as [|j rest IH]; intros Hpre slots; simpl.
  - now exists slots.
  - destruct (Hpre j (or_introl eq_refl)) as (r & ->).
    apply IH; intros k Hk; apply Hpre; now right.
Qed.

(** [Promise.all] rejects with the reason of the first rejected promise
    to be delivered, whatever the others did. *)
Lemma promiseAll_first_rejection (promises : list (Promise WakeResult))
      (pre post : list nat) (i : nat) (reason : string) :
  (forall j, In j pre -> exists r, nth_error promises j = Some (Resolved r)) ->
  nth_error promises i = Some (Rejected reason) ->
  promiseAll promises (pre ++ i :: post) = Broken reason.
Proof.
  intros Hpre Hi; unfold promiseAll.
  rewrite fold_left_app.
  destruct (deliver_while_resolved promises pre Hpre
              (repeat None (length promises))) as (slots' & ->).
  simpl; rewrite Hi, deliver_failed; reflexivity.
Qed.

Lemma wakeDevice_thrown (wol : WolLib) (d : Device) (reason : string) :
  libraryCall wol (mac d) (broadcast d) = Thrown reason ->
  snd (wakeDevice wol d) = Rejected reason.
Proof. intros H; rewrite wakeDevice_call, H; reflexivity. Qed.

Lemma wakeDevice_resolved (wol : WolLib) (d : Device) :
  resolves wol d -> exists r, snd (wakeDevice wol d) = Resolved r.
Proof.
  intros (sent & error & H); rewrite wakeDevice_call, H.
  eexists; reflexivity.
Qed.

(** With a single rejected promise among resolved ones, [Promise.all]
    rejects in whatever order the promises are delivered. *)
Lemma promiseAll_single_rejection (promises : list (Promise WakeResult))
      (order : list nat) (i : nat) (reason : string) :
  nth_error promises i = Some (Rejected reason) ->
  (forall j, j <> i -> j < length promises ->
             exists r, nth_error promises j = Some (Resolved r)) ->
  Permutation order (seq 0 (length promises)) ->
  promiseAll promises order = Broken reason.
Proof.
  intros Hi Hothers Hperm.
  assert (Hin : In i order).
  { apply (Permutation_in _ (Permutation_sym Hperm)), in_seq.
    assert (i < length promises) by (apply nth_error_Some; congruence).
    lia. }
  assert (Hnodup : NoDup order)
    by (apply (Permutation_NoDup (Permutation_sym Hperm)), seq_NoDup).
  destruct (in_split _ _ Hin) as (pre & post & ->).
  apply promiseAll_first_rejection; [|exact Hi].
  intros j Hj; apply Hothers.
  - intros ->. apply NoDup_remove_2 in Hnodup.
    apply Hnodup, in_or_app; now left.
  - assert (In j (seq 0 (length promises))) as Hjs
        by (apply (Permutation_in _ Hperm), in_or_app; now left).
    apply in_seq in Hjs; lia.
Qed.

(** When every library call reports through its callback: for every
    list of devices and every order in which the sends complete,
    [wakeMultiple] resolves with exactly one result per device, the i-th
    being the result of the i-th device; the library call of every device
    is made, in index order, before the first callback runs; and the i-th
    result depends only on the i-th device's own send. *)
Lemma wakeMultiple_order_and_isolation
      (wol : WolLib) (devices : list Device) (order : list nat) :
  reportsByCallback wol ->
  Permutation order (seq 0 (length devices)) ->
  exists starts results,
    wakeMultiple wol devices order
    = (starts ++ map Completed order, Fulfilled results) /\
    length starts = length devices /\
    length results = length devices /\
    (forall i d,
        nth_error devices i = Some d ->
        (exists sent error,
            libraryCall wol (mac d) (broadcast d) = Callback sent error /\
            nth_error starts i = Some (Started i sent)) /\
        exists r,
          nth_error results i = Some r /\
          snd (wakeDevice wol d) = Resolved r /\
          device r = name d /\ wmac r = mac d) /\
    (forall wol' order',
        reportsByCallback wol' ->
        Permutation order' (seq 0 (length devices)) ->
        forall i d,
          nth_error devices i = Some d ->
          libraryCall wol' (mac d) (broadcast d)
          = libraryCall wol (mac d) (broadcast d) ->
          exists results',
            snd (wakeMultiple wol' devices order') = Fulfilled results' /\
            nth_error results' i = nth_error results i).
Proof.
  intros Hlib Hperm.
  exists (startEvents 0 (map (fun d => fst (wakeDevice wol d)) devices)),
         (map (deviceResult wol) devices).
  pose proof (wakeMultiple_results devices Hlib Hperm) as Hres.
  repeat split.
  - unfold wakeMultiple in *; simpl in Hres; now rewrite Hres.
  - now rewrite startEvents_length, length_map.
  - apply length_map.
  - destruct (Hlib (mac d) (if truthy (broadcast d) then broadcast d else None))
      as (sent & error & Hc).
    exists sent, error; split; [exact Hc|].
    rewrite (@nth_error_startEvents _ 0 i (fst (wakeDevice wol d)));
      [|now rewrite nth_error_map, H].
    rewrite wakeDevice_call; unfold libraryCall; rewrite Hc; reflexivity.
  - exists (deviceResult wol d); repeat split.
    + rewrite nth_error_map, H; reflexivity.
    + now apply wakeDevice_resolves.
    + unfold deviceResult; destruct (callbackError _); reflexivity.
    + unfold deviceResult; destruct (callbackError _); reflexivity.
  - intros wol' order' Hlib' Hperm' i d Hd Hsame.
    exists (map (deviceResult wol') devices); split.
    + now apply wakeMultiple_results.
    + rewrite !nth_error_map, Hd; simpl.
      unfold deviceResult; now rewrite Hsame.
Qed.

End WakeMultiple.

Section WakeMultipleClaims.
Import WakeOnLan WakeOnLanService Words Samples.

(** C4, the code at the failing input: of the three devices [nas],
    [mixed] and [tv] the second has the MAC ["AA:BB-CC:DD:EE:FF"], which
    [isValidMac] accepts and the package refuses by throwing.  The sends
    for [nas] and [tv] are made and their own promises resolve, but
    [Promise.all] rejects in whatever order the sends complete:
    [wakeMultiple] returns no result sequence at all. *)
Theorem C4_thrown_call_loses_every_result
        (net : Datagram -> option string) (order : list nat) :
  Permutation order (seq 0 3) ->
  isValidMac (mac mixed) = true /\
  snd (wakeMultiple (wolSpec net) [nas; mixed; tv] order) = Broken malformed /\
  fst (wakeMultiple (wolSpec net) [nas; mixed; tv] order)
  = [Started 0 (fst (wake (wolSpec net) (mac nas) None));
     Started 1 [];
     Started 2 (fst (wake (wolSpec net) (mac tv) None))]
      ++ map Completed order /\
  length (fst (wake (wolSpec net) (mac nas) None)) = 1 /\
  length (fst (wake (wolSpec net) (mac tv) None)) = 1 /\
  (exists r0 r2,
      snd (wakeDevice (wolSpec net) nas) = Resolved r0 /\ device r0 = "nas" /\
      snd (wakeDevice (wolSpec net) tv) = Resolved r2 /\ device r2 = "tv").
Proof.
  intros Hperm; split; [reflexivity|].
  split; [|repeat (split; [reflexivity|])].
  - unfold wakeMultiple; simpl snd.
    apply promiseAll_single_rejection with (i := 1);
      [reflexivity | | exact Hperm].
    intros [|[|[|j]]] Hne Hlt; simpl in Hlt; try lia.
    + eexists; reflexivity.
    + eexists; reflexivity.
  - eexists; eexists.
    split; [reflexivity|]. split; [simpl; destruct (net _); reflexivity|].
    split; [reflexivity|]. simpl; destruct (net _); reflexivity.
Qed.

Lemma C4_thrown_call_loses_every_result_witness :
  Permutation [2; 0; 1] (seq 0 3) /\
  snd (wakeMultiple (wolSpec oneSubnetDown) [nas; mixed; tv] [2; 0; 1])
  = Broken malformed.
Proof.
  assert (Hperm : Permutation [2; 0; 1] (seq 0 3)).
  { apply perm_trans with [0; 2; 1]; [apply perm_swap|].
    apply perm_skip, perm_swap. }
  split; [exact Hperm|].
  exact (proj1 (proj2 (@C4_thrown_call_loses_every_result
                         oneSubnetDown [2; 0; 1] Hperm))).
Defined.

(** The scenario of the spec: the second of three sends fails. *)
Example wakeMultiple_second_fails :
  snd (wakeMultiple (wolSpec oneSubnetDown) threeDevices [2; 0; 1])
  = Fulfilled
      [ {| success := true; device := "nas"; wmac := "00:11:22:33:44:55";
           message := "Magic packet sent to nas successfully" |};
        {| success := false; device := "desk"; wmac := "66-77-88-99-AA-BB";
           message := "Failed to wake desk: send ENETUNREACH" |};
        {| success := true; device := "tv"; wmac := "cc:dd:ee:ff:00:11";
           message := "Magic packet sent to tv successfully" |} ].
Proof. vm_compute. reflexivity. Qed.

End WakeMultipleClaims.

(* ================================================================== *)
(** * Names up to letter case *)
(* ================================================================== *)

Section Names.
Import Case.

Lemma sameName_refl (a : string) : sameName a a = true.
Proof. apply String.eqb_refl. Qed.

Lemma sameName_sym (a b : string) : sameName a b = sameName b a.
Proof. apply String.eqb_sym. Qed.

Lemma sameName_trans (a b c : string) :
  sameName a b = true -> sameName b c = true -> sameName a c = true.
Proof.
  unfold sameName; rewrite !String.eqb_eq; congruence.
Qed.

(** Looking a record up under either of two equal names is the same. *)
Lemma named_same (a b : string) (d : Device) :
  sameName a b = true -> named a d = named b d.
Proof.
  unfold named, sameName; intros H; apply String.eqb_eq in H.
  now rewrite H.
Qed.

Lemma find_named_same (a b : string) (l : list Device) :
  sameName a b = true -> find (named a) l = find (named b) l.
Proof.
  intros H; induction l as [|d rest IH]; simpl; [reflexivity|].
  now rewrite (named_same a b d H), IH.
Qed.

Lemma find_none_existsb (n : string) (l : list Device) :
  find (named n) l = None <-> existsb (named n) l = false.
Proof.
  induction l as [|d rest IH]; simpl; [tauto|].
  destruct (named n d); simpl; [split; discriminate | exact IH].
Qed.

Lemma find_snoc_new (n : string) (l : list Device) (d : Device) :
  find (named n) l = None -> named n d = true ->
  find (named n) (l ++ [d]) = Some d.
Proof.
  intros Hl Hd; induction l as [|e rest IH]; simpl in *.
  - now rewrite Hd.
  - destruct (named n e); [discriminate | auto].
Qed.

Lemma existsb_named_app (n : string) (l1 l2 : list Device) :
  existsb (named n) (l1 ++ l2) = existsb (named n) l1 || existsb (named n) l2.
Proof. apply existsb_app. Qed.

Lemma existsb_named_name (d : Device) (l : list Device) :
  existsb (named (name d)) l = existsb (fun e => named (name e) d) l.
Proof.
  induction l as [|e rest IH]; simpl; [reflexivity|].
  rewrite IH; f_equal; unfold named; apply sameName_sym.
Qed.

(** Appending a record keeps names unique iff its name is new. *)
Lemma uniqueNames_snoc (l : list Device) (d : Device) :
  uniqueNames (l ++ [d])
  = uniqueNames l && negb (existsb (named (name d)) l).
Proof.
  induction l as [|e rest IH]; simpl; [reflexivity|].
  rewrite IH, existsb_named_app; simpl.
  rewrite orb_false_r.
  replace (named (name e) d) with (named (name d) e)
    by (unfold named; apply sameName_sym).
  destruct (existsb (named (name e)) rest), (named (name d) e),
    (uniqueNames rest), (existsb (named (name d)) rest); reflexivity.
Qed.

Lemma existsb_filter_false (n : string) (p : Device -> bool)
      (l : list Device) :
  existsb (named n) l = false -> existsb (named n) (filter p l) = false.
Proof.
  induction l as [|e rest IH]; simpl; [reflexivity|].
  intros H; apply orb_false_iff in H; destruct H as [He Hr].
  destruct (p e); simpl; [rewrite He|]; auto.
Qed.

Lemma uniqueNames_filter (p : Device -> bool) (l : list Device) :
  uniqueNames l = true -> uniqueNames (filter p l) = true.
Proof.
  induction l as [|e rest IH]; simpl; [reflexivity|].
  intros H; apply andb_true_iff in H; destruct H as [He Hr].
  destruct (p e); simpl; auto.
  apply andb_true_iff; split; auto.
  apply negb_true_iff in He; apply negb_true_iff.
  now apply existsb_filter_false.
Qed.

End Names.

(* ================================================================== *)
(** * Facts about the SQLite device manager *)
(* ================================================================== *)

Section SqliteFacts.
Import SqliteDeviceManager Words.

Lemma normalizeDevice_id (d : Device) : normalizeDevice d = d.
Proof. destruct d; reflexivity. Qed.

Lemma map_normalizeDevice (l : list Device) : map normalizeDevice l = l.
Proof.
  induction l as [|d rest IH]; simpl;
    [reflexivity | now rewrite normalizeDevice_id, IH].
Qed.

Lemma nocaseLeb_total (a b : string) :
  Case.nocaseLeb a b = false -> Case.nocaseLeb b a = true.
Proof.
  unfold Case.nocaseLeb; intros H.
  destruct (String.leb_total (Case.toLowerCase a) (Case.toLowerCase b));
    congruence.
Qed.

Lemma insertSorted_perm (d : Device) (l : list Device) :
  Permutation (insertSorted d l) (d :: l).
Proof.
  induction l as [|e rest IH]; simpl; [reflexivity|].
  destruct (Case.nocaseLeb (name d) (name e)); [reflexivity|].
  rewrite IH; apply perm_swap.
Qed.

Lemma selectOrdered_perm (t : Table) : Permutation (selectOrdered t) t.
Proof.
  induction t as [|d rest IH]; simpl; [reflexivity|].
  rewrite insertSorted_perm; now constructor.
Qed.

Lemma insertSorted_sorted (d : Device) (l : list Device) :
  sortedByName l -> sortedByName (insertSorted d l).
Proof.
  unfold sortedByName; induction l as [|e rest IH]; intros Hs; simpl.
  - repeat constructor.
  - destruct (Case.nocaseLeb (name d) (name e)) eqn:Hle.
    + constructor; [assumption | constructor; exact Hle].
    + inversion Hs as [|? ? Hrest Hhd]; subst.
      constructor; [now apply IH|].
      destruct rest as [|f rest']; simpl.
      * constructor; now apply nocaseLeb_total.
      * destruct (Case.nocaseLeb (name d) (name f)).
        -- constructor; now apply nocaseLeb_total.
        -- inversion Hhd; subst; now constructor.
Qed.

(** [ORDER BY name COLLATE NOCASE] yields an ascending list. *)
Lemma selectOrdered_sorted (t : Table) : sortedByName (selectOrdered t).
Proof.
  induction t as [|d rest IH]; simpl; [constructor|].
  now apply insertSorted_sorted.
Qed.

Lemma connect_opened (w : World) :
  opened w -> exists t, table w = Some t /\ connect w = Returned t.
Proof.
  intros [Hdb Ht]; unfold connect, ensureDb; rewrite Hdb.
  destruct (table w) as [t|]; [|contradiction].
  exists t; auto.
Qed.

Lemma opened_withTable (t : Table) (w : World) :
  db w = true -> opened (withTable t w).
Proof. intros H; split; simpl; [assumption | discriminate]. Qed.

Lemma insertExample_opened (t : Table) (w : World) :
  db w = true -> opened (snd (insertExample t w)).
Proof.
  intros H; unfold insertExample.
  destruct (sqlInsert exampleDevice t); now apply opened_withTable.
Qed.

Lemma migrate_opened (legacy : ConfigFile) (w : World) :
  opened w -> opened (snd (migrateLegacyConfig legacy w)).
Proof.
  intros Ho; pose proof Ho as [Hdb _].
  destruct (connect_opened Ho) as (t & Ht & Hc).
  unfold migrateLegacyConfig; rewrite Hc.
  destruct (0 <? length t); [exact Ho|].
  destruct legacy as [| |entries].
  - now apply insertExample_opened.
  - now apply insertExample_opened.
  - destruct (insertAll entries t) as [t' [e|]].
    + now apply insertExample_opened.
    + now apply opened_withTable.
Qed.

(** Whatever the legacy file holds, [loadDevices] on a new manager
    leaves the database open with its table in place. *)
Lemma loadDevices_opened (legacy : ConfigFile) (stored : option Table) :
  opened (snd (loadDevices legacy (fresh stored))).
Proof.
  unfold loadDevices; simpl db; cbv iota.
  apply migrate_opened; split; simpl; [reflexivity|].
  destruct stored; discriminate.
Qed.

Lemma step_opened (w : World) (o : Op) : opened w -> opened (step w o).
Proof.
  intros Ho; pose proof Ho as [Hdb _].
  destruct (connect_opened Ho) as (t & Ht & Hc).
  destruct o as [d | n | n u]; simpl.
  - unfold addDevice; rewrite Hc.
    destruct (selectByName (name d) t); [exact Ho|].
    destruct (sqlInsert d t); [now apply opened_withTable | exact Ho].
  - unfold removeDevice; rewrite Hc.
    destruct (sqlDelete n t); now apply opened_withTable.
  - unfold updateDevice; rewrite Hc.
    destruct (selectByName n t); [|exact Ho].
    assert (Hw : opened
              (snd (if noFields u then (Returned true, w)
                    else match sqlUpdate u n t with
                         | Threw e => (Threw e, w)
                         | Returned (t', changes) =>
                             (Returned (0 <? changes), withTable t' w)
                         end))).
    { destruct (noFields u); [exact Ho|].
      destruct (sqlUpdate u n t) as [[t' c]|]; [|exact Ho].
      now apply opened_withTable. }
    destruct (renames n u) as [v|]; [|exact Hw].
    destruct (selectByName v t); [exact Ho | exact Hw].
Qed.

Lemma run_opened (ops : list Op) :
  forall w, opened w -> opened (run ops w).
Proof.
  induction ops as [|o rest IH]; intros w Ho; [exact Ho|].
  apply IH, step_opened, Ho.
Qed.

End SqliteFacts.

Section SqliteUniqueness.
Import SqliteDeviceManager Words.

Lemma uniqueNames_app_l (l1 l2 : list Device) :
  uniqueNames (l1 ++ l2) = true -> uniqueNames l1 = true.
Proof.
  induction l1 as [|d rest IH]; simpl; [reflexivity|].
  intros H; apply andb_true_iff in H; destruct H as [Hd Hr].
  rewrite (IH Hr), andb_true_r.
  rewrite existsb_named_app in Hd.
  apply negb_true_iff, orb_false_iff in Hd; destruct Hd as [Hd _].
  now rewrite Hd.
Qed.

Lemma sqlInsert_unique (d : Device) (t t' : Table) :
  uniqueNames t = true -> sqlInsert d t = Returned t' ->
  uniqueNames t' = true.
Proof.
  unfold sqlInsert; intros Hu.
  destruct (existsb (named (name d)) t) eqn:He; [discriminate|].
  intros [= <-]; now rewrite uniqueNames_snoc, Hu, He.
Qed.

Lemma insertAll_unique (entries : list Device) :
  forall t, uniqueNames t = true ->
            uniqueNames (fst (insertAll entries t)) = true.
Proof.
  induction entries as [|d rest IH]; intros t Hu; simpl; [exact Hu|].
  destruct (sqlInsert d t) as [t'|] eqn:Hi; [|exact Hu].
  apply IH; eapply sqlInsert_unique; eauto.
Qed.

(** A list without duplicate names is inserted whole. *)
Lemma insertAll_fresh (entries : list Device) :
  forall t, uniqueNames (t ++ entries) = true ->
            insertAll entries t = (t ++ entries, None).
Proof.
  induction entries as [|d rest IH]; intros t Hu; simpl.
  - now rewrite app_nil_r.
  - replace (t ++ d :: rest) with ((t ++ [d]) ++ rest) in *
      by (now rewrite <- app_assoc).
    pose proof (uniqueNames_app_l _ _ Hu) as Hd.
    rewrite uniqueNames_snoc in Hd.
    apply andb_true_iff in Hd; destruct Hd as [_ Hd].
    apply negb_true_iff in Hd.
    unfold sqlInsert; rewrite Hd. now apply IH.
Qed.

Lemma tableUnique_withTable (t : Table) (w : World) :
  uniqueNames t = true -> tableUnique (withTable t w).
Proof. intros H t' [= <-]; exact H. Qed.

Lemma connect_table (w : World) (t : Table) :
  connect w = Returned t -> table w = Some t.
Proof.
  unfold connect, ensureDb; destruct (db w); [|discriminate].
  destruct (table w); [congruence | discriminate].
Qed.

Lemma step_unique (w : World) (o : Op) :
  tableUnique w -> tableUnique (step w o).
Proof.
  intros Hu; destruct o as [d | n | n u]; simpl.
  - unfold addDevice.
    destruct (connect w) as [t|] eqn:Hc; [|exact Hu].
    destruct (selectByName (name d) t); [exact Hu|].
    destruct (sqlInsert d t) as [t'|] eqn:Hi; [|exact Hu].
    apply tableUnique_withTable.
    eapply sqlInsert_unique; eauto. apply Hu, connect_table, Hc.
  - unfold removeDevice.
    destruct (connect w) as [t|] eqn:Hc; [|exact Hu].
    simpl; apply tableUnique_withTable, uniqueNames_filter.
    apply Hu, connect_table, Hc.
  - unfold updateDevice.
    destruct (connect w) as [t|] eqn:Hc; [|exact Hu].
    destruct (selectByName n t); [|exact Hu].
    assert (Hw : tableUnique
              (snd (if noFields u then (Returned true, w)
                    else match sqlUpdate u n t with
                         | Threw e => (Threw e, w)
                         | Returned (t', changes) =>
                             (Returned (0 <? changes), withTable t' w)
                         end))).
    { destruct (noFields u); [exact Hu|].
      unfold sqlUpdate.
      destruct (uniqueNames (map _ t)) eqn:Hn; [|exact Hu].
      now apply tableUnique_withTable. }
    destruct (renames n u) as [v|]; [|exact Hw].
    destruct (selectByName v t); [exact Hu | exact Hw].
Qed.

Lemma run_unique (ops : list Op) :
  forall w, tableUnique w -> tableUnique (run ops w).
Proof.
  induction ops as [|o rest IH]; intros w Hu; [exact Hu|].
  apply IH, step_unique, Hu.
Qed.

Lemma insertExample_unique (t : Table) (w : World) :
  uniqueNames t = true -> tableUnique (snd (insertExample t w)).
Proof.
  intros Hu; unfold insertExample.
  destruct (sqlInsert exampleDevice t) as [t'|] eqn:Hi;
    apply tableUnique_withTable; auto.
  eapply sqlInsert_unique; eauto.
Qed.

Lemma loadDevices_unique (legacy : ConfigFile) (w : World) :
  tableUnique w -> tableUnique (snd (loadDevices legacy w)).
Proof.
  intros Hu; unfold loadDevices.
  destruct (db w); [exact Hu|].
  assert (Ho : tableUnique (openDb w)).
  { intros t; unfold openDb; simpl.
    destruct (table w) as [t0|] eqn:Ht; intros [= <-]; auto. }
  unfold migrateLegacyConfig.
  destruct (connect (openDb w)) as [t|] eqn:Hc; [|exact Ho].
  pose proof (Ho t (connect_table _ Hc)) as Ht.
  destruct (0 <? length t); [exact Ho|].
  destruct legacy as [| |entries].
  - now apply insertExample_unique.
  - now apply insertExample_unique.
  - pose proof (insertAll_unique entries t Ht) as Hall.
    destruct (insertAll entries t) as [t' [e|]]; simpl in Hall.
    + now apply insertExample_unique.
    + now apply tableUnique_withTable.
Qed.

(** In the SQLite manager no sequence of bootstrap, add, remove and
    update produces two records with the same name up to letter case. *)
Lemma sqlite_names_stay_unique
      (legacy : ConfigFile) (ops : list Op) (w : World) :
  tableUnique w ->
  tableUnique (run ops (snd (loadDevices legacy w))).
Proof. intros Hu; apply run_unique, loadDevices_unique, Hu. Qed.

End SqliteUniqueness.

(* ================================================================== *)
(** * Adding devices *)
(* ================================================================== *)

Section AddDevice.
Import Words Samples.

Lemma json_add_new (d : Device) (s : JsonDeviceManager.State) :
  JsonDeviceManager.getDevice (name d) s = None ->
  exists s1,
    JsonDeviceManager.addDevice d s = (Returned tt, s1) /\
    JsonDeviceManager.devices s1 = JsonDeviceManager.devices s ++ [d].
Proof.
  intros H; unfold JsonDeviceManager.addDevice; rewrite H.
  eexists; split; reflexivity.
Qed.

Lemma json_add_existing (d : Device) (s : JsonDeviceManager.State) :
  JsonDeviceManager.getDevice (name d) s <> None ->
  JsonDeviceManager.addDevice d s = (Threw (alreadyExists (name d)), s).
Proof.
  intros H; unfold JsonDeviceManager.addDevice.
  destruct (JsonDeviceManager.getDevice (name d) s);
    [reflexivity | contradiction].
Qed.

Lemma sqlite_getDevice_none (n : string) (w : SqliteDeviceManager.World) :
  fst (SqliteDeviceManager.getDevice n w) = Returned None ->
  exists t,
    SqliteDeviceManager.connect w = Returned t /\
    SqliteDeviceManager.table w = Some t /\
    SqliteDeviceManager.selectByName n t = None.
Proof.
  unfold SqliteDeviceManager.getDevice.
  destruct (SqliteDeviceManager.connect w) as [t|] eqn:Hc;
    simpl; [|discriminate].
  destruct (SqliteDeviceManager.selectByName n t) eqn:Hs;
    simpl; [discriminate|].
  intros _; exists t; repeat split; auto.
  now apply connect_table.
Qed.

(** C6: when [A] and [B] have the same name up to letter case and no
    record of that name is stored, [add(A)] succeeds and appends [A],
    and [add(B)] then fails with "Device '...' already exists" and
    leaves the stored collection as it was; in the JSON-file manager and
    in the SQLite manager alike. *)
Theorem C6_duplicate_add_rejected
        (A B : Device)
        (s : JsonDeviceManager.State) (w : SqliteDeviceManager.World) :
  Case.sameName (name A) (name B) = true ->
  (JsonDeviceManager.getDevice (name A) s = None ->
   exists s1,
     JsonDeviceManager.addDevice A s = (Returned tt, s1) /\
     JsonDeviceManager.devices s1 = JsonDeviceManager.devices s ++ [A] /\
     JsonDeviceManager.addDevice B s1
     = (Threw (alreadyExists (name B)), s1)) /\
  (fst (SqliteDeviceManager.getDevice (name A) w) = Returned None ->
   exists t w1,
     SqliteDeviceManager.table w = Some t /\
     SqliteDeviceManager.addDevice A w = (Returned tt, w1) /\
     SqliteDeviceManager.table w1 = Some (t ++ [A]) /\
     SqliteDeviceManager.addDevice B w1
     = (Threw (alreadyExists (name B)), w1)).
Proof.
  intros Hsame; split.
  - intros Hnew.
    destruct (json_add_new A s Hnew) as (s1 & Hadd & Hdev).
    exists s1; repeat split; auto.
    apply json_add_existing.
    unfold JsonDeviceManager.getDevice in *; rewrite Hdev.
    rewrite <- (find_named_same _ _ _ Hsame).
    rewrite (find_snoc_new _ _ _ Hnew); [discriminate|].
    apply sameName_refl.
  - intros Hnew.
    destruct (sqlite_getDevice_none _ _ Hnew) as (t & Hc & Ht & Hs).
    exists t, (SqliteDeviceManager.withTable (t ++ [A]) w).
    assert (Hdb : SqliteDeviceManager.db w = true).
    { unfold SqliteDeviceManager.connect, SqliteDeviceManager.ensureDb in Hc.
      destruct (SqliteDeviceManager.db w); [reflexivity | discriminate]. }
    repeat split; auto.
    + unfold SqliteDeviceManager.addDevice, SqliteDeviceManager.sqlInsert.
      rewrite Hc, Hs.
      unfold SqliteDeviceManager.selectByName in Hs.
      apply find_none_existsb in Hs; now rewrite Hs.
    + unfold SqliteDeviceManager.addDevice, SqliteDeviceManager.connect,
        SqliteDeviceManager.ensureDb; simpl; rewrite Hdb.
      unfold SqliteDeviceManager.selectByName in *.
      rewrite <- (find_named_same _ _ _ Hsame).
      rewrite (find_snoc_new _ _ _ Hs); [reflexivity|].
      apply sameName_refl.
Qed.

Lemma C6_duplicate_add_rejected_witness :
  Case.sameName (name nas) (name nasUpper) = true /\
  JsonDeviceManager.getDevice (name nas) (jsonHolding [alpha]) = None /\
  fst (SqliteDeviceManager.getDevice (name nas) (sqliteHolding [alpha]))
  = Returned None /\
  (exists s1,
      JsonDeviceManager.addDevice nas (jsonHolding [alpha])
      = (Returned tt, s1) /\
      JsonDeviceManager.addDevice nasUpper s1
      = (Threw "Device 'NAS' already exists", s1)) /\
  (exists w1,
      SqliteDeviceManager.addDevice nas (sqliteHolding [alpha])
      = (Returned tt, w1) /\
      SqliteDeviceManager.addDevice nasUpper w1
      = (Threw "Device 'NAS' already exists", w1)).
Proof.
  assert (H1 : Case.sameName (name nas) (name nasUpper) = true)
    by reflexivity.
  assert (H2 : JsonDeviceManager.getDevice (name nas) (jsonHolding [alpha])
               = None) by reflexivity.
  assert (H3 : fst (SqliteDeviceManager.getDevice
                      (name nas) (sqliteHolding [alpha])) = Returned None)
    by reflexivity.
  destruct (C6_duplicate_add_rejected
              nas nasUpper (jsonHolding [alpha]) (sqliteHolding [alpha]) H1)
    as [Hjson Hsql].
  repeat split; auto.
  - destruct (Hjson H2) as (s1 & Ha & _ & Hb); exists s1; auto.
  - destruct (Hsql H3) as (t & w1 & _ & Ha & _ & Hb); exists w1; auto.
Defined.

End AddDevice.

(* ================================================================== *)
(** * Uniqueness of names in the JSON-file manager *)
(* ================================================================== *)

Section JsonUniqueness.
Import JsonDeviceManager Words Samples.

Lemma json_add_unique (d : Device) (s : State) :
  uniqueNames (devices s) = true ->
  uniqueNames (devices (snd (addDevice d s))) = true.
Proof.
  intros Hu; unfold addDevice.
  destruct (getDevice (name d) s) eqn:Hg; simpl; [exact Hu|].
  unfold getDevice in Hg; apply find_none_existsb in Hg.
  now rewrite uniqueNames_snoc, Hu, Hg.
Qed.

Lemma removeFirst_existsb (n m : string) (l l' : list Device) :
  removeFirst n l = Some l' ->
  existsb (named m) l = false -> existsb (named m) l' = false.
Proof.
  revert l'; induction l as [|e rest IH]; intros l'; simpl; [discriminate|].
  intros Hr He; apply orb_false_iff in He; destruct He as [He Hrest].
  destruct (named n e); [now injection Hr as <-|].
  destruct (removeFirst n rest) as [rest'|]; [|discriminate].
  injection Hr as <-; simpl; rewrite He; simpl; now apply IH.
Qed.

Lemma json_remove_unique (n : string) (s : State) :
  uniqueNames (devices s) = true ->
  uniqueNames (devices (snd (removeDevice n s))) = true.
Proof.
  unfold removeDevice.
  destruct (removeFirst n (devices s)) as [l'|] eqn:Hr; simpl; auto.
  revert l' Hr; induction (devices s) as [|e rest IH]; intros l' Hr Hu;
    simpl in *; [discriminate|].
  apply andb_true_iff in Hu; destruct Hu as [He Hrest].
  destruct (named n e); [now injection Hr as <-|].
  destruct (removeFirst n rest) as [rest'|] eqn:Hrest'; [|discriminate].
  injection Hr as <-; simpl.
  rewrite (IH rest' eq_refl Hrest), andb_true_r.
  apply negb_true_iff in He; apply negb_true_iff.
  eapply removeFirst_existsb; eauto.
Qed.

(** C3 fails in the JSON-file manager: [updateDevice] assigns the new
    name without looking for another holder of it, so renaming "alpha"
    to "Bravo" next to "bravo" returns true and leaves two records whose
    names are equal up to letter case. *)
Theorem C3_json_rename_duplicates_name :
  uniqueNames (devices (jsonHolding [alpha; bravo])) = true /\
  updateDevice "alpha" (rename "Bravo") (jsonHolding [alpha; bravo])
  = (Returned true,
     jsonHolding
       [ {| name := "Bravo"; mac := mac alpha; ip := ip alpha;
            broadcast := broadcast alpha |};
         bravo ]) /\
  uniqueNames
    (devices (run [Update "alpha" (rename "Bravo")]
                  (jsonHolding [alpha; bravo]))) = false.
Proof. repeat split; reflexivity. Qed.

End JsonUniqueness.

(* ================================================================== *)
(** * Updating devices *)
(* ================================================================== *)

Section UpdateDevice.
Import Words Samples.

(** Fields the update does not supply keep their values. *)
Lemma applyUpdates_absent (u : Updates) (d : Device) :
  (uname u = None -> name (applyUpdates u d) = name d) /\
  (umac u = None -> mac (applyUpdates u d) = mac d) /\
  (uip u = None -> ip (applyUpdates u d) = ip d) /\
  (ubroadcast u = None -> broadcast (applyUpdates u d) = broadcast d).
Proof. repeat split; intros H; simpl; now rewrite H. Qed.

(** Fields the update supplies take the supplied values. *)
Lemma applyUpdates_supplied (u : Updates) (d : Device) :
  (forall v, uname u = Some v -> name (applyUpdates u d) = v) /\
  (forall v, umac u = Some v -> mac (applyUpdates u d) = v) /\
  (forall v, uip u = Some v -> ip (applyUpdates u d) = v) /\
  (forall v, ubroadcast u = Some v -> broadcast (applyUpdates u d) = v).
Proof. repeat split; intros v H; simpl; now rewrite H. Qed.

Lemma applyUpdates_nothing (d : Device) : applyUpdates noUpdates d = d.
Proof. destruct d; reflexivity. Qed.

Lemma json_update_missing (n : string) (u : Updates)
      (s : JsonDeviceManager.State) :
  JsonDeviceManager.getDevice n s = None ->
  JsonDeviceManager.updateDevice n u s = (Returned false, s).
Proof.
  intros H; unfold JsonDeviceManager.updateDevice; now rewrite H.
Qed.

(** The JSON-file manager never rejects an update. *)
Lemma json_update_never_throws (n : string) (u : Updates)
      (s : JsonDeviceManager.State) :
  exists found, fst (JsonDeviceManager.updateDevice n u s) = Returned found.
Proof.
  unfold JsonDeviceManager.updateDevice.
  destruct (JsonDeviceManager.getDevice n s); eexists; reflexivity.
Qed.

Lemma sqlite_update_missing (n : string) (u : Updates)
      (w : SqliteDeviceManager.World) :
  fst (SqliteDeviceManager.getDevice n w) = Returned None ->
  SqliteDeviceManager.updateDevice n u w = (Returned false, w).
Proof.
  intros H; destruct (sqlite_getDevice_none _ _ H) as (t & Hc & _ & Hs).
  unfold SqliteDeviceManager.updateDevice; now rewrite Hc, Hs.
Qed.

(** An update without fields changes nothing and reports the record found. *)
Lemma sqlite_update_nothing (n : string) (t : list Device) (d : Device) :
  SqliteDeviceManager.selectByName n t = Some d ->
  SqliteDeviceManager.updateDevice n noUpdates (sqliteHolding t)
  = (Returned true, sqliteHolding t).
Proof.
  intros H; unfold SqliteDeviceManager.updateDevice; simpl.
  now rewrite H.
Qed.

(** The SQLite manager answers "already exists" as soon as the record
    is there, the update carries a non-empty name that differs as a
    string from the name asked for, and some record, possibly the very
    record being updated, answers to the new name. *)
Lemma sqlite_update_rejects (n v : string) (u : Updates)
      (t : list Device) (d e : Device) :
  SqliteDeviceManager.selectByName n t = Some d ->
  SqliteDeviceManager.renames n u = Some v ->
  SqliteDeviceManager.selectByName v t = Some e ->
  SqliteDeviceManager.updateDevice n u (sqliteHolding t)
  = (Threw (alreadyExists v), sqliteHolding t).
Proof.
  intros Hd Hr He; unfold SqliteDeviceManager.updateDevice; simpl.
  now rewrite Hd, Hr, He.
Qed.

(** A rename to a name nobody answers to goes through. *)
Lemma sqlite_update_renames (n v : string) (t : list Device) (d : Device) :
  SqliteDeviceManager.selectByName n t = Some d ->
  SqliteDeviceManager.renames n (rename v) = Some v ->
  SqliteDeviceManager.selectByName v t = None ->
  uniqueNames
    (map (fun x => if named n x then applyUpdates (rename v) x else x) t)
  = true ->
  exists changes,
    SqliteDeviceManager.updateDevice n (rename v) (sqliteHolding t)
    = (Returned (0 <? changes),
       sqliteHolding
         (map (fun x => if named n x then applyUpdates (rename v) x else x)
              t)).
Proof.
  intros Hd Hr He Hu; unfold SqliteDeviceManager.updateDevice; simpl.
  rewrite Hd, Hr, He; unfold SqliteDeviceManager.sqlUpdate; rewrite Hu.
  eexists; reflexivity.
Qed.

(** C7 fails on a rename that changes letter case only: the SQLite
    manager compares the new name with the old one as strings, so "nas"
    renamed to "NAS" is looked up, found (it is the record itself, the
    only one answering to "NAS") and rejected as already existing.  The
    JSON-file manager never rejects: renaming "alpha" to "Bravo" next to
    "bravo" returns true. *)
Theorem C7_case_only_rename_rejected :
  filter (named "NAS") [nas; alpha] = [nas] /\
  SqliteDeviceManager.selectByName "nas" [nas; alpha] = Some nas /\
  SqliteDeviceManager.updateDevice "nas" (rename "NAS")
                                   (sqliteHolding [nas; alpha])
  = (Threw "Device 'NAS' already exists", sqliteHolding [nas; alpha]) /\
  filter (named "Bravo") [alpha; bravo] = [bravo] /\
  fst (JsonDeviceManager.updateDevice "alpha" (rename "Bravo")
                                      (jsonHolding [alpha; bravo]))
  = Returned true.
Proof. repeat split; reflexivity. Qed.

End UpdateDevice.

(* ================================================================== *)
(** * Listing devices *)
(* ================================================================== *)

Section ListDevices.
Import Words Samples.

(** C8, as written, fails in the JSON-file manager: after adding "bravo"
    and then "alpha" the list comes back in that order. *)
Lemma C8_json_list_in_insertion_order :
  fst (JsonDeviceManager.getDevices
         (JsonDeviceManager.run [Add bravo; Add alpha] (jsonHolding [])))
  = [bravo; alpha] /\
  ~ sortedByName
      (fst (JsonDeviceManager.getDevices
              (JsonDeviceManager.run [Add bravo; Add alpha]
                                     (jsonHolding [])))).
Proof.
  split; [reflexivity|].
  change (~ sortedByName [bravo; alpha]).
  intros H; inversion H as [|? ? _ Hhd]; subst.
  inversion Hhd as [|? ? Hle]; subst.
  vm_compute in Hle; discriminate.
Qed.

(** C8, amended: after the bootstrap and every sequence of add, remove
    and update, the SQLite manager's [getDevices] returns all rows of the
    table in ascending order of name, letter case ignored, and leaves
    the world as it was; the JSON-file manager's [getDevices] returns the
    devices in stored order and leaves the state as it was. *)
Theorem C8_list_sorted_in_sqlite_and_pure
        (legacy : ConfigFile) (stored : option (list Device))
        (ops : list Op) (s : JsonDeviceManager.State) :
  (exists t l,
      let w := SqliteDeviceManager.run ops
                 (snd (SqliteDeviceManager.loadDevices
                         legacy (SqliteDeviceManager.fresh stored))) in
      SqliteDeviceManager.table w = Some t /\
      SqliteDeviceManager.getDevices w = (Returned l, w) /\
      sortedByName l /\ Permutation l t) /\
  JsonDeviceManager.getDevices (JsonDeviceManager.run ops s)
  = (JsonDeviceManager.devices (JsonDeviceManager.run ops s),
     JsonDeviceManager.run ops s).
Proof.
  split; [|reflexivity].
  pose proof (run_opened ops (loadDevices_opened legacy stored)) as Ho.
  destruct (connect_opened Ho) as (t & Ht & Hc).
  exists t, (SqliteDeviceManager.selectOrdered t); cbv zeta.
  repeat split; auto.
  - unfold SqliteDeviceManager.getDevices.
    now rewrite Hc, map_normalizeDevice.
  - apply selectOrdered_sorted.
  - apply selectOrdered_perm.
Qed.

End ListDevices.

(* ================================================================== *)
(** * The first-load bootstrap *)
(* ================================================================== *)

Section Bootstrap.
Import SqliteDeviceManager Words Samples.

(** C9, the code at the failing input: with the legacy list [nas, NAS]
    and an empty store, the first row stays in the table, the second
    breaks the UNIQUE constraint, a warning is logged and the example
    record is inserted on top.  The store then holds part of the legacy
    list and the example record: neither the migrated list nor the
    example record alone. *)
Lemma C9_repeated_legacy_name_half_imported :
  snd (loadDevices (Stored [nas; nasUpper]) (fresh None))
  = {| db := true; table := Some [nas; exampleDevice];
       warnings := [migrationWarning] |} /\
  table (snd (loadDevices (Stored [nas; nasUpper]) (fresh None)))
  <> Some [nas; nasUpper] /\
  table (snd (loadDevices (Stored [nas; nasUpper]) (fresh None)))
  <> Some [exampleDevice].
Proof. repeat split; discriminate. Qed.

(** On a first load with an empty store, a legacy list whose names are
    pairwise distinct up to letter case is inserted as it is and nothing
    else; an unreadable legacy file imports nothing, logs one warning and
    the example record is inserted; without a legacy file the example
    record is inserted.  A load against a store that holds rows, and a
    second load by the same manager, change nothing. *)
Lemma bootstrap_on_distinct_names
      (entries t : list Device) (legacy : ConfigFile)
      (stored : option Table) (w : World) :
  emptyStore stored ->
  uniqueNames entries = true ->
  t <> [] ->
  db w = true ->
  loadDevices (Stored entries) (fresh stored)
  = (Returned tt, {| db := true; table := Some entries; warnings := [] |}) /\
  loadDevices Unreadable (fresh stored)
  = (Returned tt, {| db := true; table := Some [exampleDevice];
                     warnings := [migrationWarning] |}) /\
  loadDevices Missing (fresh stored)
  = (Returned tt, {| db := true; table := Some [exampleDevice];
                     warnings := [] |}) /\
  loadDevices legacy (fresh (Some t))
  = (Returned tt, {| db := true; table := Some t; warnings := [] |}) /\
  loadDevices legacy w = (Returned tt, w).
Proof.
  intros Hempty Hu Ht Hdb.
  assert (Hopen : openDb (fresh stored)
                  = {| db := true; table := Some []; warnings := [] |})
    by (destruct Hempty; subst; reflexivity).
  unfold loadDevices at 1 2 3; simpl db; cbv iota; rewrite Hopen.
  repeat split.
  - unfold migrateLegacyConfig; simpl.
    now rewrite (insertAll_fresh entries [] Hu).
  - destruct t as [|d rest]; [contradiction | reflexivity].
  - unfold loadDevices; now rewrite Hdb.
Qed.

(** An empty legacy list leaves the store empty, so the next manager to
    load it runs the migration again. *)
Example bootstrap_empty_legacy_list :
  snd (loadDevices (Stored []) (fresh None))
  = {| db := true; table := Some []; warnings := [] |} /\
  table (snd (loadDevices Missing (fresh (Some []))))
  = Some [exampleDevice].
Proof. split; reflexivity. Qed.

End Bootstrap.

(* ================================================================== *)
(** * loadDevices step by step *)
(* ================================================================== *)

Section LoadInFlight.
Import SqliteDeviceManager SqliteInFlight Words Samples.

Lemma loadRun_finished (legacy : ConfigFile) (k : nat)
      (result : Outcome unit) (w : World) :
  loadRun legacy k (Finished result) w = (Finished result, w).
Proof. induction k as [|k IH]; simpl; auto. Qed.

Lemma openDb_steps (w : World) : createTable (openFile w) = openDb w.
Proof. reflexivity. Qed.

Lemma withTable_same (t : Table) (w : World) :
  table w = Some t -> withTable t w = w.
Proof. destruct w; simpl; intros ->; reflexivity. Qed.

Lemma seeding_run (legacy : ConfigFile) (k : nat) (t : Table) (w : World) :
  db w = true -> table w = Some t ->
  loadRun legacy (S k) Seeding w
  = (Finished (fst (insertExample t w)), snd (insertExample t w)).
Proof.
  intros Hdb Ht; cbn [loadRun loadNext].
  unfold connect, ensureDb; rewrite Hdb, Ht.
  destruct (insertExample t w) as [r w']; apply loadRun_finished.
Qed.

(** The loop of the migration, run to its end, is [insertAll] followed
    by the example record when an INSERT failed. *)
Lemma importing_run (legacy : ConfigFile) (entries : list Device) :
  forall k t w,
    db w = true -> table w = Some t ->
    length entries + 2 <= k ->
    loadRun legacy k (Importing entries) w
    = match insertAll entries t with
      | (t', None) => (Finished (Returned tt), withTable t' w)
      | (t', Some _) =>
          (Finished (fst (insertExample t' (warn migrationWarning w))),
           snd (insertExample t' (warn migrationWarning w)))
      end.
Proof.
  induction entries as [|d rest IH]; intros k t w Hdb Ht Hk.
  - destruct k as [|k]; [simpl in Hk; lia|].
    cbn [loadRun loadNext insertAll].
    now rewrite loadRun_finished, (withTable_same w Ht).
  - destruct k as [|k]; [simpl in Hk; lia|].
    cbn [loadRun loadNext insertAll].
    unfold connect, ensureDb; rewrite Hdb, Ht.
    destruct (sqlInsert d t) as [t'|e] eqn:Hins.
    + rewrite (IH k t' (withTable t' w) Hdb eq_refl) by (simpl in Hk; lia).
      destruct (insertAll rest t') as [t'' [e|]]; reflexivity.
    + destruct k as [|k]; [simpl in Hk; lia|].
      now apply seeding_run.
Qed.

(** Run through all its steps, [loadDevices] ends as the method run in
    one go does. *)
Lemma loadRun_loadDevices (legacy : ConfigFile) (w : World) :
  loadRun legacy (loadSteps legacy) (loadStart w) w
  = (Finished (fst (loadDevices legacy w)), snd (loadDevices legacy w)).
Proof.
  unfold loadStart, loadDevices.
  destruct (db w) eqn:Hdb; [apply loadRun_finished|].
  assert (Hsteps : exists k, loadSteps legacy = S (S (S (S k)))
                             /\ (forall entries, legacy = Stored entries ->
                                                 length entries + 2 <= S k)).
  { destruct legacy as [| |entries].
    - exists 1; split; [reflexivity | discriminate].
    - exists 1; split; [reflexivity | discriminate].
    - exists (S (length entries)); split; [reflexivity|].
      intros es Hes; injection Hes as <-; lia. }
  destruct Hsteps as (k & -> & Hk).
  cbn [loadRun loadNext]; rewrite openDb_steps.
  assert (Hopen : db (openDb w) = true) by reflexivity.
  destruct (table (openDb w)) as [t|] eqn:Ht;
    [|unfold openDb in Ht; simpl in Ht; destruct (table w); discriminate].
  unfold migrateLegacyConfig, connect, ensureDb.
  cbn [loadRun loadNext]; unfold connect, ensureDb.
  rewrite Hopen, Ht.
  destruct (0 <? length t); [apply loadRun_finished|].
  destruct legacy as [| |entries].
  - now apply seeding_run.
  - now apply seeding_run.
  - transitivity (loadRun (Stored entries) (S k) (Importing entries)
                          (openDb w)); [reflexivity|].
    rewrite (@importing_run (Stored entries) entries (S k) t (openDb w));
      auto.
    destruct (insertAll entries t) as [t' [e|]]; reflexivity.
Qed.

Lemma loadNext_db (legacy : ConfigFile) (p : LoadPoint) (w : World) :
  p = Opening \/ db w = true ->
  db (snd (loadNext legacy p w)) = true.
Proof.
  intros H; destruct p as [| | |[|d rest]| |r]; simpl;
    try reflexivity;
    destruct H as [H|H]; try discriminate; try exact H;
    unfold connect, ensureDb; rewrite H;
    destruct (table w) as [t|]; simpl; try exact H.
  - destruct (0 <? length t); [exact H|].
    destruct legacy; simpl; exact H.
  - destruct (sqlInsert d t); simpl; exact H.
  - unfold insertExample; destruct (sqlInsert exampleDevice t); simpl; exact H.
Qed.

Lemma loadRun_db (legacy : ConfigFile) (k : nat) :
  forall p w, db w = true -> db (snd (loadRun legacy k p w)) = true.
Proof.
  induction k as [|k IH]; intros p w H; [exact H|].
  cbn [loadRun].
  pose proof (@loadNext_db legacy p w (or_intror H)) as Hn.
  destruct (loadNext legacy p w) as [p' w']; now apply IH.
Qed.

(** [this.db] is null at the start of a load and set from its first
    step on. *)
Lemma loadRun_opened (legacy : ConfigFile) (stored : option Table) (k : nat) :
  db (snd (loadRun legacy k Opening (fresh stored))) = false <-> k = 0.
Proof.
  destruct k as [|k]; [split; reflexivity|].
  cbn [loadRun loadNext].
  rewrite loadRun_db by reflexivity.
  split; discriminate.
Qed.

End LoadInFlight.

(* ================================================================== *)
(** * Operations before loadDevices *)
(* ================================================================== *)

Section Uninitialized.
Import SqliteDeviceManager SqliteInFlight Words Samples.

Lemma connect_closed (w : World) :
  db w = false -> connect w = Threw notInitialized.
Proof. intros H; unfold connect, ensureDb; now rewrite H. Qed.

(** Until [loadDevices] runs, nothing a caller does opens the database. *)
Lemma run_closed (ops : list Op) :
  forall w, db w = false -> run ops w = w.
Proof.
  induction ops as [|o rest IH]; intros w H; [reflexivity|].
  assert (Hs : step w o = w).
  { destruct o; simpl;
      [unfold addDevice | unfold removeDevice | unfold updateDevice];
      now rewrite (connect_closed w H). }
  simpl; rewrite Hs; now apply IH.
Qed.

Lemma alreadyExists_other (A : Type) (n : string) :
  (Threw (alreadyExists n) : Outcome A) <> Threw notInitialized.
Proof. unfold alreadyExists, notInitialized; simpl; discriminate. Qed.

(** C10, as written, fails while a load is in flight: two steps into
    [loadDevices] on a new database file the handle is assigned and the
    table created, the load has not finished (the example record is not
    there yet), and [getDevice], [getDevices] and [removeDevice] answer
    with an absent, empty or false value instead of throwing. *)
Lemma C10_operations_during_load_answer :
  loadRun Missing 2 (loadStart (fresh None)) (fresh None)
  = (Counting, openDb (fresh None)) /\
  snd (loadDevices Missing (fresh None)) <> openDb (fresh None) /\
  getDevice "example-device" (openDb (fresh None))
  = (Returned None, openDb (fresh None)) /\
  getDevices (openDb (fresh None)) = (Returned [], openDb (fresh None)) /\
  removeDevice "example-device" (openDb (fresh None))
  = (Returned false, openDb (fresh None)).
Proof. repeat split; discriminate. Qed.

(** C10, amended: in the SQLite manager, each of [getDevices],
    [getDevice], [addDevice], [removeDevice] and [updateDevice] called
    while [this.db] is null, that is before [loadDevices] has
    opened the database, throws "Device manager not initialized. Call
    loadDevices() first." and leaves everything as it was, instead of
    answering with an absent or false value.  Once [this.db] is set none
    of them throws that error; and [this.db] is null before the first
    step of a load and set after it, whether or not the load has
    finished. *)
Theorem C10_initialization_error_until_opened
        (w : World) (n : string) (d : Device) (u : Updates) :
  (db w = false ->
   getDevices w = (Threw notInitialized, w) /\
   getDevice n w = (Threw notInitialized, w) /\
   addDevice d w = (Threw notInitialized, w) /\
   removeDevice n w = (Threw notInitialized, w) /\
   updateDevice n u w = (Threw notInitialized, w)) /\
  (db w = true ->
   fst (getDevices w) <> Threw notInitialized /\
   fst (getDevice n w) <> Threw notInitialized /\
   fst (addDevice d w) <> Threw notInitialized /\
   fst (removeDevice n w) <> Threw notInitialized /\
   fst (updateDevice n u w) <> Threw notInitialized) /\
  (forall legacy stored k,
      db (snd (loadRun legacy k (loadStart (fresh stored)) (fresh stored)))
      = false <-> k = 0) /\
  notInitialized
  = ("Device manager not initialized" ++ ". Call loadDevices() first.")%string.
Proof.
  split; [|split; [|split; [|reflexivity]]].
  - intros H; pose proof (connect_closed w H) as Hc.
    unfold getDevices, getDevice, addDevice, removeDevice, updateDevice.
    rewrite Hc; repeat split; reflexivity.
  - intros H.
    assert (Hc : connect w = Threw noSuchTable \/ exists t, connect w = Returned t).
    { unfold connect, ensureDb; rewrite H.
      destruct (table w) as [t|]; [right; now exists t | now left]. }
    unfold getDevices, getDevice, addDevice, removeDevice, updateDevice.
    destruct Hc as [->|(t & ->)]; [repeat split; discriminate|].
    repeat split; try discriminate.
    + destruct (selectByName (name d) t); simpl.
      * apply alreadyExists_other.
      * unfold sqlInsert; destruct (existsb _ t); simpl; discriminate.
    + destruct (selectByName n t); [|simpl; discriminate].
      assert (Hw : fst (if noFields u then (Returned true, w)
                        else match sqlUpdate u n t with
                             | Threw e => (Threw e, w)
                             | Returned (t', changes) =>
                                 (Returned (0 <? changes), withTable t' w)
                             end) <> Threw notInitialized).
      { destruct (noFields u); [simpl; discriminate|].
        unfold sqlUpdate; destruct (uniqueNames _); simpl; discriminate. }
      destruct (renames n u) as [v|]; [|exact Hw].
      destruct (selectByName v t); [|exact Hw].
      apply alreadyExists_other.
  - intros legacy stored k; apply loadRun_opened.
Qed.

End Uninitialized.

(* ================================================================== *)
(** * More about isValidMac *)
(* ================================================================== *)

Section ValidMacShape.
Import Regex WakeOnLan WakeOnLanService Words Notions.

Lemma chars_length (s : string) : length (chars s) = String.length s.
Proof. induction s as [|c s IH]; simpl; [reflexivity | now rewrite IH]. Qed.

Lemma hexPair_shape (g : list ascii) :
  hexPair g -> length g = 2 /\ Forall (fun c => macChar c = true) g.
Proof.
  intros (a & b & -> & Ha & Hb); split; [reflexivity|].
  unfold macChar; repeat constructor; [now rewrite Ha | now rewrite Hb].
Qed.

(** Length and alphabet of groups joined by separators. *)
Lemma joinWith_shape (groups : list (list ascii)) :
  forall seps,
    S (length seps) = length groups ->
    Forall hexPair groups ->
    Forall (fun p => isSeparator p = true) seps ->
    length (joinWith seps groups) = 2 * length groups + length seps /\
    Forall (fun c => macChar c = true) (joinWith seps groups).
Proof.
  induction groups as [|g rest IH]; intros seps Hlen Fg Fp; [discriminate|].
  inversion Fg as [|? ? Hg Frest]; subst.
  destruct (hexPair_shape Hg) as [Lg Cg].
  destruct rest as [|g1 rest'].
  - destruct seps; [|discriminate]. simpl; split; [lia | exact Cg].
  - destruct seps as [|p ps]; [discriminate|].
    inversion Fp as [|? ? Hp Fps]; subst.
    injection Hlen as Hlen.
    destruct (IH ps (f_equal S Hlen) Frest Fps) as [Hl Hc].
    change (joinWith (p :: ps) (g :: g1 :: rest'))
      with (g ++ p :: joinWith ps (g1 :: rest')).
    split.
    + rewrite length_app; cbn [length]; rewrite Hl, Lg; cbn [length]; lia.
    + apply Forall_app; split; [exact Cg|].
      constructor; [|exact Hc].
      unfold macChar; rewrite Hp; apply orb_true_r.
Qed.

(** X1: a string [isValidMac] accepts has exactly 17 characters, each of
    them a hexadecimal digit, [:] or [-]. *)
Theorem X1_valid_mac_has_17_chars (s : string) :
  isValidMac s = true ->
  String.length s = 17 /\ Forall (fun c => macChar c = true) (chars s).
Proof.
  intros H; apply isValidMac_sixGroups in H.
  destruct H as (groups & seps & Lg & Lp & Fg & Fp & Hs).
  destruct (@joinWith_shape groups seps) as [Hl Hc]; auto; [congruence|].
  rewrite <- chars_length, Hs; split; [rewrite Hl, Lg, Lp; reflexivity|].
  exact Hc.
Qed.

Lemma X1_valid_mac_has_17_chars_witness :
  isValidMac "a0:B1-c2:D3-e4:F5" = true /\
  String.length "a0:B1-c2:D3-e4:F5" = 17.
Proof.
  split; [reflexivity|].
  exact (proj1 (X1_valid_mac_has_17_chars "a0:B1-c2:D3-e4:F5" eq_refl)).
Defined.

(** Replacing every character by one that all classes of the regex treat
    alike does not change the match. *)
Lemma rematch_map (f : ascii -> ascii) (r : regex) :
  respects f r ->
  forall s k k',
    (forall t, k' (map f t) = k t) ->
    rematch r (map f s) k' = rematch r s k.
Proof.
  induction r as [ranges | r1 IH1 r2 IH2 | n r IH]; intros Hr s k k' Hk.
  - destruct s as [|c t]; simpl; [reflexivity|].
    simpl in Hr; now rewrite Hr, Hk.
  - destruct Hr as [H1 H2]; simpl.
    apply IH1; [exact H1|]. intros t; now apply IH2.
  - simpl in Hr. revert s.
    induction n as [|n IHn]; intros s.
    + simpl; apply Hk.
    + change (rematch (Repeat (S n) r) (map f s) k')
        with (rematch r (map f s) (fun t => rematch (Repeat n r) t k')).
      change (rematch (Repeat (S n) r) s k)
        with (rematch r s (fun t => rematch (Repeat n r) t k)).
      apply IH; [exact Hr|]. intros t; apply IHn.
Qed.

Lemma chars_toLowerCase (s : string) :
  chars (Case.toLowerCase s) = map Case.lowerChar (chars s).
Proof. induction s as [|c s IH]; simpl; [reflexivity | now rewrite IH]. Qed.

Lemma macRegex_respects_lowerChar : respects Case.lowerChar macRegex.
Proof.
  assert (Hh : forall c, inClass [("0", "9"); ("A", "F"); ("a", "f")]%char
                                 (Case.lowerChar c)
                         = inClass [("0", "9"); ("A", "F"); ("a", "f")]%char c)
    by (intros c; destruct c as [[] [] [] [] [] [] [] []]; reflexivity).
  assert (Hs : forall c, inClass [(":", ":"); ("-", "-")]%char
                                 (Case.lowerChar c)
                         = inClass [(":", ":"); ("-", "-")]%char c)
    by (intros c; destruct c as [[] [] [] [] [] [] [] []]; reflexivity).
  simpl; repeat split; assumption.
Qed.

(** X2: [isValidMac] does not look at letter case: a string and its
    lower-case form are accepted or rejected together. *)
Theorem X2_isValidMac_ignores_case (s : string) :
  isValidMac (Case.toLowerCase s) = isValidMac s.
Proof.
  unfold isValidMac, test.
  change (list_ascii_of_string (Case.toLowerCase s))
    with (chars (Case.toLowerCase s)).
  rewrite chars_toLowerCase.
  apply rematch_map; [apply macRegex_respects_lowerChar|].
  intros t; destruct t; reflexivity.
Qed.

End ValidMacShape.

(* ================================================================== *)
(** * More about the wake service *)
(* ================================================================== *)

Section WakeServiceMore.
Import WakeOnLan WakeOnLanService Words Notions Samples Cases.

(** X3: [wakeDevice(d)] makes the very library call [wake(d.mac,
    d.broadcast)] makes: the same datagrams leave, both promises settle
    the same way with the same [success] and [mac], and only the device
    name (and the wording of the message) differs. *)
Theorem X3_wakeDevice_sends_what_wake_sends (wol : WolLib) (d : Device) :
  fst (wakeDevice wol d) = fst (wake wol (mac d) (broadcast d)) /\
  match snd (wakeDevice wol d), snd (wake wol (mac d) (broadcast d)) with
  | Resolved byDevice, Resolved byMac =>
      success byDevice = success byMac /\
      wmac byDevice = wmac byMac /\
      device byDevice = name d /\ device byMac = "Unknown"
  | Rejected a, Rejected b => a = b
  | _, _ => False
  end.
Proof.
  rewrite wake_call, wakeDevice_call.
  destruct (libraryCall wol (mac d) (broadcast d)) as [sent [e|]|reason];
    simpl; auto.
Qed.

(** X4: when the library throws for one device and reports through its
    callback for all the others, [wakeMultiple] rejects with the thrown
    reason, in whatever order the sends complete: the results of the
    devices that did resolve are not returned. *)
Theorem X4_wakeMultiple_rejects_when_library_throws
        (wol : WolLib) (devices : list Device) (order : list nat)
        (i : nat) (d : Device) (reason : string) :
  nth_error devices i = Some d ->
  libraryCall wol (mac d) (broadcast d) = Thrown reason ->
  (forall j d', j <> i -> nth_error devices j = Some d' -> resolves wol d') ->
  Permutation order (seq 0 (length devices)) ->
  snd (wakeMultiple wol devices order) = Broken reason.
Proof.
  intros Hd Hthrown Hothers Hperm; unfold wakeMultiple; simpl snd.
  assert (Hi : In i order).
  { apply (Permutation_in _ (Permutation_sym Hperm)), in_seq.
    assert (i < length devices) by (apply nth_error_Some; congruence).
    lia. }
  assert (Hnodup : NoDup order)
    by (apply (Permutation_NoDup (Permutation_sym Hperm)), seq_NoDup).
  destruct (in_split _ _ Hi) as (pre & post & ->).
  apply promiseAll_first_rejection.
  - intros j Hj.
    assert (Hji : j <> i).
    { intros ->. apply NoDup_remove_2 in Hnodup.
      apply Hnodup, in_or_app; now left. }
    assert (Hjn : j < length devices).
    { assert (In j (seq 0 (length devices))) as Hin
        by (apply (Permutation_in _ Hperm), in_or_app; now left).
      apply in_seq in Hin; lia. }
    destruct (nth_error devices j) as [d'|] eqn:Hd';
      [|apply nth_error_None in Hd'; lia].
    destruct (wakeDevice_resolved (Hothers j d' Hji Hd')) as (r & Hr).
    exists r; now rewrite nth_error_map, Hd', <- Hr.
  - rewrite nth_error_map, Hd; simpl.
    now rewrite (wakeDevice_thrown wol d Hthrown).
Qed.

Lemma X4_wakeMultiple_rejects_when_library_throws_witness :
  nth_error threeDevices 1
  = Some {| name := "desk"; mac := "66-77-88-99-AA-BB"; ip := None;
            broadcast := Some "10.0.0.255" |} /\
  Permutation [2; 1; 0] (seq 0 (length threeDevices)) /\
  snd (wakeMultiple throwsOnHyphen threeDevices [2; 1; 0])
  = Broken "unsupported MAC notation".
Proof.
  assert (Hperm : Permutation [2; 1; 0] (seq 0 (length threeDevices))).
  { apply perm_trans with [1; 2; 0]; [apply perm_swap|].
    apply perm_trans with [1; 0; 2]; [apply perm_skip, perm_swap|].
    apply perm_swap. }
  split; [reflexivity|]. split; [exact Hperm|].
  apply (@X4_wakeMultiple_rejects_when_library_throws
           throwsOnHyphen threeDevices [2; 1; 0] 1
           {| name := "desk"; mac := "66-77-88-99-AA-BB"; ip := None;
              broadcast := Some "10.0.0.255" |}
           "unsupported MAC notation" eq_refl eq_refl); [|exact Hperm].
  intros j d' Hj Hd'.
  destruct j as [|[|[|j]]]; simpl in Hd'.
  - injection Hd' as <-; eexists; eexists; reflexivity.
  - now contradiction Hj.
  - injection Hd' as <-; eexists; eexists; reflexivity.
  - destruct j; discriminate.
Defined.

End WakeServiceMore.

(* ================================================================== *)
(** * More about the JSON-file device manager *)
(* ================================================================== *)

Section JsonManagerMore.
Import JsonDeviceManager Words Notions Samples.

(** X5: for names of ASCII characters, asked for and stored, looking a
    device up does not depend on the letter case of the name asked for,
    in either manager; what the JSON-file manager finds is a stored
    record answering to the name, and it finds nothing only when no
    stored record answers to it. *)
Theorem X5_lookup_ignores_case
        (a b : string) (s : State) (w : SqliteDeviceManager.World) :
  plain a = true -> plain b = true -> plainNames (devices s) = true ->
  Case.sameName a b = true ->
  getDevice a s = getDevice b s /\
  SqliteDeviceManager.getDevice a w = SqliteDeviceManager.getDevice b w /\
  (forall d, getDevice a s = Some d ->
             In d (devices s) /\ Case.sameName (name d) b = true) /\
  (getDevice a s = None ->
   forall d, In d (devices s) -> Case.sameName (name d) b = false).
Proof.
  intros _ _ _ Hab; unfold getDevice, SqliteDeviceManager.getDevice,
                      SqliteDeviceManager.selectByName.
  rewrite (find_named_same a b (devices s) Hab).
  repeat split.
  - destruct (SqliteDeviceManager.connect w) as [t|]; [|reflexivity].
    now rewrite (find_named_same a b t Hab).
  - apply find_some in H; tauto.
  - apply find_some in H; destruct H as [_ H]; exact H.
  - intros Hnone d Hd. exact (find_none _ _ Hnone d Hd).
Qed.

Lemma X5_lookup_ignores_case_witness :
  plain "Alpha" = true /\ plain "ALPHA" = true /\
  plainNames (devices (jsonHolding [alpha; bravo])) = true /\
  Case.sameName "Alpha" "ALPHA" = true /\
  getDevice "Alpha" (jsonHolding [alpha; bravo])
  = getDevice "ALPHA" (jsonHolding [alpha; bravo]).
Proof.
  repeat (split; [reflexivity|]).
  exact (proj1 (@X5_lookup_ignores_case
                  "Alpha" "ALPHA" (jsonHolding [alpha; bravo])
                  (sqliteHolding []) eq_refl eq_refl eq_refl eq_refl)).
Defined.

Lemma removeFirst_none (n : string) (l : list Device) :
  removeFirst n l = None <-> find (named n) l = None.
Proof.
  induction l as [|e rest IH]; simpl; [tauto|].
  destruct (named n e); [split; discriminate|].
  destruct (removeFirst n rest); split; intros H;
    try discriminate; try (apply IH in H; discriminate); auto.
  apply IH; reflexivity.
Qed.

Lemma removeFirst_some (n : string) (l l' : list Device) :
  removeFirst n l = Some l' ->
  exists before d after,
    l = before ++ d :: after /\ find (named n) l = Some d /\
    Forall (fun e => named n e = false) before /\ l' = before ++ after.
Proof.
  revert l'; induction l as [|e rest IH]; intros l'; simpl; [discriminate|].
  destruct (named n e) eqn:He.
  - intros [= <-]; exists [], e, rest; repeat split; auto.
  - destruct (removeFirst n rest) as [rest'|]; [|discriminate].
    intros [= <-].
    destruct (IH rest' eq_refl) as (before & d & after & -> & Hf & Hb & ->).
    exists (e :: before), d, after; repeat split; auto.
Qed.

(** X6: [removeDevice] never throws.  When no record answers to the name
    it returns false and changes nothing; otherwise it returns true,
    takes out the first record answering to the name and only that one,
    keeps the others in order, and writes the result to the file. *)
Theorem X6_json_remove_takes_first_match (n : string) (s : State) :
  (getDevice n s = None /\ removeDevice n s = (Returned false, s)) \/
  (exists before d after,
      devices s = before ++ d :: after /\
      getDevice n s = Some d /\
      Forall (fun e => named n e = false) before /\
      removeDevice n s
      = (Returned true,
         {| devices := before ++ after;
            configFile := Stored (before ++ after);
            warnings := warnings s |})).
Proof.
  unfold removeDevice, getDevice.
  destruct (removeFirst n (devices s)) as [l'|] eqn:Hr.
  - right. destruct (removeFirst_some _ _ Hr)
      as (before & d & after & Hl & Hf & Hb & ->).
    exists before, d, after; repeat split; auto.
  - left. apply removeFirst_none in Hr; auto.
Qed.

Lemma unique_no_later (before after : list Device) (d : Device) :
  uniqueNames (before ++ d :: after) = true ->
  existsb (named (name d)) after = false.
Proof.
  induction before as [|e rest IH]; simpl; intros H;
    apply andb_true_iff in H; destruct H as [H1 H2].
  - now apply negb_true_iff in H1.
  - auto.
Qed.

Lemma find_app_none (n : string) (l1 l2 : list Device) :
  Forall (fun e => named n e = false) l1 ->
  existsb (named n) l2 = false ->
  find (named n) (l1 ++ l2) = None.
Proof.
  intros H1 H2; induction H1 as [|e rest He _ IH]; simpl.
  - now apply find_none_existsb.
  - now rewrite He.
Qed.

(** X7: with names of ASCII characters, asked for and stored, and the
    stored names unique, a removed device is gone: looking the name up
    afterwards finds nothing. *)
Theorem X7_json_removed_device_not_found (n : string) (s : State) :
  plain n = true -> plainNames (devices s) = true ->
  uniqueNames (devices s) = true ->
  getDevice n (snd (removeDevice n s)) = None.
Proof.
  intros _ _ Hu; unfold removeDevice, getDevice.
  destruct (removeFirst n (devices s)) as [l'|] eqn:Hr;
    [|now apply removeFirst_none in Hr].
  destruct (removeFirst_some _ _ Hr)
    as (before & d & after & Hl & Hd & Hb & ->).
  simpl; apply find_app_none; [exact Hb|].
  rewrite Hl in Hu, Hd.
  apply find_some in Hd; destruct Hd as [_ Hd].
  pose proof (unique_no_later _ _ _ Hu) as Hlater.
  rewrite <- Hlater; clear - Hd.
  induction after as [|e rest IH]; simpl; [reflexivity|].
  rewrite IH; f_equal.
  apply named_same; unfold named in Hd.
  now rewrite sameName_sym.
Qed.

Lemma X7_json_removed_device_not_found_witness :
  plain "BRAVO" = true /\
  plainNames (devices (jsonHolding [alpha; bravo])) = true /\
  uniqueNames (devices (jsonHolding [alpha; bravo])) = true /\
  getDevice "BRAVO" (snd (removeDevice "BRAVO" (jsonHolding [alpha; bravo])))
  = None.
Proof.
  repeat (split; [reflexivity|]).
  exact (@X7_json_removed_device_not_found
           "BRAVO" (jsonHolding [alpha; bravo]) eq_refl eq_refl eq_refl).
Defined.

End JsonManagerMore.

Section JsonPersistence.
Import JsonDeviceManager Words Notions Samples.

Lemma loadDevices_inStep (file : ConfigFile) : inStep (loadDevices (boot file)).
Proof.
  destruct file as [| |entries]; unfold inStep; simpl; auto.
Qed.

Lemma step_inStep (s : State) (o : Op) : inStep s -> inStep (step s o).
Proof.
  intros H; destruct o as [d | n | n u]; simpl.
  - unfold addDevice; destruct (getDevice (name d) s); [exact H|].
    left; reflexivity.
  - unfold removeDevice; destruct (removeFirst n (devices s)); [|exact H].
    left; reflexivity.
  - unfold updateDevice; destruct (getDevice n s); [|exact H].
    left; reflexivity.
Qed.

Lemma run_inStep (ops : list Op) : forall s, inStep s -> inStep (run ops s).
Proof.
  induction ops as [|o rest IH]; intros s H; [exact H|].
  apply IH, step_inStep, H.
Qed.

(** X8: whatever [devices.json] held at start-up and whatever adds,
    removes and updates followed, a manager started afterwards on the file
    as it then is loads exactly the devices the first one held. *)
Theorem X8_json_restart_restores_devices (file : ConfigFile) (ops : list Op) :
  devices (loadDevices
             (boot (configFile (run ops (loadDevices (boot file))))))
  = devices (run ops (loadDevices (boot file))).
Proof.
  pose proof (run_inStep ops (loadDevices_inStep file)) as H.
  unfold loadDevices at 1; simpl configFile.
  destruct H as [H | [H1 H2]].
  - rewrite H; reflexivity.
  - rewrite H1, H2; reflexivity.
Qed.

Lemma find_assignFirst (n m : string) (u : Updates) (l : list Device) :
  uname u = None ->
  find (named m) (assignFirst n u l)
  = if Case.sameName m n then option_map (applyUpdates u) (find (named n) l)
    else find (named m) l.
Proof.
  intros Hu.
  assert (Hname : forall d, named m (applyUpdates u d) = named m d)
    by (intros d; unfold named; simpl; now rewrite Hu).
  induction l as [|e rest IH]; simpl.
  - now destruct (Case.sameName m n).
  - destruct (named n e) eqn:Hn; simpl.
    + rewrite Hname.
      destruct (Case.sameName m n) eqn:Hmn.
      * rewrite (named_same m n e Hmn), Hn; reflexivity.
      * destruct (named m e) eqn:Hm; [|reflexivity].
        exfalso. unfold named in Hn, Hm.
        rewrite sameName_sym in Hm.
        rewrite (sameName_trans _ _ _ Hm Hn) in Hmn; discriminate.
    + rewrite IH.
      destruct (Case.sameName m n) eqn:Hmn.
      * now rewrite (named_same m n e Hmn), Hn.
      * reflexivity.
Qed.

Lemma names_assignFirst (n : string) (u : Updates) (l : list Device) :
  uname u = None -> map name (assignFirst n u l) = map name l.
Proof.
  intros Hu; induction l as [|e rest IH]; simpl; [reflexivity|].
  destruct (named n e); simpl; [now rewrite Hu | now rewrite IH].
Qed.

(** X9: with names of ASCII characters, asked for and stored, an update
    that carries no name, on a device that exists, returns true;
    afterwards the name finds the old record with exactly the supplied
    fields replaced, every other name finds what it found before, and the
    names of the stored records are the same, in the same order. *)
Theorem X9_json_update_then_lookup
        (n m : string) (u : Updates) (d : Device) (s : State) :
  plain n = true -> plain m = true -> plainNames (devices s) = true ->
  uname u = None ->
  getDevice n s = Some d ->
  fst (updateDevice n u s) = Returned true /\
  getDevice n (snd (updateDevice n u s)) = Some (applyUpdates u d) /\
  (Case.sameName m n = false ->
   getDevice m (snd (updateDevice n u s)) = getDevice m s) /\
  map name (devices (snd (updateDevice n u s))) = map name (devices s).
Proof.
  intros _ _ _ Hu Hd; unfold updateDevice; rewrite Hd; simpl.
  unfold getDevice in *; simpl.
  repeat split.
  - now rewrite find_assignFirst, sameName_refl, Hd.
  - intros Hm; now rewrite find_assignFirst, Hm.
  - now apply names_assignFirst.
Qed.

Lemma X9_json_update_then_lookup_witness :
  plain "ALPHA" = true /\ plain "bravo" = true /\
  plainNames (devices (jsonHolding [alpha; bravo])) = true /\
  getDevice "ALPHA" (jsonHolding [alpha; bravo]) = Some alpha /\
  getDevice "ALPHA"
    (snd (updateDevice "ALPHA"
            {| uname := None; umac := None; uip := Some None;
               ubroadcast := Some (Some "10.0.0.255") |}
            (jsonHolding [alpha; bravo])))
  = Some {| name := "alpha"; mac := "0A:00:00:00:00:01"; ip := None;
            broadcast := Some "10.0.0.255" |}.
Proof.
  repeat (split; [reflexivity|]).
  exact (proj1 (proj2 (@X9_json_update_then_lookup
                         "ALPHA" "bravo"
                         {| uname := None; umac := None; uip := Some None;
                            ubroadcast := Some (Some "10.0.0.255") |}
                         alpha (jsonHolding [alpha; bravo])
                         eq_refl eq_refl eq_refl eq_refl eq_refl))).
Defined.

End JsonPersistence.

(* ================================================================== *)
(** * More about the SQLite device manager *)
(* ================================================================== *)

Section SqliteManagerMore.
Import SqliteDeviceManager Words Notions Samples.

Lemma connect_withTable (t : Table) (w : World) :
  db w = true -> connect (withTable t w) = Returned t.
Proof. intros H; unfold connect, ensureDb; simpl; now rewrite H. Qed.

Lemma connect_db (w : World) (t : Table) :
  connect w = Returned t -> db w = true.
Proof.
  unfold connect, ensureDb; destruct (db w); [reflexivity | discriminate].
Qed.

(** X10: a device that [addDevice] accepted is found afterwards under its
    name in any letter case, and is the last row of the table. *)
Theorem X10_sqlite_added_device_is_found
        (d : Device) (m : string) (w w' : World) :
  addDevice d w = (Returned tt, w') ->
  Case.sameName m (name d) = true ->
  getDevice m w' = (Returned (Some d), w') /\
  exists t, table w = Some t /\ table w' = Some (t ++ [d]).
Proof.
  unfold addDevice; intros Hadd Hm.
  destruct (connect w) as [t|] eqn:Hc; [|discriminate].
  destruct (selectByName (name d) t) eqn:Hs; [discriminate|].
  unfold sqlInsert in Hadd.
  destruct (existsb (named (name d)) t); [discriminate|].
  injection Hadd as <-.
  split; [|exists t; split; [now apply connect_table | reflexivity]].
  unfold getDevice; rewrite (connect_withTable _ _ (connect_db _ Hc)).
  unfold selectByName in *.
  rewrite (find_named_same m (name d) _ Hm).
  rewrite (find_snoc_new _ _ _ Hs (sameName_refl _)); simpl.
  now rewrite normalizeDevice_id.
Qed.

Lemma X10_sqlite_added_device_is_found_witness :
  addDevice nas (sqliteHolding [alpha])
  = (Returned tt, sqliteHolding [alpha; nas]) /\
  Case.sameName "NaS" (name nas) = true /\
  getDevice "NaS" (sqliteHolding [alpha; nas])
  = (Returned (Some nas), sqliteHolding [alpha; nas]).
Proof.
  split; [reflexivity|]. split; [reflexivity|].
  exact (proj1 (@X10_sqlite_added_device_is_found
                  nas "NaS" (sqliteHolding [alpha])
                  (sqliteHolding [alpha; nas]) eq_refl eq_refl)).
Defined.

Lemma filter_named_length (n : string) (t : Table) :
  (0 <? length (filter (named n) t)) = existsb (named n) t.
Proof.
  induction t as [|e rest IH]; simpl; [reflexivity|].
  destruct (named n e); simpl; [reflexivity | exact IH].
Qed.

Lemma existsb_filter_out (n m : string) (t : Table) :
  Case.sameName m n = true ->
  existsb (named m) (filter (fun d => negb (named n d)) t) = false.
Proof.
  intros Hm; induction t as [|e rest IH]; simpl; [reflexivity|].
  destruct (named n e) eqn:He; simpl; [exact IH|].
  now rewrite (named_same m n e Hm), He.
Qed.

(** X11: once the database is open [removeDevice] never throws.  It
    returns true exactly when some row answers to the name, deletes every
    such row and no other, after which the name is not found in any
    letter case and a second removal returns false and changes nothing. *)
Theorem X11_sqlite_remove_then_gone (n m : string) (w : World) (t : Table) :
  connect w = Returned t ->
  Case.sameName m n = true ->
  let w' := withTable (filter (fun d => negb (named n d)) t) w in
  removeDevice n w = (Returned (existsb (named n) t), w') /\
  getDevice m w' = (Returned None, w') /\
  removeDevice m w' = (Returned false, w').
Proof.
  intros Hc Hm w'; pose proof (connect_db _ Hc) as Hdb.
  assert (Hgone : forall l, filter (named m) (filter (fun d => negb (named n d)) l)
                            = []).
  { intros l; induction l as [|e rest IH]; simpl; [reflexivity|].
    destruct (named n e) eqn:He; simpl; [exact IH|].
    now rewrite (named_same m n e Hm), He. }
  repeat split.
  - unfold removeDevice, sqlDelete; rewrite Hc.
    now rewrite filter_named_length.
  - unfold getDevice, w'; rewrite (connect_withTable _ _ Hdb).
    unfold selectByName.
    assert (Hnone : find (named m) (filter (fun d => negb (named n d)) t) = None)
      by (apply find_none_existsb; now apply existsb_filter_out).
    now rewrite Hnone.
  - unfold removeDevice, sqlDelete, w'; rewrite (connect_withTable _ _ Hdb).
    rewrite Hgone; simpl.
    unfold withTable; simpl; do 2 f_equal.
    f_equal. clear - Hm.
    induction t as [|e rest IH]; simpl; [reflexivity|].
    destruct (named n e) eqn:He; simpl; [exact IH|].
    rewrite (named_same m n e Hm), He; simpl; now rewrite IH.
Qed.

Lemma X11_sqlite_remove_then_gone_witness :
  connect (sqliteHolding [alpha; nas]) = Returned [alpha; nas] /\
  Case.sameName "nas" "NAS" = true /\
  removeDevice "NAS" (sqliteHolding [alpha; nas])
  = (Returned true, sqliteHolding [alpha]) /\
  removeDevice "nas" (sqliteHolding [alpha])
  = (Returned false, sqliteHolding [alpha]).
Proof.
  split; [reflexivity|]. split; [reflexivity|].
  destruct (@X11_sqlite_remove_then_gone
              "NAS" "nas" (sqliteHolding [alpha; nas]) [alpha; nas]
              eq_refl eq_refl) as (H1 & _ & H3).
  split; [exact H1 | exact H3].
Defined.

End SqliteManagerMore.

Section SqliteUpdateMore.
Import SqliteDeviceManager Words Notions Samples.

Lemma existsb_named_map (g : Device -> Device) (n : string) (l : list Device) :
  (forall d, name (g d) = name d) ->
  existsb (named n) (map g l) = existsb (named n) l.
Proof.
  intros Hg; induction l as [|e rest IH]; simpl; [reflexivity|].
  rewrite IH; unfold named; now rewrite Hg.
Qed.

Lemma uniqueNames_map (g : Device -> Device) (l : list Device) :
  (forall d, name (g d) = name d) ->
  uniqueNames (map g l) = uniqueNames l.
Proof.
  intros Hg; induction l as [|e rest IH]; simpl; [reflexivity|].
  now rewrite IH, Hg, existsb_named_map.
Qed.

Lemma find_named_map (g : Device -> Device) (n : string) (l : list Device) :
  (forall d, name (g d) = name d) ->
  find (named n) (map g l) = option_map g (find (named n) l).
Proof.
  intros Hg; induction l as [|e rest IH]; simpl; [reflexivity|].
  unfold named at 1; rewrite Hg; fold (named n e).
  destruct (named n e); [reflexivity | exact IH].
Qed.

(** X12: on a table with unique names, an update that carries no name,
    for a device that exists, never throws and returns true; afterwards
    the name finds the old row with exactly the supplied fields replaced,
    every other name finds what it found before, and the table has as
    many rows as before. *)
Theorem X12_sqlite_update_then_lookup
        (n m : string) (u : Updates) (d : Device) (w : World) (t : Table) :
  connect w = Returned t ->
  uniqueNames t = true ->
  uname u = None ->
  selectByName n t = Some d ->
  exists t',
    updateDevice n u w
    = (Returned true, if noFields u then w else withTable t' w) /\
    length t' = length t /\
    selectByName n t' = Some (applyUpdates u d) /\
    (Case.sameName m n = false -> selectByName m t' = selectByName m t).
Proof.
  intros Hc Hu Hn Hd.
  set (g := fun x => if named n x then applyUpdates u x else x).
  assert (Hg : forall x, name (g x) = name x).
  { intros x; unfold g; destruct (named n x); [simpl; now rewrite Hn | auto]. }
  exists (map g t).
  assert (Hfound : (0 <? length (filter (named n) t)) = true).
  { rewrite filter_named_length.
    destruct (existsb (named n) t) eqn:He; [reflexivity|].
    apply find_none_existsb in He; unfold selectByName in Hd; congruence. }
  repeat split.
  - unfold updateDevice; rewrite Hc, Hd.
    unfold renames; rewrite Hn.
    destruct (noFields u); [reflexivity|].
    unfold sqlUpdate; fold g.
    now rewrite (uniqueNames_map g t Hg), Hu, Hfound.
  - apply length_map.
  - unfold selectByName in *; rewrite (find_named_map g n t Hg), Hd; simpl.
    unfold g; apply find_some in Hd; destruct Hd as [_ Hd]; now rewrite Hd.
  - intros Hm; unfold selectByName in *.
    rewrite (find_named_map g m t Hg).
    destruct (find (named m) t) as [e|] eqn:He; [|reflexivity].
    simpl; f_equal; unfold g.
    destruct (named n e) eqn:Hne; [|reflexivity].
    apply find_some in He; destruct He as [_ He].
    unfold named in Hne, He. rewrite sameName_sym in He.
    rewrite (sameName_trans _ _ _ He Hne) in Hm; discriminate.
Qed.

Lemma X12_sqlite_update_then_lookup_witness :
  connect (sqliteHolding [alpha; nas]) = Returned [alpha; nas] /\
  uniqueNames [alpha; nas] = true /\
  selectByName "NAS" [alpha; nas] = Some nas /\
  fst (updateDevice "NAS"
         {| uname := None; umac := Some "00:11:22:33:44:66"; uip := None;
            ubroadcast := None |} (sqliteHolding [alpha; nas]))
  = Returned true.
Proof.
  split; [reflexivity|]. split; [reflexivity|]. split; [reflexivity|].
  destruct (@X12_sqlite_update_then_lookup
              "NAS" "alpha"
              {| uname := None; umac := Some "00:11:22:33:44:66"; uip := None;
                 ubroadcast := None |}
              nas (sqliteHolding [alpha; nas]) [alpha; nas]
              eq_refl eq_refl eq_refl eq_refl) as (t' & Hup & _).
  rewrite Hup; reflexivity.
Defined.

Lemma rename_leaves_others (n v : string) (l : list Device) :
  existsb (named n) l = false ->
  map (fun x => if named n x then applyUpdates (rename v) x else x) l = l.
Proof.
  induction l as [|e rest IH]; simpl; [reflexivity|].
  intros H; apply orb_false_iff in H; destruct H as [He Hr].
  now rewrite He, IH.
Qed.

Lemma renamed_unique (n v : string) (l : list Device) :
  uniqueNames l = true ->
  existsb (named v) l = false ->
  uniqueNames
    (map (fun x => if named n x then applyUpdates (rename v) x else x) l)
  = true.
Proof.
  induction l as [|e rest IH]; simpl; [reflexivity|].
  intros Hu Hv.
  apply andb_true_iff in Hu; destruct Hu as [He Hrest].
  apply negb_true_iff in He.
  apply orb_false_iff in Hv; destruct Hv as [Hve Hvrest].
  destruct (named n e) eqn:Hn.
  - assert (Hnone : existsb (named n) rest = false).
    { rewrite <- He; clear - Hn.
      induction rest as [|f rest IH]; simpl; [reflexivity|].
      rewrite IH; f_equal. apply named_same.
      unfold named in Hn; now rewrite sameName_sym. }
    rewrite (rename_leaves_others n v rest Hnone).
    simpl; now rewrite Hvrest, Hrest.
  - rewrite (IH Hrest Hvrest), andb_true_r.
    apply negb_true_iff.
    clear - He Hve.
    induction rest as [|f rest IH]; simpl in *; [reflexivity|].
    apply orb_false_iff in He; destruct He as [Hf Hr].
    rewrite (IH Hr), orb_false_r.
    destruct (named n f); [|exact Hf].
    unfold named in *; simpl. now rewrite sameName_sym.
Qed.

(** X13: on a table with unique names, renaming a device to a name no
    row answers to succeeds; afterwards the new name finds the row, with
    only its name changed, and the old name finds nothing. *)
Theorem X13_sqlite_rename_moves_the_record
        (n v : string) (d : Device) (w : World) (t : Table) :
  connect w = Returned t ->
  uniqueNames t = true ->
  selectByName n t = Some d ->
  v <> "" ->
  selectByName v t = None ->
  exists t',
    updateDevice n (rename v) w = (Returned true, withTable t' w) /\
    selectByName v t'
    = Some {| name := v; mac := mac d; ip := ip d; broadcast := broadcast d |} /\
    selectByName n t' = None /\
    uniqueNames t' = true.
Proof.
  intros Hc Hu Hd Hv Hfree.
  set (g := fun x => if named n x then applyUpdates (rename v) x else x).
  exists (map g t).
  assert (Hvn : Case.sameName v n = false).
  { destruct (Case.sameName v n) eqn:E; [|reflexivity].
    unfold selectByName in *.
    rewrite (find_named_same v n t E) in Hfree; congruence. }
  assert (Hneq : String.eqb v n = false).
  { apply String.eqb_neq; intros ->; now rewrite sameName_refl in Hvn. }
  assert (Hren : renames n (rename v) = Some v).
  { unfold renames; simpl. apply String.eqb_neq in Hv. now rewrite Hv, Hneq. }
  assert (Hfreeb : existsb (named v) t = false)
    by now apply find_none_existsb.
  pose proof (renamed_unique n v t Hu Hfreeb) as Hunique; fold g in Hunique.
  assert (Hfound : (0 <? length (filter (named n) t)) = true).
  { rewrite filter_named_length.
    destruct (existsb (named n) t) eqn:He; [reflexivity|].
    apply find_none_existsb in He; unfold selectByName in Hd; congruence. }
  repeat split; auto.
  - unfold updateDevice; rewrite Hc, Hd, Hren, Hfree; simpl.
    unfold sqlUpdate; fold g. now rewrite Hunique, Hfound.
  - unfold selectByName in *; clear - Hd Hfreeb Hvn.
    induction t as [|e rest IH]; simpl in *; [discriminate|].
    apply orb_false_iff in Hfreeb; destruct Hfreeb as [He Hr].
    destruct (named n e) eqn:Hn.
    + injection Hd as ->.
      assert (Hg : g d = applyUpdates (rename v) d)
        by (unfold g; now rewrite Hn).
      rewrite Hg; unfold named; simpl; now rewrite sameName_refl.
    + assert (Hg : g e = e) by (unfold g; now rewrite Hn).
      now rewrite Hg, He, (IH Hd Hr).
  - unfold selectByName in *; clear - Hvn.
    induction t as [|e rest IH]; simpl; [reflexivity|].
    destruct (named n e) eqn:Hn.
    + assert (Hg : g e = applyUpdates (rename v) e)
        by (unfold g; now rewrite Hn).
      rewrite Hg; unfold named at 1; simpl; now rewrite Hvn.
    + assert (Hg : g e = e) by (unfold g; now rewrite Hn).
      now rewrite Hg, Hn.
Qed.

Lemma X13_sqlite_rename_moves_the_record_witness :
  connect (sqliteHolding [alpha; nas]) = Returned [alpha; nas] /\
  uniqueNames [alpha; nas] = true /\
  selectByName "NAS" [alpha; nas] = Some nas /\
  "vault" <> "" /\
  selectByName "vault" [alpha; nas] = None /\
  fst (updateDevice "NAS" (rename "vault") (sqliteHolding [alpha; nas]))
  = Returned true.
Proof.
  assert (Hv : "vault" <> "") by discriminate.
  split; [reflexivity|]. split; [reflexivity|]. split; [reflexivity|].
  split; [exact Hv|]. split; [reflexivity|].
  destruct (@X13_sqlite_rename_moves_the_record
              "NAS" "vault" nas (sqliteHolding [alpha; nas]) [alpha; nas]
              eq_refl eq_refl eq_refl Hv eq_refl) as (t' & Hup & _).
  rewrite Hup; reflexivity.
Defined.

End SqliteUpdateMore.

Section SqliteBootstrapMore.
Import SqliteDeviceManager SqliteInFlight Words Notions Samples.

(** The import loop stops at the first entry whose name is taken and
    keeps what it inserted before. *)
Lemma insertAll_prefix (entries : list Device) :
  forall t,
    uniqueNames t = true ->
    exists imported rest,
      entries = imported ++ rest /\
      fst (insertAll entries t) = t ++ imported /\
      uniqueNames (t ++ imported) = true /\
      ((snd (insertAll entries t) = None /\ rest = []) \/
       (snd (insertAll entries t) = Some uniqueFailed /\
        exists dup rest',
          rest = dup :: rest' /\
          existsb (named (name dup)) (t ++ imported) = true)).
Proof.
  induction entries as [|d more IH]; intros t Hu.
  - exists [], []; rewrite !app_nil_r; simpl.
    split; [reflexivity|]. split; [reflexivity|]. split; [exact Hu|].
    left; split; reflexivity.
  - simpl insertAll; unfold sqlInsert.
    destruct (existsb (named (name d)) t) eqn:He.
    + exists [], (d :: more); rewrite !app_nil_r; simpl.
      split; [reflexivity|]. split; [reflexivity|]. split; [exact Hu|].
      right; split; [reflexivity|]. exists d, more; auto.
    + assert (Hu' : uniqueNames (t ++ [d]) = true)
        by now rewrite uniqueNames_snoc, Hu, He.
      destruct (IH (t ++ [d]) Hu') as (imported & rest & -> & Hf & Hi & Hr).
      exists (d :: imported), rest.
      replace (t ++ d :: imported) with ((t ++ [d]) ++ imported)
        by now rewrite <- app_assoc.
      split; [reflexivity|]. split; [exact Hf|]. split; [exact Hi|].
      exact Hr.
Qed.

(** X14: on first load with an empty store, whatever list the legacy file
    holds, the table receives a duplicate-free initial part of it, in
    order.  If that is the whole list nothing else happens; otherwise the
    next entry repeats a name already imported, one warning is logged,
    nothing after it is imported, and the example record is added, unless
    its name is already taken, in which case [loadDevices] throws. *)
Theorem X14_bootstrap_imports_a_prefix
        (entries : list Device) (stored : option Table) :
  emptyStore stored ->
  exists imported rest,
    entries = imported ++ rest /\
    uniqueNames imported = true /\
    (rest = [] ->
     loadDevices (Stored entries) (fresh stored)
     = (Returned tt,
        {| db := true; table := Some imported; warnings := [] |})) /\
    (forall dup rest',
        rest = dup :: rest' ->
        existsb (named (name dup)) imported = true /\
        loadDevices (Stored entries) (fresh stored)
        = if existsb (named (name exampleDevice)) imported
          then (Threw uniqueFailed,
                {| db := true; table := Some imported;
                   warnings := [migrationWarning] |})
          else (Returned tt,
                {| db := true; table := Some (imported ++ [exampleDevice]);
                   warnings := [migrationWarning] |})).
Proof.
  intros Hempty.
  assert (Hopen : openDb (fresh stored)
                  = {| db := true; table := Some []; warnings := [] |})
    by (destruct Hempty; subst; reflexivity).
  destruct (insertAll_prefix entries [] eq_refl)
    as (imported & rest & Hsplit & Hf & Hu & Hr).
  simpl in Hf, Hu.
  exists imported, rest; repeat split; auto.
  - intros ->. destruct Hr as [[Hn _]|[_ (dup & rest' & Hd & _)]];
      [|discriminate].
    unfold loadDevices; simpl db; cbv iota; rewrite Hopen.
    unfold migrateLegacyConfig; simpl.
    destruct (insertAll entries []) as [t' e]; simpl in *; now subst.
  - destruct Hr as [[_ ->]|[_ (dup' & rest'' & -> & Hd)]]; [discriminate|].
    now injection H as -> _.
  - destruct Hr as [[_ ->]|[Hs _]]; [discriminate|].
    unfold loadDevices; simpl db; cbv iota; rewrite Hopen.
    unfold migrateLegacyConfig; simpl.
    destruct (insertAll entries []) as [t' e]; simpl in *; subst.
    unfold insertExample, sqlInsert.
    change (name exampleDevice) with "example-device".
    destruct (existsb (named "example-device") imported); reflexivity.
Qed.

Lemma X14_bootstrap_imports_a_prefix_witness :
  emptyStore (Some []) /\
  exists imported rest,
    [alpha; nas; nasUpper; bravo] = imported ++ rest /\
    uniqueNames imported = true.
Proof.
  assert (He : emptyStore (Some [])) by (right; reflexivity).
  split; [exact He|].
  destruct (@X14_bootstrap_imports_a_prefix
              [alpha; nas; nasUpper; bravo] (Some []) He)
    as (imported & rest & Hsplit & Hu & _).
  exists imported, rest; split; assumption.
Defined.

(** What the bootstrap makes of a legacy list with a repeated name in
    the middle. *)
Example bootstrap_stops_at_repeated_name :
  loadDevices (Stored [alpha; nas; nasUpper; bravo]) (fresh (Some []))
  = (Returned tt,
     {| db := true; table := Some [alpha; nas; exampleDevice];
        warnings := [migrationWarning] |}).
Proof. reflexivity. Qed.

Lemma addDevice_steps (d : Device) (w : World) :
  addDevice d w
  = match addDeviceLookup d w with
    | Threw e => (Threw e, w)
    | Returned _ => addDeviceInsert d w
    end.
Proof.
  unfold addDevice, addDeviceLookup, addDeviceInsert.
  destruct (connect w) as [t|e]; [|reflexivity].
  destruct (selectByName (name d) t); reflexivity.
Qed.

(** X15: after [loadDevices], however it ended and whatever operations
    followed, [getDevice] and [removeDevice] never throw.  [addDevice] is
    its look-up followed by its INSERT; run without another call in
    between, the only error it throws is "Device '...' already exists",
    which leaves the world as it was.  When two calls of [addDevice] for
    names equal up to letter case overlap, both look-ups running before
    either INSERT, the second look-up passes as the first did, the first
    INSERT succeeds and the second throws the UNIQUE constraint error of
    SQLite; the table then holds the first record only. *)
Theorem X15_sqlite_operations_after_load
        (legacy : ConfigFile) (stored : option Table) (ops : list Op)
        (n : string) (d d' : Device) :
  let w := run ops (snd (loadDevices legacy (fresh stored))) in
  (exists found, getDevice n w = (Returned found, w)) /\
  (exists removed w', removeDevice n w = (Returned removed, w')) /\
  addDevice d w
  = match addDeviceLookup d w with
    | Threw e => (Threw e, w)
    | Returned _ => addDeviceInsert d w
    end /\
  ((exists w', addDevice d w = (Returned tt, w')) \/
   addDevice d w = (Threw (alreadyExists (name d)), w)) /\
  (Case.sameName (name d) (name d') = true ->
   addDeviceLookup d w = Returned tt ->
   addDeviceLookup d' w = Returned tt /\
   exists t,
     table w = Some t /\
     addDeviceInsert d w = (Returned tt, withTable (t ++ [d]) w) /\
     addDeviceInsert d' (withTable (t ++ [d]) w)
     = (Threw uniqueFailed, withTable (t ++ [d]) w) /\
     getDevice (name d') (withTable (t ++ [d]) w)
     = (Returned (Some d), withTable (t ++ [d]) w)).
Proof.
  intros w.
  pose proof (run_opened ops (loadDevices_opened legacy stored)) as Ho.
  fold w in Ho.
  destruct (connect_opened Ho) as (t & Ht & Hc).
  assert (Hc' : forall t', connect (withTable t' w) = Returned t').
  { intros t'; unfold connect, ensureDb; simpl.
    destruct Ho as [-> _]; reflexivity. }
  split; [|split; [|split; [|split]]].
  - unfold getDevice; rewrite Hc; eexists; reflexivity.
  - unfold removeDevice; rewrite Hc; simpl; eexists; eexists; reflexivity.
  - apply addDevice_steps.
  - unfold addDevice, sqlInsert, selectByName; rewrite Hc.
    destruct (find (named (name d)) t) eqn:Hf; [now right|].
    apply find_none_existsb in Hf; rewrite Hf.
    left; eexists; reflexivity.
  - intros Hsame Hlook.
    unfold addDeviceLookup, addDeviceInsert, selectByName in *.
    rewrite Hc in *.
    destruct (find (named (name d)) t) eqn:Hf; [discriminate|].
    assert (Hf' : find (named (name d')) t = None)
      by (rewrite <- Hf; symmetry; apply find_named_same, Hsame).
    rewrite Hf'; split; [reflexivity|].
    exists t; split; [exact Ht|].
    assert (Hd : named (name d') d = true) by exact Hsame.
    unfold sqlInsert, getDevice, selectByName.
    rewrite (proj1 (find_none_existsb _ _) Hf), !Hc'.
    rewrite existsb_named_app; simpl; rewrite Hd, orb_true_r.
    rewrite (find_snoc_new _ _ _ Hf' Hd); simpl.
    rewrite normalizeDevice_id; repeat split; reflexivity.
Qed.

End SqliteBootstrapMore.

(* ================================================================== *)
(** * The device handlers of the REST API *)
(* ================================================================== *)

Section ApiDevices.
Import WakeOnLan WakeOnLanService Words Notions Samples Api.

(** What a 201 from [POST /api/devices] tells and what it did. *)
Lemma postDevices_cases (b : NewDevice) (s : JsonDeviceManager.State) :
  let device := {| name := text (newName b); mac := text (newMac b);
                   ip := newIp b; broadcast := newBroadcast b |} in
  (truthy (newName b) = true /\ truthy (newMac b) = true /\
   isValidMac (text (newMac b)) = true /\
   JsonDeviceManager.getDevice (text (newName b)) s = None /\
   postDevices b s
   = ({| status := 201; body := AddedBody "Device added successfully" device |},
      JsonDeviceManager.saveDevices
        {| JsonDeviceManager.devices := JsonDeviceManager.devices s ++ [device];
           JsonDeviceManager.configFile := JsonDeviceManager.configFile s;
           JsonDeviceManager.warnings := JsonDeviceManager.warnings s |})) \/
  ((truthy (newName b) = false \/ truthy (newMac b) = false \/
    isValidMac (text (newMac b)) = false \/
    JsonDeviceManager.getDevice (text (newName b)) s <> None) /\
   exists reason, postDevices b s = (errorJson 400 reason, s)).
Proof.
  intros device; unfold postDevices.
  destruct (truthy (newName b)) eqn:Hn; simpl;
    [|right; split; [auto | eexists; reflexivity]].
  destruct (truthy (newMac b)) eqn:Hm; simpl;
    [|right; split; [auto | eexists; reflexivity]].
  destruct (isValidMac (text (newMac b))) eqn:Hv; simpl;
    [|right; split; [auto | eexists; reflexivity]].
  unfold JsonDeviceManager.addDevice; simpl name.
  destruct (JsonDeviceManager.getDevice (text (newName b)) s) eqn:Hg.
  - right; split; [|eexists; reflexivity].
    right; right; right; discriminate.
  - left; repeat split; reflexivity.
Qed.

(** X16: [POST /api/devices] answers 201 or 400.  It answers 201 exactly
    when name and MAC are non-empty, the MAC passes [isValidMac] and no
    stored device answers to the name; then the device is appended to the
    registry.  On 400 the registry is unchanged. *)
Theorem X16_post_devices_outcomes
        (b : NewDevice) (s : JsonDeviceManager.State) :
  (status (fst (postDevices b s)) = 201 \/
   status (fst (postDevices b s)) = 400) /\
  (status (fst (postDevices b s)) = 201 <->
   truthy (newName b) = true /\ truthy (newMac b) = true /\
   isValidMac (text (newMac b)) = true /\
   JsonDeviceManager.getDevice (text (newName b)) s = None) /\
  (status (fst (postDevices b s)) = 201 ->
   JsonDeviceManager.devices (snd (postDevices b s))
   = JsonDeviceManager.devices s
     ++ [ {| name := text (newName b); mac := text (newMac b);
             ip := newIp b; broadcast := newBroadcast b |} ]) /\
  (status (fst (postDevices b s)) = 400 -> snd (postDevices b s) = s).
Proof.
  destruct (postDevices_cases b s)
    as [(Hn & Hm & Hv & Hg & ->) | (Hwhy & reason & ->)]; simpl.
  - repeat split; auto; discriminate.
  - repeat split; auto; try discriminate.
    intros (Hn & Hm & Hv & Hg).
    destruct Hwhy as [H|[H|[H|H]]]; congruence.
Qed.

Lemma validMacs_assignFirst (n : string) (u : Updates) (l : list Device) :
  (forall v, umac u = Some v -> isValidMac v = true) ->
  validMacs l -> validMacs (JsonDeviceManager.assignFirst n u l).
Proof.
  intros Hu Hl; induction Hl as [|e rest He Hrest IH]; simpl; [constructor|].
  destruct (named n e); constructor; auto.
  simpl; destruct (umac u) as [v|]; [now apply Hu | exact He].
Qed.

Lemma uniqueNames_names (l l' : list Device) :
  map name l = map name l' -> uniqueNames l = uniqueNames l'.
Proof.
  assert (He : forall n a a', map name a = map name a' ->
                              existsb (named n) a = existsb (named n) a').
  { intros n a; induction a as [|x a IH]; intros [|x' a'] H;
      simpl in *; try discriminate; [reflexivity|].
    injection H as Hx Ha; unfold named at 1 3; rewrite Hx.
    now rewrite (IH a' Ha). }
  revert l'; induction l as [|x l IH]; intros [|x' l'] H;
    simpl in *; try discriminate; [reflexivity|].
  injection H as Hx Hl.
  now rewrite Hx, (He (name x') l l' Hl), (IH l' Hl).
Qed.

Lemma serve_sound (s : JsonDeviceManager.State) (r : Request) :
  uniqueNames (JsonDeviceManager.devices s) = true ->
  validMacs (JsonDeviceManager.devices s) ->
  uniqueNames (JsonDeviceManager.devices (serve s r)) = true /\
  validMacs (JsonDeviceManager.devices (serve s r)).
Proof.
  intros Hu Hv; destruct r as [b | n b | n]; simpl.
  - destruct (postDevices_cases b s)
      as [(_ & _ & Hmac & Hg & ->) | (_ & reason & ->)]; simpl; [|auto].
    split.
    + unfold JsonDeviceManager.getDevice in Hg.
      apply find_none_existsb in Hg.
      rewrite uniqueNames_snoc, Hu; simpl; now rewrite Hg.
    + apply Forall_app; split; [exact Hv|].
      constructor; [exact Hmac | constructor].
  - unfold putDevice.
    destruct (truthy (changedMac b) && negb (isValidMac (text (changedMac b))))
      eqn:Hbad; simpl; [auto|].
    unfold JsonDeviceManager.updateDevice.
    destruct (JsonDeviceManager.getDevice n s); simpl; [|auto].
    split.
    + rewrite (uniqueNames_names
                 (JsonDeviceManager.assignFirst n (updatesOf b)
                    (JsonDeviceManager.devices s))
                 (JsonDeviceManager.devices s)); [exact Hu|].
      now apply names_assignFirst.
    + apply validMacs_assignFirst; [|exact Hv].
      intros v; unfold updatesOf; simpl.
      destruct (truthy (changedMac b)) eqn:Ht; [|discriminate].
      intros Hmac; rewrite Hmac in Hbad; simpl in Hbad.
      apply negb_false_iff in Hbad; exact Hbad.
  - unfold deleteDevice, JsonDeviceManager.removeDevice.
    destruct (JsonDeviceManager.removeFirst n (JsonDeviceManager.devices s))
      as [l'|] eqn:Hr; simpl; [|auto].
    split.
    + pose proof (json_remove_unique n s Hu) as H.
      unfold JsonDeviceManager.removeDevice in H; now rewrite Hr in H.
    + destruct (removeFirst_some _ _ Hr)
        as (before & d & after & Hl & _ & _ & ->).
      unfold validMacs in *; rewrite Hl in Hv.
      apply Forall_app in Hv; destruct Hv as [Hb Ha].
      inversion Ha; subst. apply Forall_app; split; assumption.
Qed.

(** X17: through the REST API the registry stays sound: if no two stored
    names are equal up to letter case and every stored MAC passes
    [isValidMac], the same holds after any sequence of POST, PUT and
    DELETE requests on [/api/devices].  (PUT never carries a name, so the
    unguarded rename of [updateDevice] is out of reach.) *)
Theorem X17_api_keeps_registry_sound
        (requests : list Request) (s : JsonDeviceManager.State) :
  uniqueNames (JsonDeviceManager.devices s) = true ->
  validMacs (JsonDeviceManager.devices s) ->
  uniqueNames (JsonDeviceManager.devices (serveAll requests s)) = true /\
  validMacs (JsonDeviceManager.devices (serveAll requests s)).
Proof.
  revert s; induction requests as [|r rest IH]; intros s Hu Hv; [auto|].
  destruct (serve_sound s r Hu Hv) as [Hu' Hv'].
  exact (IH (serve s r) Hu' Hv').
Qed.

End ApiDevices.

Section ApiDevicesMore.
Import WakeOnLan WakeOnLanService Words Notions Samples Api.

Lemma X17_api_keeps_registry_sound_witness :
  uniqueNames (JsonDeviceManager.devices (jsonHolding [alpha; bravo])) = true /\
  validMacs (JsonDeviceManager.devices (jsonHolding [alpha; bravo])) /\
  uniqueNames
    (JsonDeviceManager.devices
       (serveAll
          [ PostDevices {| newName := Some "ALPHA";
                           newMac := Some "00:11:22:33:44:55";
                           newIp := None; newBroadcast := None |};
            PostDevices {| newName := Some "nas";
                           newMac := Some "00:11:22:33:44:55";
                           newIp := None; newBroadcast := None |};
            PutDevice "NAS" {| changedMac := Some "not a mac";
                               changedIp := None; changedBroadcast := None |};
            DeleteDevice "Bravo" ]
          (jsonHolding [alpha; bravo]))) = true.
Proof.
  assert (Hu : uniqueNames
                 (JsonDeviceManager.devices (jsonHolding [alpha; bravo]))
               = true) by reflexivity.
  assert (Hv : validMacs
                 (JsonDeviceManager.devices (jsonHolding [alpha; bravo])))
    by (repeat constructor).
  split; [exact Hu|]. split; [exact Hv|].
  exact (proj1 (X17_api_keeps_registry_sound _ _ Hu Hv)).
Defined.

Lemma removeFirst_snoc_new (n : string) (l : list Device) (d : Device) :
  find (named n) l = None -> named n d = true ->
  JsonDeviceManager.removeFirst n (l ++ [d]) = Some l.
Proof.
  intros Hl Hd; induction l as [|e rest IH]; simpl in *.
  - now rewrite Hd.
  - destruct (named n e); [discriminate|]. now rewrite (IH Hl).
Qed.

(** X18: after a 201 from [POST /api/devices], [GET /api/devices/:name]
    with the name in any letter case answers 200 with the device as
    posted; [DELETE] of it answers 200 and gives back the registry as it
    was before the POST, and a further GET answers 404. *)
Theorem X18_post_get_delete_round_trip
        (b : NewDevice) (m : string) (s : JsonDeviceManager.State) :
  status (fst (postDevices b s)) = 201 ->
  Case.sameName m (text (newName b)) = true ->
  let posted := {| name := text (newName b); mac := text (newMac b);
                   ip := newIp b; broadcast := newBroadcast b |} in
  let s1 := snd (postDevices b s) in
  getDevice m s1 = json (DeviceBody posted) /\
  fst (deleteDevice m s1) = json (MessageBody "Device removed successfully") /\
  JsonDeviceManager.devices (snd (deleteDevice m s1))
  = JsonDeviceManager.devices s /\
  getDevice m (snd (deleteDevice m s1)) = errorJson 404 "Device not found".
Proof.
  intros H201 Hm posted s1; subst s1.
  destruct (postDevices_cases b s)
    as [(_ & _ & _ & Hg & Hpost) | (_ & reason & Hpost)];
    rewrite Hpost in *; simpl in H201; [|discriminate].
  simpl snd; fold posted.
  unfold JsonDeviceManager.getDevice in Hg.
  rewrite <- (find_named_same m _ _ Hm) in Hg.
  assert (Hd : named m posted = true).
  { unfold named, posted; simpl. now rewrite sameName_sym. }
  assert (Hdel : JsonDeviceManager.removeFirst
                   m (JsonDeviceManager.devices s ++ [posted])
                 = Some (JsonDeviceManager.devices s))
    by now apply removeFirst_snoc_new.
  repeat split.
  - unfold getDevice, JsonDeviceManager.getDevice; simpl.
    now rewrite (find_snoc_new _ _ _ Hg Hd).
  - unfold deleteDevice, JsonDeviceManager.removeDevice; simpl.
    now rewrite Hdel.
  - unfold deleteDevice, JsonDeviceManager.removeDevice; simpl.
    now rewrite Hdel.
  - unfold deleteDevice, JsonDeviceManager.removeDevice; simpl.
    rewrite Hdel; simpl.
    unfold getDevice, JsonDeviceManager.getDevice; simpl.
    now rewrite Hg.
Qed.

Lemma X18_post_get_delete_round_trip_witness :
  status
    (fst (postDevices {| newName := Some "nas";
                         newMac := Some "00:11:22:33:44:55";
                         newIp := None; newBroadcast := None |}
                      (jsonHolding [alpha]))) = 201 /\
  Case.sameName "NAS" "nas" = true /\
  getDevice "NAS"
    (snd (postDevices {| newName := Some "nas";
                         newMac := Some "00:11:22:33:44:55";
                         newIp := None; newBroadcast := None |}
                      (jsonHolding [alpha])))
  = json (DeviceBody nas).
Proof.
  split; [reflexivity|]. split; [reflexivity|].
  exact (proj1 (@X18_post_get_delete_round_trip
                  {| newName := Some "nas";
                     newMac := Some "00:11:22:33:44:55";
                     newIp := None; newBroadcast := None |}
                  "NAS" (jsonHolding [alpha]) eq_refl eq_refl)).
Defined.

(** X19: [PUT /api/devices/:name] answers 200, 400 or 404 and never
    changes a name or the number of devices.  It answers 400 exactly when
    a non-empty MAC fails [isValidMac], and 404 exactly when the MAC is
    acceptable and no device answers to the name; in both cases the
    registry is unchanged. *)
Theorem X19_put_device_outcomes
        (n : string) (b : Changes) (s : JsonDeviceManager.State) :
  let badMac := truthy (changedMac b)
                && negb (isValidMac (text (changedMac b))) in
  map name (JsonDeviceManager.devices (snd (putDevice n b s)))
  = map name (JsonDeviceManager.devices s) /\
  (status (fst (putDevice n b s)) = 400 <-> badMac = true) /\
  (status (fst (putDevice n b s)) = 404 <->
   badMac = false /\ JsonDeviceManager.getDevice n s = None) /\
  (status (fst (putDevice n b s)) = 200 <->
   badMac = false /\ JsonDeviceManager.getDevice n s <> None) /\
  (status (fst (putDevice n b s)) <> 200 -> snd (putDevice n b s) = s).
Proof.
  intros badMac; subst badMac; unfold putDevice.
  destruct (truthy (changedMac b) && negb (isValidMac (text (changedMac b)))).
  - simpl; repeat split; auto; try discriminate; intros [H _]; discriminate.
  - unfold JsonDeviceManager.updateDevice.
    destruct (JsonDeviceManager.getDevice n s) as [d|]; simpl.
    + repeat split; auto; try discriminate.
      * now apply names_assignFirst.
      * intros [_ H]; discriminate.
      * intros H; now contradiction H.
    + repeat split; auto; try discriminate.
      intros [_ H]; now contradiction H.
Qed.

End ApiDevicesMore.

(* ================================================================== *)
(** * The wake handlers of the REST API *)
(* ================================================================== *)

Section ApiWake.
Import WakeOnLan WakeOnLanService Words Notions Samples Api WakeApi.

Lemma truthy_text (field : option string) :
  truthy field = false -> text field = "".
Proof.
  destruct field as [v|]; simpl; [|reflexivity].
  destruct (String.eqb_spec v ""); [auto | discriminate].
Qed.

Lemma valid_is_truthy (field : option string) :
  isValidMac (text field) = true -> truthy field = true.
Proof.
  intros H; destruct (truthy field) eqn:Ht; [reflexivity|].
  rewrite (truthy_text _ Ht) in H; discriminate.
Qed.

(** X20: waking by MAC through the API.  A MAC that fails [isValidMac]
    (a missing one included) is answered 400 and nothing reaches the
    library.  A valid one is passed to [wake]: the datagrams the library
    sent are the ones that left, and the answer is 200 with the result
    when the callback got no error, 500 with the result when it got one,
    500 with the reason when the library threw.  [GET /api/wake?mac=] and
    [POST /api/wake] agree on both. *)
Theorem X20_wake_by_mac_through_api
        (wol : WolLib) (m bc : option string) (s : JsonDeviceManager.State) :
  let byPost := postWake wol {| requestMac := m; requestBroadcast := bc |} in
  let byGet := getWake wol {| queryMac := m; queryDevice := None;
                              queryBroadcast := bc |} s in
  fst byGet = fst byPost /\
  status (snd byGet) = status (snd byPost) /\
  (isValidMac (text m) = false ->
   fst byPost = [] /\ status (snd byPost) = 400) /\
  (isValidMac (text m) = true ->
   match libraryCall wol (text m) bc with
   | Callback sent None =>
       byPost = (sent, json (ResultBody (wakeCallback (text m) None)))
   | Callback sent (Some reason) =>
       byPost = (sent, {| status := 500;
                          body := ResultBody
                                    (wakeCallback (text m) (Some reason)) |})
   | Thrown reason => byPost = ([], errorJson 500 reason)
   end).
Proof.
  intros byPost byGet; subst byPost byGet; unfold postWake, getWake; simpl.
  destruct (truthy m) eqn:Ht; simpl.
  - destruct (isValidMac (text m)) eqn:Hv; simpl.
    + rewrite wake_call.
      destruct (libraryCall wol (text m) bc) as [sent [reason|]|reason];
        simpl; repeat split; auto; discriminate.
    + repeat split; auto; discriminate.
  - rewrite (truthy_text _ Ht).
    repeat split; auto; discriminate.
Qed.

(** X21: waking by name through the API.  When the query of
    [GET /api/wake] names a device, the [mac] and [broadcast] parameters
    are ignored and the request is served like [POST /api/wake/:name].  A
    name no device answers to is answered 404 and nothing reaches the
    library; otherwise the device found is passed to [wakeDevice]. *)
Theorem X21_wake_by_name_through_api
        (wol : WolLib) (n : string) (m bc : option string)
        (s : JsonDeviceManager.State) :
  n <> "" ->
  getWake wol {| queryMac := m; queryDevice := Some n; queryBroadcast := bc |} s
  = postWakeName wol n s /\
  (JsonDeviceManager.getDevice n s = None ->
   postWakeName wol n s = ([], errorJson 404 "Device not found")) /\
  (forall d, JsonDeviceManager.getDevice n s = Some d ->
             postWakeName wol n s
             = (fst (wakeDevice wol d), respond (snd (wakeDevice wol d)))).
Proof.
  intros Hn; unfold getWake, postWakeName; simpl.
  apply String.eqb_neq in Hn; rewrite Hn; simpl.
  repeat split.
  - intros ->; reflexivity.
  - intros d ->; now destruct (wakeDevice wol d).
Qed.

Lemma X21_wake_by_name_through_api_witness :
  "ALPHA" <> "" /\
  getWake (wolSpec oneSubnetDown)
          {| queryMac := Some "zz"; queryDevice := Some "ALPHA";
             queryBroadcast := None |} (jsonHolding [alpha; bravo])
  = postWakeName (wolSpec oneSubnetDown) "ALPHA" (jsonHolding [alpha; bravo]).
Proof.
  assert (H : "ALPHA" <> "") by discriminate.
  split; [exact H|].
  exact (proj1 (@X21_wake_by_name_through_api
                  (wolSpec oneSubnetDown) "ALPHA" (Some "zz") None
                  (jsonHolding [alpha; bravo]) H)).
Defined.




End ApiWake.

Section ApiWakeMultiple.
Import WakeOnLan WakeOnLanService Words Notions Samples Api WakeApi.





End ApiWakeMultiple.

(* ================================================================== *)
(** * Request ids *)
(* ================================================================== *)

Section RequestIds.
Import Middleware.
Local Open Scope N_scope.

Lemma digitChar_code (d : N) : d < 10 -> N_of_ascii (digitChar d) = 48 + d.
Proof. intros H; unfold digitChar; apply N_ascii_embedding; lia. Qed.

Lemma digitValue_digitChar (d : N) : d < 10 -> digitValue (digitChar d) = d.
Proof. intros H; unfold digitValue; rewrite digitChar_code by exact H; lia. Qed.

Lemma isDigit_digitChar (d : N) : d < 10 -> isDigit (digitChar d) = true.
Proof.
  intros H; unfold isDigit; rewrite digitChar_code by exact H.
  apply andb_true_iff; split; apply N.leb_le; lia.
Qed.

Lemma readDecimal_snoc (s : list ascii) (c : ascii) :
  readDecimal (s ++ [c]) = 10 * readDecimal s + digitValue c.
Proof. unfold readDecimal; now rewrite fold_left_app. Qed.

Lemma decimalDigits_step (fuel : positive) (n : N) :
  10 <= n ->
  decimalDigits (xO fuel) n
  = decimalDigits fuel (n / 10) ++ [digitChar (n mod 10)] /\
  decimalDigits (xI fuel) n
  = decimalDigits fuel (n / 10) ++ [digitChar (n mod 10)].
Proof.
  intros H; simpl.
  destruct (N.ltb_spec n 10); [lia | split; reflexivity].
Qed.

Lemma decimalDigits_small (fuel : positive) (n : N) :
  n < 10 -> decimalDigits fuel n = [digitChar n].
Proof.
  intros H; destruct fuel; simpl;
    destruct (N.ltb_spec n 10); try lia; reflexivity.
Qed.

Lemma tenth_fits (fuel : positive) (n : N) :
  10 <= n ->
  (n <= Npos (xO fuel) \/ n <= Npos (xI fuel)) -> n / 10 <= Npos fuel.
Proof.
  intros H10 Hn.
  assert (Hd : n / 10 <= n / 2)
    by (apply N.div_le_compat_l; lia).
  assert (H2 : n / 2 <= Npos fuel).
  { destruct Hn as [Hn|Hn].
    - apply N.Div0.div_le_upper_bound; lia.
    - apply N.lt_succ_r, N.Div0.div_lt_upper_bound; lia. }
  lia.
Qed.

(** The digits of [n] denote [n] and are digits. *)
Lemma decimalDigits_sound (fuel : positive) :
  forall n,
    n <= Npos fuel ->
    readDecimal (decimalDigits fuel n) = n /\
    Forall (fun c => isDigit c = true) (decimalDigits fuel n).
Proof.
  induction fuel as [fuel IH | fuel IH |]; intros n Hn.
  - destruct (N.lt_ge_cases n 10) as [Hs|Hb].
    + rewrite decimalDigits_small by exact Hs.
      split; [unfold readDecimal; simpl; rewrite digitValue_digitChar; lia|].
      repeat constructor; now apply isDigit_digitChar.
    + rewrite (proj2 (@decimalDigits_step fuel n Hb)).
      destruct (IH (n / 10) (@tenth_fits fuel n Hb (or_intror Hn))) as [Hr Hd].
      assert (Hm : n mod 10 < 10) by (apply N.mod_lt; lia).
      split.
      * rewrite readDecimal_snoc, Hr, digitValue_digitChar by exact Hm.
        symmetry; apply N.div_mod; lia.
      * apply Forall_app; split; [exact Hd|].
        repeat constructor; now apply isDigit_digitChar.
  - destruct (N.lt_ge_cases n 10) as [Hs|Hb].
    + rewrite decimalDigits_small by exact Hs.
      split; [unfold readDecimal; simpl; rewrite digitValue_digitChar; lia|].
      repeat constructor; now apply isDigit_digitChar.
    + rewrite (proj1 (@decimalDigits_step fuel n Hb)).
      destruct (IH (n / 10) (@tenth_fits fuel n Hb (or_introl Hn))) as [Hr Hd].
      assert (Hm : n mod 10 < 10) by (apply N.mod_lt; lia).
      split.
      * rewrite readDecimal_snoc, Hr, digitValue_digitChar by exact Hm.
        symmetry; apply N.div_mod; lia.
      * apply Forall_app; split; [exact Hd|].
        repeat constructor; now apply isDigit_digitChar.
  - assert (Hs : n < 10) by lia.
    rewrite decimalDigits_small by exact Hs.
    split; [unfold readDecimal; simpl; rewrite digitValue_digitChar; lia|].
    repeat constructor; now apply isDigit_digitChar.
Qed.

Lemma decimal_sound (n : N) :
  readDecimal (decimal n) = n /\
  Forall (fun c => isDigit c = true) (decimal n).
Proof.
  destruct n as [|p]; [split; [reflexivity | repeat constructor]|].
  apply decimalDigits_sound; lia.
Qed.

End RequestIds.

Section RequestIdLengths.
Import Middleware.
Local Open Scope N_scope.

Lemma pow10_succ (k : nat) :
  10 ^ N.of_nat (S k) = 10 * 10 ^ N.of_nat k /\ 10 ^ N.of_nat k <> 0.
Proof.
  split; [now rewrite Nat2N.inj_succ, N.pow_succ_r'|].
  apply N.pow_nonzero; discriminate.
Qed.

Lemma digits_step (fuel fuel' : positive) (n : N) :
  fuel = xO fuel' \/ fuel = xI fuel' ->
  10 <= n -> n <= Npos fuel ->
  decimalDigits fuel n
  = decimalDigits fuel' (n / 10) ++ [digitChar (n mod 10)] /\
  n / 10 <= Npos fuel'.
Proof.
  intros [-> | ->] Hb Hn.
  - split; [exact (proj1 (@decimalDigits_step fuel' n Hb))|].
    exact (@tenth_fits fuel' n Hb (or_introl Hn)).
  - split; [exact (proj2 (@decimalDigits_step fuel' n Hb))|].
    exact (@tenth_fits fuel' n Hb (or_intror Hn)).
Qed.

(** A number below [10^(k+1)] has at most [k+1] digits, and exactly that
    many when it is at least [10^k]. *)
Lemma decimalDigits_length (fuel : positive) :
  forall n k,
    n <= Npos fuel ->
    n < 10 ^ N.of_nat (S k) ->
    (length (decimalDigits fuel n) <= S k)%nat /\
    (10 ^ N.of_nat k <= n -> length (decimalDigits fuel n) = S k).
Proof.
  assert (Hsmall : forall f n k, n < 10 ->
            (length (decimalDigits f n) <= S k)%nat /\
            (10 ^ N.of_nat k <= n -> length (decimalDigits f n) = S k)).
  { intros f n k Hs; rewrite decimalDigits_small by exact Hs; simpl.
    split; [lia|]. intros Hlow.
    destruct k as [|k]; [reflexivity|].
    destruct (pow10_succ k) as [He Hp]; rewrite He in Hlow; lia. }
  assert (Hbig : forall f f' n k,
            f = xO f' \/ f = xI f' ->
            (forall n k, n <= Npos f' -> n < 10 ^ N.of_nat (S k) ->
               (length (decimalDigits f' n) <= S k)%nat /\
               (10 ^ N.of_nat k <= n -> length (decimalDigits f' n) = S k)) ->
            10 <= n -> n <= Npos f -> n < 10 ^ N.of_nat (S k) ->
            (length (decimalDigits f n) <= S k)%nat /\
            (10 ^ N.of_nat k <= n -> length (decimalDigits f n) = S k)).
  { intros f f' n k Hf IH Hb Hn Hup.
    destruct (digits_step Hf Hb Hn) as [-> Hfit].
    destruct k as [|k]; [simpl in Hup; lia|].
    destruct (pow10_succ (S k)) as [He _]; rewrite He in Hup.
    destruct (pow10_succ k) as [He' Hp].
    assert (Hup' : n / 10 < 10 ^ N.of_nat (S k))
      by (apply N.Div0.div_lt_upper_bound; exact Hup).
    destruct (IH (n / 10) k Hfit Hup') as [Hle Heq].
    rewrite length_app; simpl length; split; [lia|].
    intros Hlow; rewrite He' in Hlow.
    rewrite Heq; [lia|].
    apply N.div_le_lower_bound; [discriminate|].
    rewrite He' in Hup'. lia. }
  induction fuel as [fuel IH | fuel IH |]; intros n k Hn Hup.
  - destruct (N.lt_ge_cases n 10) as [Hs|Hb]; [now apply Hsmall|].
    apply (Hbig (xI fuel) fuel); auto.
  - destruct (N.lt_ge_cases n 10) as [Hs|Hb]; [now apply Hsmall|].
    apply (Hbig (xO fuel) fuel); auto.
  - apply Hsmall; lia.
Qed.

Lemma decimal_length (n : N) (k : nat) :
  n < 10 ^ N.of_nat (S k) ->
  (length (decimal n) <= S k)%nat /\
  (10 ^ N.of_nat k <= n -> 0 < n -> length (decimal n) = S k).
Proof.
  intros Hup; destruct n as [|p].
  - simpl; split; [lia | intros _ H; lia].
  - destruct (@decimalDigits_length p (Npos p) k) as [Hle Heq];
      [lia | exact Hup |].
    split; [exact Hle | intros Hlow _; now apply Heq].
Qed.

Lemma padStart_facts (width : nat) (s : list ascii) :
  (length s <= width)%nat ->
  length (padStart width "0" s) = width /\
  readDecimal (padStart width "0" s) = readDecimal s /\
  (Forall (fun c => isDigit c = true) s ->
   Forall (fun c => isDigit c = true) (padStart width "0" s)).
Proof.
  intros Hle; unfold padStart; repeat split.
  - rewrite length_app, repeat_length; lia.
  - unfold readDecimal; rewrite fold_left_app.
    f_equal. induction (width - length s)%nat as [|m IH]; simpl; auto.
  - intros Hs; apply Forall_app; split; [|exact Hs].
    induction (width - length s)%nat as [|m IH]; simpl; constructor; auto.
Qed.

End RequestIdLengths.

Section RequestIdClaims.
Import Middleware.
Local Open Scope N_scope.

Lemma nextCounter_bound (c : N) : nextCounter c < 1000000.
Proof. unfold nextCounter; apply N.mod_lt; discriminate. Qed.

Lemma sequential_facts (c : N) :
  c < 1000000 ->
  length (sequential c) = 6%nat /\
  readDecimal (sequential c) = c /\
  Forall (fun ch => isDigit ch = true) (sequential c).
Proof.
  intros Hc; unfold sequential.
  destruct (@decimal_length c 5) as [Hle _]; [exact Hc|].
  destruct (@padStart_facts 6%nat (decimal c) Hle) as (Hl & Hr & Hd).
  destruct (decimal_sound c) as [Hread Hdig].
  repeat split; [exact Hl | now rewrite Hr | now apply Hd].
Qed.

(** X24: the counter the middleware keeps is always below 1000000 and
    starts again at 0 after 999999; the sequential part of a request id
    is exactly six decimal digits and reads back as the counter. *)
Theorem X24_sequence_number_is_six_digits
        (now : Clock) (requestCounter : N) :
  let counter := snd (requestId now requestCounter) in
  counter = nextCounter requestCounter /\
  counter < 1000000 /\
  (requestCounter < 999999 -> counter = requestCounter + 1) /\
  (requestCounter = 999999 -> counter = 0) /\
  length (sequential counter) = 6%nat /\
  Forall (fun ch => isDigit ch = true) (sequential counter) /\
  readDecimal (sequential counter) = counter.
Proof.
  intros counter; subst counter; simpl snd.
  pose proof (nextCounter_bound requestCounter) as Hb.
  destruct (sequential_facts Hb) as (Hl & Hr & Hd).
  repeat split; auto.
  - intros H; unfold nextCounter; apply N.mod_small; lia.
  - intros ->; reflexivity.
Qed.

Lemma string_length_append (a b : string) :
  String.length (a ++ b)%string = (String.length a + String.length b)%nat.
Proof. induction a as [|c a IH]; simpl; [reflexivity | now rewrite IH]. Qed.

Lemma string_length_of_list (l : list ascii) :
  String.length (string_of_list_ascii l) = length l.
Proof. induction l as [|c l IH]; simpl; [reflexivity | now rewrite IH]. Qed.

Lemma pad2_length (n : N) : n < 100 -> length (pad2 n) = 2%nat.
Proof.
  intros H; unfold pad2.
  destruct (@decimal_length n 1) as [Hle _]; [exact H|].
  exact (proj1 (@padStart_facts 2%nat (decimal n) Hle)).
Qed.

(** X25: for a clock in the range [Date] offers and a four-digit year,
    a request id has exactly 27 characters: ["hixbe-"], fourteen
    characters of timestamp, ["-"] and six of sequence number. *)
Theorem X25_request_id_has_27_chars (now : Clock) (requestCounter : N) :
  1000 <= fullYear now < 10000 ->
  month now <= 11 ->
  date now <= 31 ->
  hours now <= 23 ->
  minutes now <= 59 ->
  seconds now <= 59 ->
  String.length (fst (requestId now requestCounter)) = 27%nat /\
  length (datetime now) = 14%nat.
Proof.
  intros Hy Hmo Hd Hh Hmi Hs.
  assert (Hdt : length (datetime now) = 14%nat).
  { unfold datetime; repeat rewrite length_app.
    rewrite !pad2_length by lia.
    destruct (@decimal_length (fullYear now) 3) as [_ Hyear];
      [apply Hy|].
    rewrite Hyear; [reflexivity | apply Hy | lia]. }
  split; [|exact Hdt].
  unfold requestId; cbv zeta; cbn [fst].
  repeat rewrite string_length_append.
  rewrite !string_length_of_list, Hdt.
  rewrite (proj1 (sequential_facts (nextCounter_bound requestCounter))).
  reflexivity.
Qed.

Lemma X25_request_id_has_27_chars_witness :
  fst (requestId {| fullYear := 2026; month := 10; date := 2;
                    hours := 9; minutes := 7; seconds := 5 |} 41)
  = "hixbe-20261102090705-000042" /\
  String.length
    (fst (requestId {| fullYear := 2026; month := 10; date := 2;
                       hours := 9; minutes := 7; seconds := 5 |} 41))
  = 27%nat.
Proof.
  split; [reflexivity|].
  refine (proj1 (@X25_request_id_has_27_chars
                   {| fullYear := 2026; month := 10; date := 2;
                      hours := 9; minutes := 7; seconds := 5 |} 41
                   _ _ _ _ _ _)); simpl; lia.
Defined.

Lemma string_append_cancel (a x y : string) :
  (a ++ x = a ++ y)%string -> x = y.
Proof.
  induction a as [|c a IH]; simpl; [auto|].
  intros [= H]; auto.
Qed.

Lemma string_of_list_inj (l l' : list ascii) :
  string_of_list_ascii l = string_of_list_ascii l' -> l = l'.
Proof.
  intros H.
  rewrite <- (list_ascii_of_string_of_list_ascii l),
          <- (list_ascii_of_string_of_list_ascii l').
  now rewrite H.
Qed.

(** X26: two request ids made at the same clock reading are equal
    exactly when the counters they were made from agree after the
    increment modulo 1000000; within one second the first 1000000
    requests all get different ids. *)
Theorem X26_request_ids_of_one_second (now : Clock) (c1 c2 : N) :
  (fst (requestId now c1) = fst (requestId now c2) <->
   nextCounter c1 = nextCounter c2) /\
  (c1 < 1000000 -> c2 < 1000000 ->
   fst (requestId now c1) = fst (requestId now c2) -> c1 = c2).
Proof.
  assert (Hiff : fst (requestId now c1) = fst (requestId now c2) <->
                 nextCounter c1 = nextCounter c2).
  { unfold requestId; cbv zeta; cbn [fst]; split.
    - intros H.
      do 3 apply string_append_cancel in H.
      apply string_of_list_inj in H.
      destruct (sequential_facts (nextCounter_bound c1)) as (_ & R1 & _).
      destruct (sequential_facts (nextCounter_bound c2)) as (_ & R2 & _).
      rewrite <- R1, <- R2; now rewrite H.
    - intros ->; reflexivity. }
  split; [exact Hiff|].
  intros H1 H2 H; apply Hiff in H; unfold nextCounter in H.
  destruct (N.eq_dec c1 999999) as [->|N1];
    destruct (N.eq_dec c2 999999) as [->|N2]; auto.
  - rewrite (N.mod_small (c2 + 1)) in H by lia.
    change ((999999 + 1) mod 1000000) with 0 in H; lia.
  - rewrite (N.mod_small (c1 + 1)) in H by lia.
    change ((999999 + 1) mod 1000000) with 0 in H; lia.
  - rewrite !N.mod_small in H by lia; lia.
Qed.

End RequestIdClaims.
